(** * AIEObjectFifoStatefulTransform: a shallow embedding

    The pass of [lib/AIEObjectFifoStatefulTransform.cpp] lowers object FIFOs
    to buffers, locks, tile DMAs and unrolled loops.  This development embeds
    the functions of that file as Rocq functions over a small model of the IR
    (operations are records, SSA values are handles, [DenseMap]s are finite
    maps) and proves the properties stated for them.

    Conventions.
    - A C++ [int] is a [Z]; where the source computes a value that may leave
      the 32-bit range ([maxAcquire + 1]) the wrap-around is written with
      [wrap32].
    - [assert(c && "msg")] is a fatal error: a function that can reach one
      returns a [result], [Fatal e] naming the assertion that fired.
    - [DenseMap::operator[]] of a missing key yields the value-initialised
      element ([0], the empty vector); [usage] and [lookup_vec] read a map
      that way. *)

From Stdlib Require Import ZArith List Lia Bool.
From stdpp Require Import base numbers option list gmap.
Import ListNotations.

Local Open Scope Z_scope.

(** ** Values, integers, errors *)

(** An SSA value (the result of a [TileOp], an [ObjectFifoCreateOp], ...) is
    identified by a handle; [==] on [Value]s is equality of handles. *)
Definition Value := nat.

Definition wrap32 (z : Z) : Z := (z + 2 ^ 31) mod 2 ^ 32 - 2 ^ 31.

Definition int_range (z : Z) : Prop := - 2 ^ 31 <= z < 2 ^ 31.

(** [int64_t], for the bounds and the step of a loop. *)
Definition wrap64 (z : Z) : Z := (z + 2 ^ 63) mod 2 ^ 64 - 2 ^ 63.

Definition int64_range (z : Z) : Prop := - 2 ^ 63 <= z < 2 ^ 63.

(** The assertions of the source file, by their message. *)
Inductive FatalError : Type :=
| NoMoreLocks              (* "No more locks to allocate!" *)
| TooManyDmaBlocks         (* "Cannot have more than 16 blocks in a DMA channel." *)
| NotInsideCoreOp          (* "... must be used inside a CoreOp" *)
| ProducerPortOnWrongTile  (* "Producer port of objectFifo accessed by core running on non-producer tile" *)
| ConsumerPortOnWrongTile  (* "Consumer port of objectFifo accessed by core running on non-consumer tile" *)
| ReleaseMoreThanAcquired  (* "Cannot release more elements than are already acquired." *)
| SubviewOutOfBounds       (* "Index out of bounds for subview: ..." *)
| NotAcquireOrRelease      (* "... must be called on either ObjectFifoAcquireOp or ObjectFifoReleaseOp" *)
| UndefinedBehaviour.      (* a null dereference, an index past the end, a division by zero *)

Inductive result (A : Type) : Type :=
| Ok (a : A)
| Fatal (e : FatalError).
Arguments Ok {A} a.
Arguments Fatal {A} e.

Global Instance result_ret : MRet result := fun A a => Ok a.
Global Instance result_bind : MBind result := fun A B k r =>
  match r with
  | Ok a => k a
  | Fatal e => Fatal e
  end.

Global Instance result_fmap : FMap result := fun A B f r =>
  match r with
  | Ok a => Ok (f a)
  | Fatal e => Fatal e
  end.

Definition is_fatal {A : Type} (r : result A) : bool :=
  match r with Ok _ => false | Fatal _ => true end.

(** ** The IR the pass reads

    Only what the pass looks at is kept of an operation: which operation it
    is, its operands and results, and the operations nested in its regions
    (a region holds one block, as inside [scf.for] and [AIE.core]). *)

Inductive ObjectFifoPort : Type := Produce | Consume.

Global Instance ObjectFifoPort_eq_dec : EqDecision ObjectFifoPort.
Proof. solve_decision. Defined.

(** [AIE.tile(col, row)] and the value it defines. *)
Record TileOp : Type := mkTileOp {
  tile_result : Value;
  colIndex : Z;
  rowIndex : Z
}.

(** [AIE.objectFifo.createObjectFifo(producer, {consumers}) {elemNumber}].
    The element type is a memref, of which the shape is kept. *)
Record ObjectFifoCreateOp : Type := mkCreateOp {
  fifo_result : Value;
  getProducerTileOp : TileOp;
  consumerTiles : list TileOp;
  elemNumber : Z;
  elemShape : list Z
}.

Definition producerTile (op : ObjectFifoCreateOp) : Value :=
  tile_result (getProducerTileOp op).

(** Modelled from the spec: the accessor [size()] is declared with the
    dialect, outside the file.  A queue has one depth; line 699 overwrites
    the attribute ["elemNumber"] and line 701 reads the new depth back
    through [size()]. *)
Definition size (op : ObjectFifoCreateOp) : Z := elemNumber op.

Definition setElemNumber (op : ObjectFifoCreateOp) (n : Z) : ObjectFifoCreateOp :=
  {| fifo_result := fifo_result op;
     getProducerTileOp := getProducerTileOp op;
     consumerTiles := consumerTiles op;
     elemNumber := n;
     elemShape := elemShape op |}.

Inductive OpKind : Type :=
| KAcquire (port : ObjectFifoPort) (acqNumber : Z)   (* operand 0: the fifo *)
| KRelease (port : ObjectFifoPort) (relNumber : Z)   (* operand 0: the fifo *)
| KSubviewAccess (index : Z)                         (* operand 0: the subview *)
| KFor                                               (* scf.for *)
| KConstant (value : Z)                              (* arith.constant : index *)
| KAddI                                              (* arith.addi *)
| KOther (opcode : nat).

#[warnings="-register-all"]
Inductive Operation : Type :=
| mkOperation (kind : OpKind) (operands : list Value) (results : list Value)
              (regions : list (list Operation)).

Definition op_kind (o : Operation) : OpKind :=
  match o with mkOperation k _ _ _ => k end.
Definition getOperands (o : Operation) : list Value :=
  match o with mkOperation _ os _ _ => os end.
Definition getResults (o : Operation) : list Value :=
  match o with mkOperation _ _ rs _ => rs end.
Definition getRegions (o : Operation) : list (list Operation) :=
  match o with mkOperation _ _ _ rg => rg end.

(** [acqOp.fifo()], [relOp.fifo()]: operand 0. *)
Definition fifo (o : Operation) : option Value := head (getOperands o).

Definition isAcquire (o : Operation) : bool :=
  match op_kind o with KAcquire _ _ => true | _ => false end.
Definition isRelease (o : Operation) : bool :=
  match op_kind o with KRelease _ _ => true | _ => false end.

Definition acqNumber (o : Operation) : Z :=
  match op_kind o with KAcquire _ n => n | _ => 0 end.
Definition relNumber (o : Operation) : Z :=
  match op_kind o with KRelease _ n => n | _ => 0 end.
Definition port (o : Operation) : option ObjectFifoPort :=
  match op_kind o with
  | KAcquire p _ | KRelease p _ => Some p
  | _ => None
  end.

(** [op->walk(...)]: the operations nested in [o], then [o] itself
    (post-order, blocks and operations in their order). *)
Fixpoint walk (o : Operation) : list Operation :=
  match o with
  | mkOperation _ _ _ regions =>
      flat_map (fun blk => flat_map walk blk) regions ++ [o]
  end.

(** [AIE.core(tile) { body }]. *)
Record CoreOp : Type := mkCoreOp {
  core_tile : Value;
  core_body : list Operation
}.

Definition walk_core (c : CoreOp) : list Operation :=
  flat_map walk (core_body c).

(** ** Lock analysis *)

Module LockAnalysis.

(** A [LockOp] of the module: the tile it belongs to and its id. *)
Record LockOp : Type := mkLockOp { tile : Value; getLockID_attr : Z }.

(** [locksPerTile[k]]: a missing key reads as [0]. *)
Definition usage (locksPerTile : gmap (Value * Z) Z) (k : Value * Z) : Z :=
  default 0 (locksPerTile !! k).

(** The constructor: every lock of the module is marked used. *)
Definition init (locks : list LockOp) : gmap (Value * Z) Z :=
  foldl (fun m l => <[(tile l, getLockID_attr l) := 1]> m) ∅ locks.

(** The body of [for (unsigned i = ...; i < 16; i++)], for the [n]
    remaining indices from [i] on. *)
Fixpoint scan (locksPerTile : gmap (Value * Z) Z) (tileOp : Value)
         (i : Z) (n : nat) : Z * gmap (Value * Z) Z :=
  match n with
  | O => (-1, locksPerTile)
  | S n' =>
      if usage locksPerTile (tileOp, i) =? 0
      then (i, <[(tileOp, i) := 1]> locksPerTile)
      else scan locksPerTile tileOp (i + 1) n'
  end.

(** [int getLockID(Value tileOp)]: the id and the updated map. *)
Definition getLockID (locksPerTile : gmap (Value * Z) Z) (tileOp : Value)
  : Z * gmap (Value * Z) Z :=
  scan locksPerTile tileOp 0 16.

(** The allocation requests the pass serves one after the other, one per
    tile of [tiles]: the [(tile, id)] pairs handed out and the final map. *)
Fixpoint serve (locksPerTile : gmap (Value * Z) Z) (tiles : list Value)
  : list (Value * Z) * gmap (Value * Z) Z :=
  match tiles with
  | [] => ([], locksPerTile)
  | t :: tiles' =>
      let '(id, m') := getLockID locksPerTile t in
      let '(rest, m'') := serve m' tiles' in
      ((t, id) :: rest, m'')
  end.

(** Every lock of the module is marked in the map. *)
Definition covers (locks : list LockOp) (m : gmap (Value * Z) Z) : Prop :=
  forall l, l ∈ locks -> usage m (tile l, getLockID_attr l) <> 0.

End LockAnalysis.

(** ** The state of the pass *)

Record BufferOp : Type := mkBufferOp {
  buf_sym_name : Z;          (* "buff" ++ to_string(buff_index) *)
  buf_tile : Value;
  buf_shape : list Z
}.

(** The fields of [AIEObjectFifoStatefulTransformPass] and the lock
    analysis it carries through [runOnOperation]; maps over
    [ObjectFifoCreateOp] are keyed by the handle of the operation. *)
Record PassState : Type := mkPassState {
  locksPerTile : gmap (Value * Z) Z;
  buffersPerFifo : gmap Value (list BufferOp);
  locksPerFifo : gmap Value (list LockAnalysis.LockOp);
  splitFifos : gmap Value (list ObjectFifoCreateOp);
  buff_index : Z
}.

(** The loop of [createObjectFifoElements], [n] iterations left; [buffers]
    and [locks] are the vectors built so far. *)
Fixpoint createElements (n : nat) (op : ObjectFifoCreateOp)
         (lpt : gmap (Value * Z) Z) (bi : Z)
         (buffers : list BufferOp) (locks : list LockAnalysis.LockOp)
  : result (gmap (Value * Z) Z * Z * list BufferOp * list LockAnalysis.LockOp) :=
  match n with
  | O => Ok (lpt, bi, buffers, locks)
  | S n' =>
      let buff := mkBufferOp bi (producerTile op) (elemShape op) in
      let '(lockID, lpt') := LockAnalysis.getLockID lpt (producerTile op) in
      if lockID <? 0 then Fatal NoMoreLocks
      else createElements n' op lpt' (bi + 1) (buffers ++ [buff])
             (locks ++ [LockAnalysis.mkLockOp (producerTile op) lockID])
  end.

Definition createObjectFifoElements (st : PassState) (op : ObjectFifoCreateOp)
  : result PassState :=
  '(lpt, bi, buffers, locks) ←
    createElements (Z.to_nat (size op)) op (locksPerTile st) (buff_index st) [] [];
  mret {| locksPerTile := lpt;
          buffersPerFifo := <[fifo_result op := buffers]> (buffersPerFifo st);
          locksPerFifo := <[fifo_result op := locks]> (locksPerFifo st);
          splitFifos := splitFifos st;
          buff_index := bi |}.

(** ** Sizing and creation of object FIFOs *)

(** The update of [maxAcquire] by one visited operation (lines 628-632). *)
Definition maxAcquire_step (objFifo : ObjectFifoCreateOp) (maxAcquire : Z)
           (o : Operation) : Z :=
  if isAcquire o && bool_decide (fifo o = Some (fifo_result objFifo))
     && (maxAcquire <? acqNumber o)
  then acqNumber o else maxAcquire.

(** The loop over the cores of the module (lines 625-634). *)
Definition maxAcquire (cores : list CoreOp) (tile : Value)
           (objFifo : ObjectFifoCreateOp) : Z :=
  foldl (fun acc coreOp =>
           if bool_decide (core_tile coreOp = tile)
           then foldl (maxAcquire_step objFifo) acc (walk_core coreOp)
           else acc)
        0 cores.

(** [int findObjectFifoSize(ModuleOp &m, Value tile, ObjectFifoCreateOp)]. *)
Definition findObjectFifoSize (cores : list CoreOp) (tile : Value)
           (objFifo : ObjectFifoCreateOp) : Z :=
  if size objFifo =? 0 then 0
  else
    let maxAcq := maxAcquire cores tile objFifo in
    if 0 <? maxAcq then
      if (maxAcq =? 1) && (size objFifo =? 1) then 1
      else wrap32 (maxAcq + 1)
    else 0.

Section CreateObjectFifos.

(** [isLegalMemAffinity(coreCol, coreRow, memCol, memRow)] is declared with
    the dialect, outside the file. *)
Variable isLegalMemAffinity : Z -> Z -> Z -> Z -> bool.

(** The cores of the module. *)
Variable cores : list CoreOp.

(** The loop over [createOp.consumerTiles()] (lines 666-691): [shared], the
    consumer fifos pushed on [splitConsumerFifos], and the next unused
    handle.  [fresh] is the handle the next created operation gets. *)
Fixpoint splitConsumers (createOp : ObjectFifoCreateOp) (todo : list TileOp)
         (splitConsumerFifos : list ObjectFifoCreateOp) (fresh : Value)
  : bool * list ObjectFifoCreateOp * Value :=
  match todo with
  | [] => (false, splitConsumerFifos, fresh)
  | consumerTileOp :: todo' =>
      if (length (consumerTiles createOp) =? 1)%nat
         && isLegalMemAffinity
              (colIndex (getProducerTileOp createOp))
              (rowIndex (getProducerTileOp createOp))
              (colIndex consumerTileOp) (rowIndex consumerTileOp)
      then (true, splitConsumerFifos, fresh)
      else
        let consMaxAcquire :=
          findObjectFifoSize cores (tile_result consumerTileOp) createOp in
        let consumerFifo :=
          {| fifo_result := fresh;
             getProducerTileOp := consumerTileOp;
             consumerTiles := [consumerTileOp];
             elemNumber := consMaxAcquire;
             elemShape := elemShape createOp |} in
        splitConsumers createOp todo' (splitConsumerFifos ++ [consumerFifo])
                       (S fresh)
  end.

(** What one iteration of the loop over the [ObjectFifoCreateOp]s leaves
    behind. *)
Record Created : Type := mkCreated {
  cr_state : PassState;
  cr_fresh : Value;
  cr_shared : bool;
  cr_createOp : ObjectFifoCreateOp;             (* the fifo, resized when split *)
  cr_children : list ObjectFifoCreateOp         (* splitConsumerFifos *)
}.

(** The body of the loop over the [ObjectFifoCreateOp]s (lines 660-705). *)
Definition createOne (st : PassState) (fresh : Value)
           (createOp : ObjectFifoCreateOp) : result Created :=
  let '(shared, splitConsumerFifos, fresh') :=
    splitConsumers createOp (consumerTiles createOp) [] fresh in
  if shared then
    st' ← createObjectFifoElements st createOp;
    mret (mkCreated st' fresh' true createOp splitConsumerFifos)
  else
    let prodMaxAcquire :=
      findObjectFifoSize cores (producerTile createOp) createOp in
    let createOp' := setElemNumber createOp prodMaxAcquire in
    st' ← createObjectFifoElements st createOp';
    mret (mkCreated
            {| locksPerTile := locksPerTile st';
               buffersPerFifo := buffersPerFifo st';
               locksPerFifo := locksPerFifo st';
               splitFifos := <[fifo_result createOp := splitConsumerFifos]>
                               (splitFifos st');
               buff_index := buff_index st' |}
            fresh' false createOp' splitConsumerFifos).

(** The loop itself.  A consumer fifo is inserted right after the fifo it
    was split from, so the iteration over the operations of the module
    meets it next ("their elements will be created in next iterations"):
    the fifos still to visit are the new ones, last created first, then the
    ones that were already there.  [fuel] bounds the number of fifos
    visited; the result lists the fifos in the order they were visited. *)
Fixpoint createAll (fuel : nat) (st : PassState) (fresh : Value)
         (todo : list ObjectFifoCreateOp)
  : option (result (PassState * Value * list Created)) :=
  match todo with
  | [] => Some (Ok (st, fresh, []))
  | createOp :: todo' =>
      match fuel with
      | O => None
      | S fuel' =>
          match createOne st fresh createOp with
          | Fatal e => Some (Fatal e)
          | Ok c =>
              match createAll fuel' (cr_state c) (cr_fresh c)
                              (rev (cr_children c) ++ todo') with
              | Some (Ok (st', fresh', cs)) => Some (Ok (st', fresh', c :: cs))
              | other => other
              end
          end
      end
  end.

End CreateObjectFifos.

(** ** Split-fifo substitution and port check *)

(** [op->replaceUsesOfWith(from, to)]. *)
Definition replaceUsesOfWith (o : Operation) (from to : Value) : Operation :=
  match o with
  | mkOperation k operands results regions =>
      mkOperation k
        (map (fun v => if bool_decide (v = from) then to else v) operands)
        results regions
  end.

(** [void checkSplitFifo(Operation *op, TileOp tile)]: the operation after
    the call.  [sf] is [splitFifos]; an operand that no
    [ObjectFifoCreateOp] defines is not a key of it. *)
Definition checkSplitFifo (sf : gmap Value (list ObjectFifoCreateOp))
           (o : Operation) (tile : Value) : result Operation :=
  if isAcquire o || isRelease o then
    match fifo o with
    | None => Ok o
    | Some parentFifo =>
        match sf !! parentFifo with
        | None => Ok o
        | Some children =>
            if bool_decide (port o = Some Consume) then
              Ok (foldl (fun o' splitFifo =>
                           if bool_decide (producerTile splitFifo = tile)
                           then replaceUsesOfWith o' parentFifo (fifo_result splitFifo)
                           else o')
                        o children)
            else Ok o
        end
    end
  else Fatal NotAcquireOrRelease.

(** What [getParentOp()] meets on the way up from an operation. *)
Inductive ParentOp : Type :=
| ParentCore (tile : Value)     (* an [AIE.core] on [tile] *)
| ParentOther.                  (* any other operation *)

(** The loop [while (!isa<CoreOp>(coreOp))] of [checkCorrectPort]:
    [parents] are the operations around the checked one, innermost first;
    after the outermost [getParentOp()] is null. *)
Fixpoint enclosingCore (parents : list ParentOp) : result Value :=
  match parents with
  | [] => Fatal NotInsideCoreOp
  | ParentCore t :: _ => Ok t
  | ParentOther :: parents' => enclosingCore parents'
  end.

(** [void checkCorrectPort(Operation *op)].  [defs] maps the handle of a
    value to the [ObjectFifoCreateOp] that defines it. *)
Definition checkCorrectPort (defs : gmap Value ObjectFifoCreateOp)
           (o : Operation) (parents : list ParentOp) : result unit :=
  if isAcquire o || isRelease o then
    coreTile ← enclosingCore parents;
    match port o with
    | Some Produce =>
        match fifo o ≫= (defs !!.) with
        | None => Fatal UndefinedBehaviour
        | Some objFifo =>
            if bool_decide (coreTile <> producerTile objFifo)
            then Fatal ProducerPortOnWrongTile else Ok tt
        end
    | Some Consume =>
        match fifo o ≫= (defs !!.) with
        | None => Fatal UndefinedBehaviour
        | Some objFifo =>
            if existsb (fun consumerTile =>
                          bool_decide (coreTile = tile_result consumerTile))
                       (consumerTiles objFifo)
            then Ok tt else Fatal ConsumerPortOnWrongTile
        end
    | None => Ok tt
    end
  else Fatal NotAcquireOrRelease.

(** ** Loop unrolling *)

(** [std::set<int>::insert]: the set is the ascending list of its
    elements, which is the order a range-for visits them in. *)
Fixpoint set_insert (x : Z) (s : list Z) : list Z :=
  match s with
  | [] => [x]
  | y :: s' =>
      if x <? y then x :: s
      else if x =? y then s
      else y :: set_insert x s'
  end.

(** [a / b] and [a % b] of C++: truncated, undefined for [b = 0]. *)
Definition cdiv (a b : Z) : result Z :=
  if b =? 0 then Fatal UndefinedBehaviour else Ok (Z.quot a b).
Definition crem (a b : Z) : result Z :=
  if b =? 0 then Fatal UndefinedBehaviour else Ok (Z.rem a b).

(** [int computeLCM(std::set<int> values)]. *)
Fixpoint computeLCM_from (lcm : Z) (values : list Z) : result Z :=
  match values with
  | [] => Ok lcm
  | i :: values' =>
      q ← cdiv (wrap32 (i * lcm)) (Z.gcd i lcm);
      computeLCM_from q values'
  end.

Definition computeLCM (values : list Z) : result Z := computeLCM_from 1 values.

(** [scf.for %iv = %lb to %ub step %step { body }]: the three operands, the
    induction variable and the operations of the body without its
    terminator. *)
Record ForOp : Type := mkForOp {
  getLowerBound : Value;
  getUpperBound : Value;
  getStep : Value;
  getInductionVar : Value;
  getBody : list Operation
}.

Definition LOOP_VAR_DEPENDENCY : Z := -2.

(** The position in [body] of the operation that defines [v]. *)
Fixpoint definedAt (body : list Operation) (v : Value) : option nat :=
  match body with
  | [] => None
  | o :: body' =>
      if bool_decide (v ∈ getResults o) then Some O
      else S <$> definedAt body' v
  end.

Section Unroll.

(** [isBlockArgument v]: no operation defines [v] ([getDefiningOp()] is
    null).  The IR that answers this is outside the model. *)
Variable isBlockArgument : Value -> bool.

(** The dependency of one operand of the operation at position [index]
    (lines 326-337).  The operation is recorded in [opIndex] before its
    operands are read (line 320); [opIndex[definingOp]] of an operation of
    the body that was not visited yet reads as 0. *)
Definition dependencyIndex (forLoop : ForOp) (index : nat) (operand : Value)
  : result Z :=
  if bool_decide (operand = getInductionVar forLoop) then Ok LOOP_VAR_DEPENDENCY
  else if isBlockArgument operand then Fatal UndefinedBehaviour
  else match definedAt (getBody forLoop) operand with
       | Some k => if (k <=? index)%nat then Ok (Z.of_nat k) else Ok 0
       | None => Ok (-1)
       end.

Fixpoint mapM {A B : Type} (f : A -> result B) (l : list A) : result (list B) :=
  match l with
  | [] => Ok []
  | a :: l' => b ← f a; bs ← mapM f l'; mret (b :: bs)
  end.

(** [identifyDependencies]: the [dependencies] vector, one row per
    operation of the body ([operations] is the body itself). *)
Fixpoint identifyDependencies_from (forLoop : ForOp) (index : nat)
         (ops : list Operation) : result (list (list Z)) :=
  match ops with
  | [] => Ok []
  | o :: ops' =>
      row ← mapM (dependencyIndex forLoop index) (getOperands o);
      rows ← identifyDependencies_from forLoop (S index) ops';
      mret (row :: rows)
  end.

Definition identifyDependencies (forLoop : ForOp) : result (list (list Z)) :=
  identifyDependencies_from forLoop 0 (getBody forLoop).

End Unroll.

(** The operands of one clone (lines 363-391): the operations created on
    the way (a constant and an addition per dependency on the induction
    variable), the new operands, and the next unused handle. *)
Fixpoint patchOperands (fresh : Value) (operands : list Value) (deps : list Z)
         (duplicatedOperations : list Operation) (base : Value)
         (increment_value : Z)
  : result (list Operation * list Value * Value) :=
  match operands with
  | [] => Ok ([], [], fresh)
  | v :: operands' =>
      match deps with
      | [] => Fatal UndefinedBehaviour
      | d :: deps' =>
          if 0 <=? d then
            match duplicatedOperations !! Z.to_nat d ≫= (fun o => head (getResults o)) with
            | None => Fatal UndefinedBehaviour
            | Some r =>
                '(created, vs, fresh') ←
                  patchOperands fresh operands' deps' duplicatedOperations
                                base increment_value;
                mret (created, r :: vs, fresh')
            end
          else if d =? LOOP_VAR_DEPENDENCY then
            let increment := mkOperation (KConstant increment_value) [] [fresh] [] in
            let sum := mkOperation KAddI [base; fresh] [S fresh] [] in
            '(created, vs, fresh') ←
              patchOperands (S (S fresh)) operands' deps' duplicatedOperations
                            base increment_value;
            mret (increment :: sum :: created, S fresh :: vs, fresh')
          else
            '(created, vs, fresh') ←
              patchOperands fresh operands' deps' duplicatedOperations
                            base increment_value;
            mret (created, v :: vs, fresh')
      end
  end.

(** [op->clone()]: the same operation with results of its own.  The
    operations nested in its regions are copied as they are. *)
Definition clone (fresh : Value) (o : Operation) : Operation * Value :=
  match o with
  | mkOperation k operands results regions =>
      (mkOperation k operands (seq fresh (length results)) regions,
       (fresh + length results)%nat)
  end.

Definition setOperands (o : Operation) (operands : list Value) : Operation :=
  match o with
  | mkOperation k _ results regions => mkOperation k operands results regions
  end.

(** One round of [duplicateBlock] (the loop over [operations], lines
    359-396): what the builder inserted, in order. *)
Fixpoint duplicateRound (fresh : Value) (operations : list Operation)
         (dependencies : list (list Z)) (duplicatedOperations : list Operation)
         (base : Value) (increment_value : Z)
  : result (list Operation * Value) :=
  match operations with
  | [] => Ok ([], fresh)
  | o :: operations' =>
      match dependencies with
      | [] => Fatal UndefinedBehaviour
      | deps :: dependencies' =>
          let '(c, fresh1) := clone fresh o in
          '(created, vs, fresh2) ←
            patchOperands fresh1 (getOperands c) deps duplicatedOperations
                          base increment_value;
          let c' := setOperands c vs in
          '(inserted, fresh3) ←
            duplicateRound fresh2 operations' dependencies'
                           (duplicatedOperations ++ [c']) base increment_value;
          mret (created ++ c' :: inserted, fresh3)
      end
  end.

(** [duplicateBlock]: rounds [i], [i + 1], ... up to [numDuplications]. *)
Fixpoint duplicateBlock_from (n : nat) (i : Z) (fresh : Value)
         (operations : list Operation) (dependencies : list (list Z))
         (base : Value) (step : Z) (inLoop : bool)
  : result (list Operation * Value) :=
  match n with
  | O => Ok ([], fresh)
  | S n' =>
      let increment_value :=
        if inLoop then wrap64 ((i + 1) * step) else wrap64 (i * step) in
      '(inserted, fresh1) ←
        duplicateRound fresh operations dependencies [] base increment_value;
      '(inserted', fresh2) ←
        duplicateBlock_from n' (i + 1) fresh1 operations dependencies base step inLoop;
      mret (inserted ++ inserted', fresh2)
  end.

Definition duplicateBlock (fresh : Value) (numDuplications : Z)
           (operations : list Operation) (dependencies : list (list Z))
           (base : Value) (step : Z) (inLoop : bool)
  : result (list Operation * Value) :=
  duplicateBlock_from (Z.to_nat numDuplications) 0 fresh operations dependencies
                      base step inLoop.

(** The loop over the acquires of the body (lines 414-423): the body after
    the calls of [checkSplitFifo], [objFifoSizes] and [found]. *)
Fixpoint acquirePrepass (sf : gmap Value (list ObjectFifoCreateOp))
         (defs : gmap Value ObjectFifoCreateOp) (tile : Value)
         (body : list Operation) (objFifoSizes : list Z) (found : bool)
  : result (list Operation * list Z * bool) :=
  match body with
  | [] => Ok ([], objFifoSizes, found)
  | o :: body' =>
      if isAcquire o then
        o' ← checkSplitFifo sf o tile;
        match fifo o' ≫= (defs !!.) with
        | None => Fatal UndefinedBehaviour
        | Some op =>
            '(rest, sizes, found') ←
              acquirePrepass sf defs tile body' (set_insert (size op) objFifoSizes) true;
            mret (o' :: rest, sizes, found')
        end
      else
        '(rest, sizes, found') ← acquirePrepass sf defs tile body' objFifoSizes found;
        mret (o :: rest, sizes, found')
  end.

(** What the unrolling of one loop leaves: the constants created before
    the loop, the loop (unless it was erased), and the operations inserted
    after it. *)
Record Unrolled : Type := mkUnrolled {
  un_before : list Operation;
  un_loop : option ForOp;
  un_after : list Operation;
  un_constants : gmap Value Z;
  un_fresh : Value;
  un_unrollFactor : Z;
  un_remainder : Z
}.

Section UnrollOne.
Variable isBlockArgument : Value -> bool.
Variable sf : gmap Value (list ObjectFifoCreateOp).
Variable defs : gmap Value ObjectFifoCreateOp.

Definition constantOp (v : Value) (z : Z) : Operation :=
  mkOperation (KConstant z) [] [v] [].

(** The body of the walk over the loops of a core on [tile] (lines
    405-511).  [constants] gives the integer of every value that an
    [arith.constant] defines.  A loop without an acquire in its body is
    left alone ([None]). *)
Definition unrollOne (tile : Value) (constants : gmap Value Z) (fresh : Value)
           (forLoop : ForOp) : result (option Unrolled) :=
  '(body, objFifoSizes, found) ←
    acquirePrepass sf defs tile (getBody forLoop) [] false;
  unrollFactor ← computeLCM objFifoSizes;
  if negb found then Ok None else
  let forLoop :=
    mkForOp (getLowerBound forLoop) (getUpperBound forLoop) (getStep forLoop)
            (getInductionVar forLoop) body in
  match constants !! getUpperBound forLoop, constants !! getLowerBound forLoop,
        constants !! getStep forLoop with
  | Some old_upper_value, Some old_lower_value, Some old_step_value =>
      num_iter ← cdiv (wrap64 (old_upper_value - old_lower_value)) old_step_value;
      dependencies ← identifyDependencies isBlockArgument forLoop;
      if num_iter <=? unrollFactor then
        '(after, fresh') ←
          duplicateBlock fresh (wrap32 num_iter) body dependencies
                         (getLowerBound forLoop) old_step_value false;
        mret (Some (mkUnrolled [] None after constants fresh' unrollFactor 0))
      else
        let num_unrolls := wrap64 (unrollFactor - 1) in
        let new_step_value := wrap64 (unrollFactor * old_step_value) in
        r ← crem (wrap64 (old_upper_value - old_lower_value)) new_step_value;
        remainder ← cdiv r old_step_value;
        '(before1, upper, constants1, fresh1) ←
          (if 0 <? remainder then
             q ← cdiv (wrap64 (old_upper_value - old_lower_value)) new_step_value;
             let new_upper_bound := wrap64 (q * new_step_value) in
             mret ([constantOp fresh new_upper_bound], fresh,
                   <[fresh := new_upper_bound]> constants, S fresh)
           else mret ([], getUpperBound forLoop, constants, fresh));
        let new_step := constantOp fresh1 new_step_value in
        let constants2 := <[fresh1 := new_step_value]> constants1 in
        '(inside, fresh2) ←
          duplicateBlock (S fresh1) (wrap32 num_unrolls) body dependencies
                         (getInductionVar forLoop) old_step_value true;
        '(after, fresh3) ←
          duplicateBlock fresh2 (wrap32 remainder) body dependencies
                         upper old_step_value false;
        mret (Some (mkUnrolled (before1 ++ [new_step])
                      (Some (mkForOp (getLowerBound forLoop) upper fresh1
                                     (getInductionVar forLoop) (body ++ inside)))
                      after constants2 fresh3 unrollFactor remainder))
  | _, _, _ => Fatal UndefinedBehaviour
  end.

End UnrollOne.

(** ** Acquire and release resolution *)

(** Where an operation stands: in the body of the module, or in the block
    of a region of another operation, at an index of that block. *)
Inductive Loc : Type :=
| InModule (index : nat)
| InRegion (parent : Loc) (region : nat) (index : nat).

Inductive Block : Type :=
| ModuleBody
| BlockOf (parent : Loc) (region : nat).

Global Instance Loc_eq_dec : EqDecision Loc.
Proof. solve_decision. Defined.
Global Instance Block_eq_dec : EqDecision Block.
Proof. solve_decision. Defined.

(** [op->getBlock()]. *)
Definition getBlock (l : Loc) : Block :=
  match l with
  | InModule _ => ModuleBody
  | InRegion parent region _ => BlockOf parent region
  end.

Definition indexInBlock (l : Loc) : nat :=
  match l with
  | InModule index => index
  | InRegion _ _ index => index
  end.

(** [block->getParentOp()]; the parent of the body of the module is the
    module, which stands in no block ([None]). *)
Definition getParentOp (b : Block) : option Loc :=
  match b with
  | ModuleBody => None
  | BlockOf parent _ => Some parent
  end.

(** [a->isBeforeInBlock(b)], for two operations of one block. *)
Definition isBeforeInBlock (a b : Loc) : bool :=
  (indexInBlock a <? indexInBlock b)%nat.

(** The operations nested in [o] with where they stand, then [o] itself
    (the order of [walk]). *)
Fixpoint walkAt (l : Loc) (o : Operation) {struct o} : list (Loc * Operation) :=
  match o with
  | mkOperation _ _ _ regions =>
      (fix walkRegions (region : nat) (regions : list (list Operation)) :=
         match regions with
         | [] => []
         | blk :: regions' =>
             (fix walkBlock (index : nat) (ops : list Operation) :=
                match ops with
                | [] => []
                | o' :: ops' =>
                    walkAt (InRegion l region index) o' ++ walkBlock (S index) ops'
                end) 0%nat blk
             ++ walkRegions (S region) regions'
         end) 0%nat regions
      ++ [(l, o)]
  end.

(** The walk of the core that stands at index [i] of the module. *)
Definition walkCoreAt (i : nat) (c : CoreOp) : list (Loc * Operation) :=
  walkAt (InModule i) (mkOperation (KOther 0) [core_tile c] [] [core_body c]).

(** The operations around the one at [l] in a core on [tile], innermost
    first. *)
Fixpoint parentsIn (tile : Value) (l : Loc) : list ParentOp :=
  match l with
  | InModule _ => []
  | InRegion parent _ _ =>
      match parent with
      | InModule _ => [ParentCore tile]
      | InRegion _ _ _ => ParentOther :: parentsIn tile parent
      end
  end.

Inductive LockAction : Type := Acquire | Release.

Global Instance LockAction_eq_dec : EqDecision LockAction.
Proof. solve_decision. Defined.

(** [AIE.useLock(lock, action, mode)], with the operation it was inserted
    after. *)
Record UseLockOp : Type := mkUseLockOp {
  ul_after : Loc;
  ul_lock : LockAnalysis.LockOp;
  ul_mode : Z;
  ul_action : LockAction
}.

(** The maps and vectors that the walks of one core share (lines 749-764),
    the lock operations created so far, and [subviews] keyed by where the
    acquire stands. *)
Record CoreState : Type := mkCoreState {
  subviews : list (Loc * list BufferOp);
  acquiresPerFifo : gmap Value (list Z);
  releaseOps : list (Loc * Operation);
  acqPerFifo : gmap Value Z;
  relPerFifo : gmap Value Z;
  useLocks : list UseLockOp
}.

Definition emptyCoreState : CoreState := mkCoreState [] ∅ [] ∅ ∅ [].

(** [createUseLocks]: [n] iterations left; [acc] is [acqPerFifo] or
    [relPerFifo], [locks] is [locksPerFifo[op]]. *)
Fixpoint createUseLocks (n : nat) (after : Loc) (op : ObjectFifoCreateOp)
         (locks : list LockAnalysis.LockOp) (acc : gmap Value Z)
         (lockMode : Z) (lockAction : LockAction)
  : result (gmap Value Z * list UseLockOp) :=
  match n with
  | O => Ok (acc, [])
  | S n' =>
      let lockID := default 0 (acc !! fifo_result op) in
      if lockID <? 0 then Fatal UndefinedBehaviour else
      match locks !! Z.to_nat lockID with
      | None => Fatal UndefinedBehaviour
      | Some lock =>
          next ← crem (wrap32 (lockID + 1)) (elemNumber op);
          '(acc', created) ←
            createUseLocks n' after op locks (<[fifo_result op := next]> acc)
                           lockMode lockAction;
          mret (acc', mkUseLockOp after lock lockMode lockAction :: created)
      end
  end.

(** [updateAndReturnIndex]. *)
Definition updateAndReturnIndex (map : gmap Value Z) (op : ObjectFifoCreateOp)
  : Z * gmap Value Z :=
  match map !! fifo_result op with
  | None => (0, <[fifo_result op := 0]> map)
  | Some i => (i, map)
  end.

Section Resolver.
Variable sf : gmap Value (list ObjectFifoCreateOp).
Variable defs : gmap Value ObjectFifoCreateOp.
Variable buffers : gmap Value (list BufferOp).              (* buffersPerFifo *)
Variable locks : gmap Value (list LockAnalysis.LockOp).     (* locksPerFifo *)
Variable tile : Value.                                      (* coreOp.tile() *)

(** The body of the walk over the releases (lines 769-791). *)
Definition replaceRelease (st : CoreState) (l : Loc) (releaseOp : Operation)
  : result CoreState :=
  releaseOp ← checkSplitFifo sf releaseOp tile;
  _ ← checkCorrectPort defs releaseOp (parentsIn tile l);
  match fifo releaseOp ≫= (defs !!.) with
  | None => Fatal UndefinedBehaviour
  | Some op =>
      let '(_, relPerFifo1) := updateAndReturnIndex (relPerFifo st) op in
      let numLocks := relNumber releaseOp in
      let lockMode := if bool_decide (port releaseOp = Some Produce) then 1 else 0 in
      '(relPerFifo2, created) ←
        createUseLocks (Z.to_nat numLocks) l op
                       (default [] (locks !! fifo_result op))
                       relPerFifo1 lockMode Release;
      mret {| subviews := subviews st;
              acquiresPerFifo := acquiresPerFifo st;
              releaseOps := releaseOps st ++ [(l, releaseOp)];
              acqPerFifo := acqPerFifo st;
              relPerFifo := relPerFifo2;
              useLocks := useLocks st ++ created |}
  end.

(** The test of lines 820-857: the release [rel] is on the fifo of the
    acquire and stands before it, in the same block or one block apart. *)
Definition releasedBefore (acq : Loc) (acquireOp : Operation)
           (rel : Loc) (relOp : Operation) : bool :=
  if bool_decide (fifo acquireOp = fifo relOp) then
    if bool_decide (getBlock acq = getBlock rel) then
      negb (isBeforeInBlock acq rel)
    else
      match getParentOp (getBlock acq) with
      | None => false
      | Some acqBlockDefOp =>
          if bool_decide (getBlock rel = getBlock acqBlockDefOp) then
            negb (isBeforeInBlock acqBlockDefOp rel)
          else
            match getParentOp (getBlock rel) with
            | None => false
            | Some relBlockDefOp =>
                if bool_decide (getBlock acq = getBlock relBlockDefOp) then
                  negb (isBeforeInBlock acq relBlockDefOp)
                else false
            end
      end
  else false.

(** [releaseOps.erase(releaseOps.begin())] on a vector that holds [size]
    elements in [storage]: the elements after the first move down by one
    and the slots from the last element on keep what they held. *)
Definition eraseBegin {A : Type} (storage : list A) (size : nat)
  : result (list A * nat) :=
  match size with
  | O => Fatal UndefinedBehaviour
  | S size' => Ok (take size' (drop 1 storage) ++ drop size' storage, size')
  end.

(** The loop [for (auto relOp : releaseOps)] (lines 815-858).  The loop
    erases from the vector it iterates over.  Its two iterators were taken
    before the first pass: the loop visits the slots [i], [i + 1], ... of
    the storage up to the end the vector had on entry and reads what each
    slot holds at that time.  [n] slots are left to visit. *)
Fixpoint countReleases (n : nat) (i : nat) (acq : Loc) (acquireOp : Operation)
         (storage : list (Loc * Operation)) (size : nat) (numRel : Z)
  : result (list (Loc * Operation) * nat * Z) :=
  match n with
  | O => Ok (storage, size, numRel)
  | S n' =>
      match storage !! i with
      | None => Fatal UndefinedBehaviour
      | Some (rel, relOp) =>
          if releasedBefore acq acquireOp rel relOp then
            '(storage', size') ← eraseBegin storage size;
            countReleases n' (S i) acq acquireOp storage' size'
                          (wrap32 (numRel + relNumber relOp))
          else countReleases n' (S i) acq acquireOp storage size numRel
      end
  end.

(** The body of the walk over the acquires (lines 796-898). *)
Definition replaceAcquire (st : CoreState) (l : Loc) (acquireOp : Operation)
  : result CoreState :=
  acquireOp ← checkSplitFifo sf acquireOp tile;
  _ ← checkCorrectPort defs acquireOp (parentsIn tile l);
  match fifo acquireOp ≫= (defs !!.) with
  | None => Fatal UndefinedBehaviour
  | Some op =>
      let '(start, acqPerFifo1) := updateAndReturnIndex (acqPerFifo st) op in
      '(storage, size, numRel) ←
        countReleases (length (releaseOps st)) 0 l acquireOp
                      (releaseOps st) (length (releaseOps st)) 0;
      let held := default [] (acquiresPerFifo st !! fifo_result op) in
      acquiredIndices ←
        (if (length held =? 0)%nat then Ok []
         else if (0 <=? numRel) && (numRel <=? Z.of_nat (length held))
              then Ok (drop (Z.to_nat numRel) held)
              else Fatal ReleaseMoreThanAcquired);
      let numLocks := acqNumber acquireOp in
      let lockMode := if bool_decide (port acquireOp = Some Produce) then 0 else 1 in
      let alreadyAcq := Z.of_nat (length acquiredIndices) in
      let numCreate := if alreadyAcq <? numLocks then numLocks - alreadyAcq else 0 in
      '(acqPerFifo2, created) ←
        createUseLocks (Z.to_nat numCreate) l op
                       (default [] (locks !! fifo_result op))
                       acqPerFifo1 lockMode Acquire;
      newIndices ←
        (fix indices (n : nat) (start : Z) : result (list Z) :=
           match n with
           | O => Ok []
           | S n' =>
               next ← crem (wrap32 (start + 1)) (elemNumber op);
               rest ← indices n' next;
               mret (start :: rest)
           end) (Z.to_nat numCreate) start;
      let acquiredIndices := acquiredIndices ++ newIndices in
      subviewRefs ←
        mapM (fun index =>
                if index <? 0 then Fatal UndefinedBehaviour else
                match default [] (buffers !! fifo_result op) !! Z.to_nat index with
                | Some b => Ok b
                | None => Fatal UndefinedBehaviour
                end) acquiredIndices;
      mret {| subviews := subviews st ++ [(l, subviewRefs)];
              acquiresPerFifo :=
                <[fifo_result op := acquiredIndices]> (acquiresPerFifo st);
              releaseOps := take size storage;
              acqPerFifo := acqPerFifo2;
              relPerFifo := relPerFifo st;
              useLocks := useLocks st ++ created |}
  end.

(** The two walks of one core, one after the other (lines 769-898). *)
Fixpoint walkWith (f : CoreState -> Loc -> Operation -> result CoreState)
         (keep : Operation -> bool) (st : CoreState)
         (ops : list (Loc * Operation)) : result CoreState :=
  match ops with
  | [] => Ok st
  | (l, o) :: ops' =>
      if keep o then st' ← f st l o; walkWith f keep st' ops'
      else walkWith f keep st ops'
  end.

Definition resolveCore (ops : list (Loc * Operation)) : result CoreState :=
  st ← walkWith replaceRelease isRelease emptyCoreState ops;
  walkWith replaceAcquire isAcquire st ops.

End Resolver.

(** ** Tile DMAs *)

Inductive DMAChan : Type := MM2S0 | MM2S1 | S2MM0 | S2MM1.

Definition BlockId := nat.

(** The operations of the blocks of an [AIE.mem]. *)
Inductive DmaOp : Type :=
| UseLock (lock : LockAnalysis.LockOp) (mode : Z) (action : LockAction)
| DMABD (buffer : BufferOp) (offset len : Z) (ab : Z)
| Br (succ : BlockId)                                 (* cf.br *)
| DMAStart (channel : DMAChan) (dest chain : BlockId) (* successors 0 and 1 *)
| EndOp.

Global Instance DMAChan_eq_dec : EqDecision DMAChan.
Proof. solve_decision. Defined.
Global Instance LockOp_eq_dec : EqDecision LockAnalysis.LockOp.
Proof. solve_decision. Defined.
Global Instance BufferOp_eq_dec : EqDecision BufferOp.
Proof. solve_decision. Defined.
Global Instance DmaOp_eq_dec : EqDecision DmaOp.
Proof. solve_decision. Defined.

Record MemBlock : Type := mkMemBlock { blk_id : BlockId; blk_ops : list DmaOp }.

(** [AIE.mem(tile) { blocks }]. *)
Record MemOp : Type := mkMemOp { mem_tile : Value; mem_body : list MemBlock }.

(** The successors of the terminator of a block. *)
Definition successors (b : MemBlock) : list BlockId :=
  match last (blk_ops b) with
  | Some (Br succ) => [succ]
  | Some (DMAStart _ dest chain) => [dest; chain]
  | _ => []
  end.

(** [findEndOpBlock]: the last block that holds an [EndOp]. *)
Definition findEndOpBlock (body : list MemBlock) : option BlockId :=
  foldl (fun endBlock bl =>
           if bool_decide (EndOp ∈ blk_ops bl) then Some (blk_id bl) else endBlock)
        None body.

(** [block->getSinglePredecessor()]: the block, when one edge and no more
    leads to [target]. *)
Definition getSinglePredecessor (body : list MemBlock) (target : BlockId)
  : option BlockId :=
  match flat_map (fun b => map (fun _ => blk_id b)
                               (filter (fun s => s = target) (successors b))) body with
  | [p] => Some p
  | _ => None
  end.

(** [builder.createBlock(insertBefore)]: a new empty block placed before
    the block [insertBefore]. *)
Fixpoint createBlock (insertBefore : BlockId) (new : BlockId)
         (body : list MemBlock) : list MemBlock :=
  match body with
  | [] => [mkMemBlock new []]
  | b :: body' =>
      if bool_decide (blk_id b = insertBefore)
      then mkMemBlock new [] :: b :: body'
      else b :: createBlock insertBefore new body'
  end.

(** Operations created with the insertion point at the start of [block]. *)
Definition insertAtStart (block : BlockId) (ops : list DmaOp)
           (body : list MemBlock) : list MemBlock :=
  map (fun b => if bool_decide (blk_id b = block)
                then mkMemBlock (blk_id b) (ops ++ blk_ops b) else b) body.

(** [block->getTerminator()->setSuccessor(succ, 1)]. *)
Definition setSuccessor1 (block succ : BlockId) (body : list MemBlock)
  : result (list MemBlock) :=
  mapM (fun b =>
          if bool_decide (blk_id b = block) then
            match last (blk_ops b) with
            | Some (DMAStart channel dest _) =>
                Ok (mkMemBlock (blk_id b)
                               (removelast (blk_ops b) ++ [DMAStart channel dest succ]))
            | _ => Fatal UndefinedBehaviour
            end
          else Ok b) body.

(** The length that [createBdBlock] computes: [int len = 1] multiplied by
    every dimension of the shape. *)
Definition bdLen (shape : list Z) : Z :=
  foldl (fun len i => wrap32 (len * i)) 1 shape.

(** The full extent of a buffer, in the words of the specification: the
    number of elements of its type, the product of the dimensions of the
    shape as an integer without bound.  It is what [bdLen] is compared
    with; no function of the source file computes it. *)
Definition fullExtent (shape : list Z) : Z := fold_right Z.mul 1 shape.

(** [createBdBlock]: the operations of one block. *)
Definition createBdBlock (lockMode : Z) (buff : BufferOp)
           (lock : LockAnalysis.LockOp) (succ : BlockId) : list DmaOp :=
  let acqMode := if lockMode =? 0 then 1 else 0 in
  let relMode := if lockMode =? 0 then 0 else 1 in
  let offset := 0 in
  let len := bdLen (buf_shape buff) in
  [ UseLock lock acqMode Acquire;
    DMABD buff offset len 0;
    UseLock lock relMode Release;
    Br succ ].

(** The loop that creates the Bd blocks (lines 286-297), [n] iterations
    left. *)
Fixpoint createBdBlocks (n : nat) (blockIndex : nat) (lockMode : Z)
         (buffers : list BufferOp) (locks : list LockAnalysis.LockOp)
         (endBlock bdBlock curr : BlockId) (fresh : BlockId)
         (body : list MemBlock) : result (list MemBlock * BlockId) :=
  match n with
  | O => Ok (body, fresh)
  | S n' =>
      let '(succ, body1, fresh1) :=
        match n' with
        | O => (bdBlock, body, fresh)
        | S _ => (fresh, createBlock endBlock fresh body, S fresh)
        end in
      match buffers !! blockIndex, locks !! blockIndex with
      | Some buff, Some lock =>
          createBdBlocks n' (S blockIndex) lockMode buffers locks endBlock bdBlock
                         succ fresh1
                         (insertAtStart curr (createBdBlock lockMode buff lock succ) body1)
      | _, _ => Fatal UndefinedBehaviour
      end
  end.

(** The part of [createDMA] that works on the region of the [AIE.mem]
    (lines 270-297). *)
Definition createChain (numBlocks : nat) (channelMode : DMAChan) (lockMode : Z)
           (buffers : list BufferOp) (locks : list LockAnalysis.LockOp)
           (fresh : BlockId) (body : list MemBlock)
  : result (list MemBlock * BlockId) :=
  match findEndOpBlock body with
  | None => Fatal UndefinedBehaviour
  | Some endBlock =>
      let lastDmaBlock := getSinglePredecessor body endBlock in
      let dmaBlock := fresh in
      let bdBlock := S fresh in
      let body1 := createBlock endBlock bdBlock (createBlock endBlock dmaBlock body) in
      let body2 := insertAtStart dmaBlock [DMAStart channelMode bdBlock endBlock] body1 in
      body3 ← match lastDmaBlock with
              | Some l => setSuccessor1 l dmaBlock body2
              | None => Ok body2
              end;
      createBdBlocks numBlocks 0 lockMode buffers locks endBlock bdBlock bdBlock
                     (S (S fresh)) body3
  end.

(** [createDMA]: the [AIE.mem] operations of the module and the next unused
    block afterwards.  The [AIE.mem] of the producer tile is the first one
    on that tile; when there is none a new one is added to the end of the
    module, with a block that holds the [EndOp]. *)
Fixpoint createChainIn (tile : Value)
         (build : list MemBlock -> result (list MemBlock * BlockId))
         (mems : list MemOp) : option (result (list MemOp * BlockId)) :=
  match mems with
  | [] => None
  | memOp :: mems' =>
      if bool_decide (mem_tile memOp = tile) then
        Some ('(body, fresh) ← build (mem_body memOp);
              mret (mkMemOp (mem_tile memOp) body :: mems', fresh))
      else
        match createChainIn tile build mems' with
        | None => None
        | Some r => Some ('(mems'', fresh) ← r; mret (memOp :: mems'', fresh))
        end
  end.

Definition createDMA (st : PassState) (mems : list MemOp) (fresh : BlockId)
           (op : ObjectFifoCreateOp) (channelMode : DMAChan) (lockMode : Z)
  : result (list MemOp * BlockId) :=
  let numBlocks := size op in
  if numBlocks =? 0 then Ok (mems, fresh)
  else if 14 <? numBlocks then Fatal TooManyDmaBlocks
  else
    let buffers := default [] (buffersPerFifo st !! fifo_result op) in
    let locks := default [] (locksPerFifo st !! fifo_result op) in
    match createChainIn (producerTile op)
            (createChain (Z.to_nat numBlocks) channelMode lockMode buffers locks fresh)
            mems with
    | Some r => r
    | None =>
        '(body, fresh') ←
          createChain (Z.to_nat numBlocks) channelMode lockMode buffers locks
                      (S fresh) [mkMemBlock fresh [EndOp]];
        mret (mems ++ [mkMemOp (producerTile op) body], fresh')
    end.

(** ** A small module to run the pass on

    Tiles (1,2), (1,3) and (3,3); the oracle below makes (1,2) and (1,3)
    neighbours and keeps (3,3) apart from both. *)

Definition exampleAffinity (coreCol coreRow memCol memRow : Z) : bool :=
  Z.abs (coreCol - memCol) + Z.abs (coreRow - memRow) <=? 1.

Definition tile12 : TileOp := mkTileOp 1%nat 1 2.
Definition tile13 : TileOp := mkTileOp 2%nat 1 3.
Definition tile33 : TileOp := mkTileOp 3%nat 3 3.

Definition emptyState : PassState :=
  {| locksPerTile := ∅; buffersPerFifo := ∅; locksPerFifo := ∅;
     splitFifos := ∅; buff_index := 0 |}.

Definition acquireOp (p : ObjectFifoPort) (fifoVal : Value) (n : Z)
           (res : Value) : Operation :=
  mkOperation (KAcquire p n) [fifoVal] [res] [].
Definition releaseOp (p : ObjectFifoPort) (fifoVal : Value) (n : Z) : Operation :=
  mkOperation (KRelease p n) [fifoVal] [] [].

Definition from_result {A : Type} (d : A) (r : result A) : A :=
  match r with Ok a => a | Fatal _ => d end.

(** A fifo of declared depth 2 from (1,2) to (3,3); only the core of (3,3)
    touches it, one element at a time. *)
Definition fifoFar : ObjectFifoCreateOp :=
  {| fifo_result := 10%nat; getProducerTileOp := tile12; consumerTiles := [tile33];
     elemNumber := 2; elemShape := [16] |}.

Definition coresFar : list CoreOp :=
  [ mkCoreOp (tile_result tile33)
      [ acquireOp Consume 10%nat 1 20%nat; releaseOp Consume 10%nat 1 ] ].

(** A fifo broadcast from (1,2) to its neighbour (1,3) and to (3,3). *)
Definition fifoBroadcast : ObjectFifoCreateOp :=
  {| fifo_result := 11%nat; getProducerTileOp := tile12;
     consumerTiles := [tile13; tile33];
     elemNumber := 2; elemShape := [16] |}.

Definition coresBroadcast : list CoreOp :=
  [ mkCoreOp (tile_result tile12)
      [ acquireOp Produce 11%nat 1 21%nat; releaseOp Produce 11%nat 1 ];
    mkCoreOp (tile_result tile13)
      [ acquireOp Consume 11%nat 1 22%nat; releaseOp Consume 11%nat 1 ];
    mkCoreOp (tile_result tile33)
      [ acquireOp Consume 11%nat 2 23%nat; releaseOp Consume 11%nat 2 ] ].

Definition noCreated : Created := mkCreated emptyState 0%nat false fifoFar [].

(** A fifo of one element of type [memref<65536x65536xi32>] from (1,2) to
    (3,3), and the state once its buffer and its lock are created. *)
Definition fifoHuge : ObjectFifoCreateOp :=
  {| fifo_result := 16%nat; getProducerTileOp := tile12; consumerTiles := [tile33];
     elemNumber := 1; elemShape := [65536; 65536] |}.

Definition stateHuge : PassState :=
  from_result emptyState (createObjectFifoElements emptyState fifoHuge).

Definition createdFar : Created :=
  from_result noCreated (createOne exampleAffinity coresFar emptyState 100%nat fifoFar).

Definition createdBroadcast : Created :=
  from_result noCreated
    (createOne exampleAffinity coresBroadcast emptyState 100%nat fifoBroadcast).

(** A loop [for %30 = %40 to %41 step %42] in the core of (3,3), over
    [0, 6) by 1: acquire one element of [fifoFar], use the induction
    variable, release the element. *)
Definition loopFar : ForOp :=
  {| getLowerBound := 40%nat; getUpperBound := 41%nat; getStep := 42%nat;
     getInductionVar := 30%nat;
     getBody := [ acquireOp Consume 10%nat 1 20%nat;
                  mkOperation (KOther 0) [30%nat] [] [];
                  releaseOp Consume 10%nat 1 ] |}.

Definition constantsFar : gmap Value Z :=
  {[ 40%nat := 0; 41%nat := 6; 42%nat := 1 ]}.

Definition blockArgsFar (v : Value) : bool := bool_decide (v = 30%nat).

(** A loop whose body chains its operations: the access reads the subview
    that the acquire returns, and the operation after it uses the accessed
    element, the induction variable and the value [%50] of outside the
    loop. *)
Definition loopChained : ForOp :=
  {| getLowerBound := 40%nat; getUpperBound := 41%nat; getStep := 42%nat;
     getInductionVar := 30%nat;
     getBody := [ acquireOp Consume 10%nat 1 20%nat;
                  mkOperation (KSubviewAccess 0) [20%nat] [21%nat] [];
                  mkOperation (KOther 0) [21%nat; 30%nat; 50%nat] [] [];
                  releaseOp Consume 10%nat 1 ] |}.

(** The fifos of the module once [fifoFar] is split, by handle. *)
Definition defsFar : gmap Value ObjectFifoCreateOp :=
  list_to_map
    (map (fun op => (fifo_result op, op))
         (cr_createOp createdFar :: cr_children createdFar)).

Definition noUnrolled : Unrolled := mkUnrolled [] None [] ∅ 0%nat 0 0.

Definition unrolledFar : Unrolled :=
  default noUnrolled
    (from_result None
       (unrollOne blockArgsFar (splitFifos (cr_state createdFar)) defsFar
                  (tile_result tile33) constantsFar 200%nat loopFar)).

(** A fifo of declared depth 3 from (1,2) to (3,3); the core of (3,3)
    acquires two elements at a time, which sizes its consumer fifo (handle
    100) to depth 3. *)
Definition fifoDeep : ObjectFifoCreateOp :=
  {| fifo_result := 12%nat; getProducerTileOp := tile12; consumerTiles := [tile33];
     elemNumber := 3; elemShape := [16] |}.

Definition bodyDeep : list Operation :=
  [ acquireOp Consume 12%nat 2 20%nat;
    mkOperation (KOther 0) [30%nat] [] [];
    releaseOp Consume 12%nat 1 ].

Definition coresDeep : list CoreOp :=
  [ mkCoreOp (tile_result tile33) [ mkOperation KFor [40%nat; 41%nat; 42%nat] [] [bodyDeep] ] ].

Definition createdDeep : Created :=
  from_result noCreated (createOne exampleAffinity coresDeep emptyState 100%nat fifoDeep).

Definition defsDeep : gmap Value ObjectFifoCreateOp :=
  list_to_map
    (map (fun op => (fifo_result op, op))
         (cr_createOp createdDeep :: cr_children createdDeep)).

Definition loopDeep : ForOp :=
  {| getLowerBound := 40%nat; getUpperBound := 41%nat; getStep := 42%nat;
     getInductionVar := 30%nat; getBody := bodyDeep |}.

(** [loopDeep] over [lb, ub) by [st]. *)
Definition unrolledDeep (lb ub st : Z) : result (option Unrolled) :=
  unrollOne blockArgsFar (splitFifos (cr_state createdDeep)) defsDeep
            (tile_result tile33) {[ 40%nat := lb; 41%nat := ub; 42%nat := st ]}
            200%nat loopDeep.

(** *** The index values that a loop goes through

    What [scf.for], [arith.constant] and [arith.addi] compute: [run] gives,
    for the operations of a block in order, the integers that the operands
    of the operations other than constants and additions evaluate to. *)
Fixpoint run (env : gmap Value Z) (ops : list Operation) : list Z :=
  match ops with
  | [] => []
  | o :: ops' =>
      match op_kind o, getOperands o, getResults o with
      | KConstant z, _, r :: _ => run (<[r := z]> env) ops'
      | KAddI, a :: b :: _, r :: _ =>
          match env !! a, env !! b with
          | Some x, Some y => run (<[r := x + y]> env) ops'
          | _, _ => run env ops'
          end
      | KOther _, operands, _ => omap (env !!.) operands ++ run env ops'
      | _, _, _ => run env ops'
      end
  end.

(** The iterations of [for iv = lb to ub step st], at most [fuel] of them. *)
Fixpoint iterations (fuel : nat) (env : gmap Value Z) (iv : Value)
         (lb ub st : Z) (body : list Operation) : list (list Z) :=
  match fuel with
  | O => []
  | S fuel' =>
      if lb <? ub
      then run (<[iv := lb]> env) body :: iterations fuel' env iv (lb + st) ub st body
      else []
  end.

(** The iterations of an [scf.for] whose bounds and step are constants. *)
Definition runFor (fuel : nat) (constants : gmap Value Z) (l : ForOp)
  : list (list Z) :=
  match constants !! getLowerBound l, constants !! getUpperBound l,
        constants !! getStep l with
  | Some lb, Some ub, Some st =>
      iterations fuel constants (getInductionVar l) lb ub st (getBody l)
  | _, _, _ => []
  end.

(** The unrolled loop, then its remainder. *)
Definition runUnrolled (fuel : nat) (r : result (option Unrolled))
  : list (list Z) * list Z :=
  match r with
  | Ok (Some u) =>
      (match un_loop u with
       | Some l => runFor fuel (un_constants u) l
       | None => []
       end,
       run (un_constants u) (un_after u))
  | _ => ([], [])
  end.

(** Two fifos from (1,2) to its neighbour (1,3), kept in shared memory:
    fifo 13 of depth 2 and fifo 14 of depth 3.  The core of (1,3) holds two
    elements of fifo 14 and one of fifo 13, releases one element of each,
    and acquires again. *)
Definition fifoA : ObjectFifoCreateOp :=
  {| fifo_result := 13%nat; getProducerTileOp := tile12; consumerTiles := [tile13];
     elemNumber := 2; elemShape := [16] |}.
Definition fifoB : ObjectFifoCreateOp :=
  {| fifo_result := 14%nat; getProducerTileOp := tile12; consumerTiles := [tile13];
     elemNumber := 3; elemShape := [16] |}.

Definition coreAB : CoreOp :=
  mkCoreOp (tile_result tile13)
    [ acquireOp Consume 14%nat 2 50%nat;     (* index 0 *)
      acquireOp Consume 13%nat 1 51%nat;     (* index 1 *)
      releaseOp Consume 13%nat 1;            (* index 2 *)
      releaseOp Consume 14%nat 1;            (* index 3 *)
      acquireOp Consume 14%nat 2 52%nat;     (* index 4 *)
      acquireOp Consume 14%nat 2 53%nat;     (* index 5 *)
      acquireOp Consume 13%nat 1 54%nat ].   (* index 6 *)

Definition stateAB : PassState :=
  from_result emptyState
    (c ← createOne exampleAffinity [coreAB] emptyState 100%nat fifoA;
     c' ← createOne exampleAffinity [coreAB] (cr_state c) (cr_fresh c) fifoB;
     mret (cr_state c')).

Definition defsAB : gmap Value ObjectFifoCreateOp :=
  {[ 13%nat := fifoA; 14%nat := fifoB ]}.

(** The walks of [coreAB], which stands at index 0 of the module, over the
    first [n] operations of its walk. *)
Definition resolveAB (n : nat) : result CoreState :=
  st ← walkWith (replaceRelease (splitFifos stateAB) defsAB (locksPerFifo stateAB)
                                (tile_result tile13))
                isRelease emptyCoreState (walkCoreAt 0 coreAB);
  walkWith (replaceAcquire (splitFifos stateAB) defsAB (buffersPerFifo stateAB)
                           (locksPerFifo stateAB) (tile_result tile13))
           isAcquire st (take n (walkCoreAt 0 coreAB)).

(** A core that releases an element of fifo 13 and only then acquires
    one. *)
Definition coreEarlyRelease : CoreOp :=
  mkCoreOp (tile_result tile13)
    [ releaseOp Consume 13%nat 1;            (* index 0 *)
      acquireOp Consume 13%nat 1 51%nat ].   (* index 1 *)

Definition resolveEarlyRelease : result CoreState :=
  resolveCore (splitFifos stateAB) defsAB (buffersPerFifo stateAB)
              (locksPerFifo stateAB) (tile_result tile13)
              (walkCoreAt 0 coreEarlyRelease).

(** Two fifos from (1,2) to (3,3), both split: fifo 12 (above) and fifo 15.
    The core of (1,2) produces one element of each at a time, the core of
    (3,3) consumes two elements of fifo 12 and one of fifo 15 at a time. *)
Definition fifoSecond : ObjectFifoCreateOp :=
  {| fifo_result := 15%nat; getProducerTileOp := tile12; consumerTiles := [tile33];
     elemNumber := 2; elemShape := [4; 8] |}.

Definition coresTwo : list CoreOp :=
  [ mkCoreOp (tile_result tile12)
      [ acquireOp Produce 12%nat 1 60%nat; releaseOp Produce 12%nat 1;
        acquireOp Produce 15%nat 1 61%nat; releaseOp Produce 15%nat 1 ];
    mkCoreOp (tile_result tile33)
      [ acquireOp Consume 12%nat 2 62%nat; releaseOp Consume 12%nat 1;
        acquireOp Consume 15%nat 1 63%nat; releaseOp Consume 15%nat 1 ] ].

Definition createdTwo : PassState * Value * list Created :=
  from_result (emptyState, 0%nat, [])
    (default (Fatal UndefinedBehaviour)
       (createAll exampleAffinity coresTwo 10 emptyState 100%nat [fifoDeep; fifoSecond])).

Definition fifosTwo : list ObjectFifoCreateOp := map cr_createOp createdTwo.2.

(** The tile DMAs of the four fifos of [fifosTwo], in the order they were
    visited: fifo 12 and its consumer fifo, fifo 15 and its consumer fifo;
    [memsAfter n] holds the tile DMAs of the first [n] of them. *)
Definition jobsTwo : list (ObjectFifoCreateOp * DMAChan * Z) :=
  zip (zip fifosTwo [MM2S0; S2MM0; MM2S1; S2MM1]) [0; 1; 0; 1].

Definition memsAfter (n : nat) : result (list MemOp * BlockId) :=
  foldl (fun r (job : ObjectFifoCreateOp * DMAChan * Z) =>
           '(mems, fresh) ← r;
           createDMA createdTwo.1.1 mems fresh job.1.1 job.1.2 job.2)
        (Ok ([], 0%nat))
        (take n jobsTwo).

Definition memsTwo : result (list MemOp * BlockId) := memsAfter 4.

(** Fifo 15 after the pass resized it, and its buffers and locks. *)
Definition fifoSecondSized : ObjectFifoCreateOp := default fifoSecond (fifosTwo !! 2%nat).
Definition buffersSecond : list BufferOp :=
  default [] (buffersPerFifo createdTwo.1.1 !! 15%nat).
Definition locksSecond : list LockAnalysis.LockOp :=
  default [] (locksPerFifo createdTwo.1.1 !! 15%nat).

(** The lock analysis of a module in which tile 5 owns the locks 0 to 14. *)
Definition fifteen_locks_used : gmap (Value * Z) Z :=
  LockAnalysis.init
    (map (LockAnalysis.mkLockOp 5%nat) [0;1;2;3;4;5;6;7;8;9;10;11;12;13;14]).

(** ** The vocabulary of the properties *)

(** [o] is an acquire of [objFifo] in a core of [tile]. *)
Definition observes (cores : list CoreOp) (tile : Value)
           (objFifo : ObjectFifoCreateOp) (o : Operation) : Prop :=
  exists coreOp, coreOp ∈ cores /\ core_tile coreOp = tile /\
                 o ∈ walk_core coreOp /\ isAcquire o = true /\
                 fifo o = Some (fifo_result objFifo).

(** The innermost [AIE.core] around an operation whose parents are
    [parents], innermost first, runs on [coreTile]. *)
Definition innermostCore (parents : list ParentOp) (coreTile : Value) : Prop :=
  exists others rest,
    parents = others ++ ParentCore coreTile :: rest /\
    Forall (fun p => p = ParentOther) others.

(** The sizing rule that [findObjectFifoSize] implements, between the
    declared depth, the largest acquire seen and the depth it returns. *)
Definition depth_rule (declared maxAcq depth : Z) : Prop :=
  (declared = 0 \/ maxAcq = 0 -> depth = 0) /\
  (declared <> 0 -> 0 < maxAcq < 2 ^ 31 - 1 ->
   1 <= depth /\
   (depth = 1 <-> declared = 1 /\ maxAcq = 1) /\
   (~ (declared = 1 /\ maxAcq = 1) -> depth = maxAcq + 1)).

(** [child] is the fifo that the loop over the consumers creates for
    [consumer]: declared on that tile, with the tile as its only consumer,
    and sized by the acquires of the parent on that tile. *)
Definition is_child (cores : list CoreOp) (q : ObjectFifoCreateOp)
           (consumer : TileOp) (child : ObjectFifoCreateOp) : Prop :=
  getProducerTileOp child = consumer /\
  consumerTiles child = [consumer] /\
  elemNumber child = findObjectFifoSize cores (tile_result consumer) q /\
  elemShape child = elemShape q.

(** The test of lines 672-675 for one consumer. *)
Definition adjacent (isLegalMemAffinity : Z -> Z -> Z -> Z -> bool)
           (q : ObjectFifoCreateOp) (consumer : TileOp) : bool :=
  isLegalMemAffinity (colIndex (getProducerTileOp q)) (rowIndex (getProducerTileOp q))
                     (colIndex consumer) (rowIndex consumer).

(** The fifo is kept in shared memory: it has one consumer, and that
    consumer is adjacent to the producer. *)
Definition single_adjacent (isLegalMemAffinity : Z -> Z -> Z -> Z -> bool)
           (q : ObjectFifoCreateOp) : Prop :=
  exists consumer, consumerTiles q = [consumer] /\
                   adjacent isLegalMemAffinity q consumer = true.

(** [M] is the largest number of elements that an acquire of [q] in a core
    of [tile] asks for, 0 when no acquire asks for more. *)
Definition is_max_acquire (cores : list CoreOp) (tile : Value)
           (q : ObjectFifoCreateOp) (M : Z) : Prop :=
  0 <= M /\
  (forall o, observes cores tile q o -> acqNumber o <= M) /\
  (M = 0 \/ exists o, observes cores tile q o /\ acqNumber o = M).

(** The depth [d] that the pass gives a fifo split from [q] and sized on
    [tile]. *)
Definition resolved (cores : list CoreOp) (q : ObjectFifoCreateOp)
           (tile : Value) (d : Z) : Prop :=
  exists M, is_max_acquire cores tile q M /\ depth_rule (size q) M d.

(** The loop over [splitFifos[parentFifo]]. *)
Definition substitute (parentFifo tile : Value) (o : Operation)
           (children : list ObjectFifoCreateOp) : Operation :=
  foldl (fun o' splitFifo =>
           if bool_decide (producerTile splitFifo = tile)
           then replaceUsesOfWith o' parentFifo (fifo_result splitFifo)
           else o')
        o children.

(** [v] is defined by an operation outside the body of the loop. *)
Definition external (isBlockArgument : Value -> bool) (forLoop : ForOp)
           (v : Value) : Prop :=
  v <> getInductionVar forLoop /\ isBlockArgument v = false /\
  definedAt (getBody forLoop) v = None.

(** [o] is an [arith.constant] or an [arith.addi]. *)
Definition isArith (o : Operation) : Prop :=
  match op_kind o with KConstant _ | KAddI => True | _ => False end.

(** [c] is a clone of [o] made with the dependency row [deps]: the same
    operation, naming the same fifo when that operand has no dependency. *)
Definition clone_of (deps : list Z) (o c : Operation) : Prop :=
  op_kind c = op_kind o /\
  (fifo o = None -> fifo c = None) /\
  (head deps = Some (-1) -> fifo c = fifo o).

(** Every operation a round inserts is a constant, an addition, or the
    clone of an operation of the body. *)
Definition inserted_ok (operations : list Operation) (dependencies : list (list Z))
           (c : Operation) : Prop :=
  isArith c \/
  exists k o deps, operations !! k = Some o /\ dependencies !! k = Some deps /\
                   clone_of deps o c.

(** The operations of the unrolled loop and of its remainder. *)
Definition result_ops (u : Unrolled) : list Operation :=
  match un_loop u with Some l => getBody l | None => [] end ++ un_after u.

(** The loop with another body. *)
Definition withBody (forLoop : ForOp) (body : list Operation) : ForOp :=
  mkForOp (getLowerBound forLoop) (getUpperBound forLoop) (getStep forLoop)
          (getInductionVar forLoop) body.

(** Block [i] of the ring that starts at block [base], for a fifo of [D]
    elements. *)
Definition bdBlockAt (lockMode : Z) (buffers : list BufferOp)
           (locks : list LockAnalysis.LockOp) (base D i : nat) : option MemBlock :=
  buff ← buffers !! i;
  lock ← locks !! i;
  Some (mkMemBlock (base + i)%nat
          [ UseLock lock (if lockMode =? 0 then 1 else 0) Acquire;
            DMABD buff 0 (bdLen (buf_shape buff)) 0;
            UseLock lock (if lockMode =? 0 then 0 else 1) Release;
            Br (base + (i + 1) mod D)%nat ]).

(** The ring: blocks 0 to [D - 1]. *)
Definition ring (lockMode : Z) (buffers : list BufferOp)
           (locks : list LockAnalysis.LockOp) (base D : nat) : list MemBlock :=
  omap (bdBlockAt lockMode buffers locks base D) (seq 0 D).

(** The edges of the region that lead to [target], by the block they
    leave. *)
Definition edgesTo (body : list MemBlock) (target : BlockId) : list BlockId :=
  flat_map (fun b => map (fun _ => blk_id b)
                         (filter (fun s => s = target) (successors b))) body.

(** The region of an [AIE.mem] that already holds a chain: the block [l]
    starts the last chain, its [DMAStart] leads to the end block [e] when
    the channel has no more chains, and no other block leads to [e]. *)
Definition lastChainOf (body : list MemBlock) (e l : BlockId) : Prop :=
  exists pre lops channel dest post,
    body = pre ++ mkMemBlock l (lops ++ [DMAStart channel dest e]) :: post
                ++ [mkMemBlock e [EndOp]] /\
    dest <> e /\
    Forall (fun b => blk_id b <> l /\ e ∉ successors b) (pre ++ post).

(** ** The tile DMA channel analysis *)

(** The assertions of [DMAChannelAnalysis], by their message. *)
Inductive ChannelError : Type :=
| AllMasterChannelsInUse   (* "All tile DMA master channels are already in use." *)
| AllSlaveChannelsInUse.   (* "All tile DMA slave channels are already in use." *)

(** A computation that stops on an error of type [E]. *)
Inductive outcome (E A : Type) : Type :=
| Done (a : A)
| Stopped (e : E).
Arguments Done {E A} a.
Arguments Stopped {E A} e.

Global Instance outcome_ret {E} : MRet (outcome E) := fun A a => Done a.
Global Instance outcome_bind {E} : MBind (outcome E) := fun A B k r =>
  match r with
  | Done a => k a
  | Stopped e => Stopped e
  end.

Definition stopped {E A : Type} (r : outcome E A) : bool :=
  match r with Done _ => false | Stopped _ => true end.

Module DMAChannelAnalysis.

(** The two maps of the class. *)
Record t : Type := mk {
  masterChannelsPerTile : gmap Value Z;
  slaveChannelsPerTile : gmap Value Z
}.

Definition empty : t := mk ∅ ∅.

(** [DMAChan getMasterDMAChannel(Value tile)]: the channel and the updated
    analysis. *)
Definition getMasterDMAChannel (a : t) (tile : Value)
  : outcome ChannelError (DMAChan * t) :=
  match masterChannelsPerTile a !! tile with
  | None =>
      Done (MM2S0, mk (<[tile := 0]> (masterChannelsPerTile a))
                      (slaveChannelsPerTile a))
  | Some c =>
      if c <? 1
      then Done (MM2S1, mk (<[tile := c + 1]> (masterChannelsPerTile a))
                           (slaveChannelsPerTile a))
      else Stopped AllMasterChannelsInUse
  end.

(** [DMAChan getSlaveDMAChannel(Value tile)]. *)
Definition getSlaveDMAChannel (a : t) (tile : Value)
  : outcome ChannelError (DMAChan * t) :=
  match slaveChannelsPerTile a !! tile with
  | None =>
      Done (S2MM0, mk (masterChannelsPerTile a)
                      (<[tile := 0]> (slaveChannelsPerTile a)))
  | Some c =>
      if c <? 1
      then Done (S2MM1, mk (masterChannelsPerTile a)
                           (<[tile := c + 1]> (slaveChannelsPerTile a)))
      else Stopped AllSlaveChannelsInUse
  end.

(** [int channelToPortNum(DMAChan channel)]. *)
Definition channelToPortNum (channel : DMAChan) : Z :=
  match channel with
  | MM2S0 => 0
  | MM2S1 => 1
  | S2MM0 => 0
  | S2MM1 => 1
  end.

Section Constructor.

(** [DMAStartOp::isSend()] is declared with the dialect, outside the
    file. *)
Variable isSend : DMAChan -> bool.

(** The constructor (lines 101-116): every [DMAStartOp] of every block of
    every [AIE.mem] asks for a channel of its tile, and the channel it is
    given is dropped. *)
Fixpoint visitOps (a : t) (tile : Value) (ops : list DmaOp)
  : outcome ChannelError t :=
  match ops with
  | [] => Done a
  | DMAStart channel _ _ :: ops' =>
      '(_, a') ← (if isSend channel then getMasterDMAChannel a tile
                  else getSlaveDMAChannel a tile);
      visitOps a' tile ops'
  | _ :: ops' => visitOps a tile ops'
  end.

Fixpoint visitBlocks (a : t) (tile : Value) (blocks : list MemBlock)
  : outcome ChannelError t :=
  match blocks with
  | [] => Done a
  | bl :: blocks' => a' ← visitOps a tile (blk_ops bl); visitBlocks a' tile blocks'
  end.

Fixpoint visitMems (a : t) (mems : list MemOp) : outcome ChannelError t :=
  match mems with
  | [] => Done a
  | memOp :: mems' =>
      a' ← visitBlocks a (mem_tile memOp) (mem_body memOp); visitMems a' mems'
  end.

Definition init (mems : list MemOp) : outcome ChannelError t :=
  visitMems empty mems.

End Constructor.

End DMAChannelAnalysis.

(** ** Multicast and tile DMAs of the split fifos *)

(** [AIE.multi_dest<tile, DMA : port>] and
    [AIE.multicast(tile, DMA : port) { destinations }].  The [EndOp] of line
    737 is created where the builder stands and is not kept in the
    record. *)
Record MultiDestOp : Type := mkMultiDestOp { md_tile : Value; md_port : Z }.

Record MulticastOp : Type := mkMulticastOp {
  mc_tile : Value;
  mc_port : Z;
  mc_dests : list MultiDestOp
}.

(** What stops this part of the pass: an assertion of the channel analysis
    or one of the pass itself. *)
Definition PassError : Type := (ChannelError + FatalError)%type.

Definition ofChannel {A : Type} (r : outcome ChannelError A) : outcome PassError A :=
  match r with Done a => Done a | Stopped e => Stopped (inl e) end.

Definition ofResult {A : Type} (r : result A) : outcome PassError A :=
  match r with Ok a => Done a | Fatal e => Stopped (inr e) end.

(** What the loops of lines 710-738 thread through: the channel analysis,
    the [AIE.mem] operations of the module and the next unused block. *)
Record DmaState : Type := mkDmaState {
  dmaAnalysis : DMAChannelAnalysis.t;
  ds_mems : list MemOp;
  ds_fresh : BlockId
}.

(** The loop over the consumer fifos of one split fifo (lines 725-736):
    the state afterwards and the destinations of the multicast. *)
Fixpoint createConsumerDMAs (st : PassState) (ds : DmaState)
         (consumers : list ObjectFifoCreateOp)
  : outcome PassError (DmaState * list MultiDestOp) :=
  match consumers with
  | [] => Done (ds, [])
  | consumer :: consumers' =>
      '(consumerChan, a) ←
        ofChannel (DMAChannelAnalysis.getSlaveDMAChannel (dmaAnalysis ds)
                     (producerTile consumer));
      '(mems, fresh) ←
        ofResult (createDMA st (ds_mems ds) (ds_fresh ds) consumer consumerChan 1);
      '(ds', dests) ← createConsumerDMAs st (mkDmaState a mems fresh) consumers';
      mret (ds', mkMultiDestOp (producerTile consumer)
                   (DMAChannelAnalysis.channelToPortNum consumerChan) :: dests)
  end.

(** The body of the loop over [splitFifos] (lines 711-737). *)
Definition createSplitDMAs (st : PassState) (ds : DmaState)
           (producer : ObjectFifoCreateOp) (consumers : list ObjectFifoCreateOp)
  : outcome PassError (DmaState * MulticastOp) :=
  '(producerChan, a) ←
    ofChannel (DMAChannelAnalysis.getMasterDMAChannel (dmaAnalysis ds)
                 (producerTile producer));
  '(mems, fresh) ←
    ofResult (createDMA st (ds_mems ds) (ds_fresh ds) producer producerChan 0);
  '(ds', dests) ← createConsumerDMAs st (mkDmaState a mems fresh) consumers;
  mret (ds', mkMulticastOp (producerTile producer)
               (DMAChannelAnalysis.channelToPortNum producerChan) dests).

(** The loop itself.  [entries] are the entries of [splitFifos], each split
    fifo with its consumer fifos, in the order in which the iteration over
    the map yields them. *)
Fixpoint createAllDMAs (st : PassState) (ds : DmaState)
         (entries : list (ObjectFifoCreateOp * list ObjectFifoCreateOp))
  : outcome PassError (DmaState * list MulticastOp) :=
  match entries with
  | [] => Done (ds, [])
  | (producer, consumers) :: entries' =>
      '(ds1, multicast) ← createSplitDMAs st ds producer consumers;
      '(ds2, multicasts) ← createAllDMAs st ds1 entries';
      mret (ds2, multicast :: multicasts)
  end.

(** ** Subview accesses *)

Definition isSubviewAccess (o : Operation) : bool :=
  match op_kind o with KSubviewAccess _ => true | _ => false end.

(** [accessOp.getIndex()]. *)
Definition getIndex (o : Operation) : Z :=
  match op_kind o with KSubviewAccess index => index | _ => 0 end.

(** [v.getDefiningOp<ObjectFifoAcquireOp>()] among the operations [ops] of
    the core: where the acquire stands that defines [v]. *)
Fixpoint definingAcquire (ops : list (Loc * Operation)) (v : Value) : option Loc :=
  match ops with
  | [] => None
  | (l, o) :: ops' =>
      if isAcquire o && bool_decide (v ∈ getResults o) then Some l
      else definingAcquire ops' v
  end.

(** [subviews[acqOp]]: the buffers recorded for the acquire that stands at
    [l]; a missing key reads as the empty vector. *)
Fixpoint subviewAt (subviews : list (Loc * list BufferOp)) (l : Loc)
  : list BufferOp :=
  match subviews with
  | [] => []
  | (l', refs) :: subviews' =>
      if bool_decide (l' = l) then refs else subviewAt subviews' l
  end.

(** The body of the walk over the subview accesses (lines 903-914) up to
    the calls of its loop: the assertion on the index, and the two
    arguments of every call [user->replaceUsesOfWith(...)] that the loop
    makes, [accessOp.output()] and [*subviews[acqOp][accessOp.getIndex()]].
    Which users the loop reaches is not part of the model: it goes through
    the use list of the output while its calls take uses off that list,
    and the use lists are kept by the IR library, outside the file.  An
    operand that no acquire of the core defines has no recorded subview. *)
Definition subviewAccessReplacement (ops : list (Loc * Operation)) (st : CoreState)
           (accessOp : Operation) : result (Value * BufferOp) :=
  let refs :=
    match head (getOperands accessOp) ≫= definingAcquire ops with
    | Some l => subviewAt (subviews st) l
    | None => []
    end in
  if (0 <=? getIndex accessOp) && (getIndex accessOp <? Z.of_nat (length refs)) then
    match head (getResults accessOp), refs !! Z.to_nat (getIndex accessOp) with
    | Some output, Some buffer => Ok (output, buffer)
    | _, _ => Fatal UndefinedBehaviour
    end
  else Fatal SubviewOutOfBounds.

(** ** More vocabulary *)

(** The lock ids of [tile] that are free in [m], in ascending order. *)
Definition freeLocks (m : gmap (Value * Z) Z) (tile : Value) : list Z :=
  filter (fun i => LockAnalysis.usage m (tile, i) = 0) (seqZ 0 16).

(** A request for a DMA channel: the tile, and whether a master channel
    ([true]) or a slave channel ([false]) is asked for. *)
Definition ChannelRequest : Type := (Value * bool)%type.

(** The requests of the constructor of the channel analysis, one per
    [DMAStartOp] of the [AIE.mem] operations, in the order it visits
    them. *)
Definition dmaStarts (isSend : DMAChan -> bool) (mems : list MemOp)
  : list ChannelRequest :=
  flat_map (fun memOp =>
    flat_map (fun bl =>
      omap (fun o => match o with
                     | DMAStart channel _ _ => Some (mem_tile memOp, isSend channel)
                     | _ => None
                     end) (blk_ops bl)) (mem_body memOp)) mems.

(** The requests of the loop over the consumer fifos of a split fifo, and
    of the loop over the split fifos: a master channel on the tile of each
    split fifo, then a slave channel on the tile of each of its consumer
    fifos. *)
Definition consumerRequests (consumers : list ObjectFifoCreateOp)
  : list ChannelRequest :=
  map (fun consumer => (producerTile consumer, false)) consumers.

Definition dmaRequests (entries : list (ObjectFifoCreateOp * list ObjectFifoCreateOp))
  : list ChannelRequest :=
  flat_map (fun e => (producerTile e.1, true) :: consumerRequests e.2) entries.

(** How many of the requests [reqs] are the request [r]. *)
Definition channelsUsed (r : ChannelRequest) (reqs : list ChannelRequest) : nat :=
  length (filter (fun p => p = r) reqs).

(** The entry of a tile in a map of the analysis after [k] requests. *)
Definition entryAfter (k : nat) : option Z :=
  match k with O => None | S k' => Some (Z.of_nat k') end.

(** The maps of the analysis [a] count the requests [served]. *)
Definition hasServed (a : DMAChannelAnalysis.t) (served : list ChannelRequest) : Prop :=
  forall tile,
    DMAChannelAnalysis.masterChannelsPerTile a !! tile
    = entryAfter (channelsUsed (tile, true) served) /\
    DMAChannelAnalysis.slaveChannelsPerTile a !! tile
    = entryAfter (channelsUsed (tile, false) served).

(** One request, and requests in a row. *)
Definition requestChannel (a : DMAChannelAnalysis.t) (r : ChannelRequest)
  : outcome ChannelError (DMAChan * DMAChannelAnalysis.t) :=
  if r.2 then DMAChannelAnalysis.getMasterDMAChannel a r.1
  else DMAChannelAnalysis.getSlaveDMAChannel a r.1.

Fixpoint serveRequests (a : DMAChannelAnalysis.t) (reqs : list ChannelRequest)
  : outcome ChannelError DMAChannelAnalysis.t :=
  match reqs with
  | [] => Done a
  | r :: reqs' => '(_, a') ← requestChannel a r; serveRequests a' reqs'
  end.

(** The region of an [AIE.mem] whose blocks were created before [fresh]
    and whose last chain starts on [channel]: the [DMAStart] of that chain
    is the one block that leads to the end block. *)
Definition chained (body : list MemBlock) (fresh : BlockId) (channel : DMAChan) : Prop :=
  exists pre l lops dest post e,
    body = pre ++ mkMemBlock l (lops ++ [DMAStart channel dest e])
               :: post ++ [mkMemBlock e [EndOp]] /\
    dest <> e /\ (e < fresh)%nat /\ (l < fresh)%nat /\ l <> e /\
    Forall (fun b => (blk_id b < fresh)%nat /\ blk_id b <> e /\
                     blk_id b <> l /\ e ∉ successors b) (pre ++ post).

(** The fifos that the loop over the [ObjectFifoCreateOp]s visits because
    of [q]: [q] itself and, unless it stays in shared memory, one consumer
    fifo per consumer. *)
Definition visits (isLegalMemAffinity : Z -> Z -> Z -> Z -> bool)
           (q : ObjectFifoCreateOp) : nat :=
  match consumerTiles q with
  | [consumer] => if adjacent isLegalMemAffinity q consumer then 1 else 2
  | consumers => S (length consumers)
  end.

(** [v] is a block argument other than the induction variable of the
    loop: the induction variable of an enclosing loop, an argument of the
    function. *)
Definition foreignArgument (isBlockArgument : Value -> bool) (forLoop : ForOp)
           (v : Value) : Prop :=
  v <> getInductionVar forLoop /\ isBlockArgument v = true.

(** What a clone has in the place of the operand [v] whose dependency is
    [d]: the first result of clone [d] of the round, the sum of [base] and
    a new constant [inc], or [v] itself. *)
Definition patched (dup created : list Operation) (base : Value) (inc : Z)
           (v : Value) (d : Z) (v' : Value) : Prop :=
  (0 <= d ->
   exists ck, dup !! Z.to_nat d = Some ck /\ head (getResults ck) = Some v') /\
  (d = LOOP_VAR_DEPENDENCY ->
   exists c, mkOperation (KConstant inc) [] [c] [] ∈ created /\
             mkOperation KAddI [base; c] [v'] [] ∈ created) /\
  (d < 0 -> d <> LOOP_VAR_DEPENDENCY -> v' = v).

(** The indices [start], [start + 1], ... of [n] elements of a fifo of [N]
    elements, going round. *)
Definition roundRobin (N start : Z) (n : nat) : list Z :=
  map (fun i => (start + i) mod N) (seqZ 0 (Z.of_nat n)).

(** ** More of the small module *)

(** An oracle for [isSend]: the two MM2S channels send. *)
Definition sendChannel (channel : DMAChan) : bool :=
  match channel with MM2S0 | MM2S1 => true | S2MM0 | S2MM1 => false end.

(** The split fifos of [createdTwo] with their consumer fifos, and the
    loop over them in a module without [AIE.mem]. *)
Definition entriesTwo : list (ObjectFifoCreateOp * list ObjectFifoCreateOp) :=
  omap (fun c => if cr_shared c then None else Some (cr_createOp c, cr_children c))
       createdTwo.2.

Definition noDmas : DmaState := mkDmaState DMAChannelAnalysis.empty [] 0%nat.

Definition dmasTwo : DmaState * list MulticastOp :=
  match createAllDMAs createdTwo.1.1 noDmas entriesTwo with
  | Done r => r
  | Stopped _ => (noDmas, [])
  end.

(** Three split fifos without elements, all from tile (1,2) to tile
    (3,3). *)
Definition fifoEmpty (handle : Value) (tile : TileOp) : ObjectFifoCreateOp :=
  {| fifo_result := handle; getProducerTileOp := tile; consumerTiles := [tile33];
     elemNumber := 0; elemShape := [16] |}.

Definition entriesThree : list (ObjectFifoCreateOp * list ObjectFifoCreateOp) :=
  [ (fifoEmpty 70%nat tile12, [fifoEmpty 71%nat tile33]);
    (fifoEmpty 72%nat tile12, [fifoEmpty 73%nat tile33]);
    (fifoEmpty 74%nat tile12, [fifoEmpty 75%nat tile33]) ].

(** * Properties *)

(** Tactics of the proofs. *)

Ltac case_below j n :=
  lazymatch n with
  | O => lia
  | S ?n' => destruct (decide (j = Z.of_nat n')) as [->|];
             [vm_compute; discriminate | case_below j n']
  end.

Ltac rsimpl := cbn [mbind result_bind mret result_ret negb].

(** ** Lock allocator *)

Section LockAllocator.
Import LockAnalysis.
Implicit Types (m : gmap (Value * Z) Z) (t : Value).

Lemma usage_insert_eq m k : usage (<[k := 1]> m) k = 1.
Proof. unfold usage. by rewrite lookup_insert_eq. Qed.

Lemma usage_insert_ne m k k' : k <> k' -> usage (<[k := 1]> m) k' = usage m k'.
Proof. intros Hne. unfold usage. by rewrite lookup_insert_ne. Qed.

Lemma usage_insert_nonzero m k k' : usage m k' <> 0 -> usage (<[k := 1]> m) k' <> 0.
Proof.
  intros Hk'. destruct (decide (k = k')) as [->|Hne].
  - rewrite usage_insert_eq. lia.
  - by rewrite usage_insert_ne.
Qed.

(** What a scan of [n] indices from [i] returns: the first free index of
    the window and the map with that index marked, or [-1] and the map as
    it was when the window has no free index. *)
Lemma scan_spec n : forall m t i,
  (exists r, (i <= r < i + Z.of_nat n) /\ usage m (t, r) = 0 /\
             (forall j, i <= j < r -> usage m (t, j) <> 0) /\
             scan m t i n = (r, <[(t, r) := 1]> m))
  \/ ((forall j, i <= j < i + Z.of_nat n -> usage m (t, j) <> 0) /\
      scan m t i n = (-1, m)).
Proof.
  induction n as [|n IH]; intros m t i; simpl scan.
  - right. split; [intros j Hj; lia | reflexivity].
  - destruct (Z.eqb_spec (usage m (t, i)) 0) as [Hfree|Hused].
    + left. exists i. split; [lia|]. split; [done|]. split; [intros j Hj; lia|done].
    + destruct (IH m t (i + 1)) as [(r & Hr & Hfree & Hbelow & Hscan)|[Hall Hscan]].
      * left. exists r. split; [lia|]. split; [done|]. split; [|done].
        intros j Hj. destruct (decide (j = i)) as [->|Hne]; [done|].
        apply Hbelow. lia.
      * right. split; [|done].
        intros j Hj. destruct (decide (j = i)) as [->|Hne]; [done|].
        apply Hall. lia.
Qed.

Lemma getLockID_first_free m t i :
  0 <= i < 16 -> usage m (t, i) = 0 ->
  (forall j, 0 <= j < i -> usage m (t, j) <> 0) ->
  getLockID m t = (i, <[(t, i) := 1]> m).
Proof.
  intros Hi Hfree Hbelow. unfold getLockID.
  destruct (scan_spec 16 m t 0) as [(r & Hr & Hrfree & Hrbelow & Hscan)|[Hall _]].
  - assert (r = i) as ->; [|done].
    destruct (Z.lt_trichotomy r i) as [Hlt|[Heq|Hgt]]; [|done|].
    + exfalso. apply (Hbelow r); [lia|done].
    + exfalso. apply (Hrbelow i); [lia|done].
  - exfalso. apply (Hall i); [lia|done].
Qed.

Lemma getLockID_exhausted m t :
  (forall j, 0 <= j < 16 -> usage m (t, j) <> 0) -> getLockID m t = (-1, m).
Proof.
  intros Hall. unfold getLockID.
  destruct (scan_spec 16 m t 0) as [(r & Hr & Hrfree & _)|[_ Hscan]]; [|done].
  exfalso. apply (Hall r); [lia|done].
Qed.

Lemma getLockID_cases m t :
  (exists r, 0 <= r < 16 /\ usage m (t, r) = 0 /\
             getLockID m t = (r, <[(t, r) := 1]> m))
  \/ getLockID m t = (-1, m).
Proof.
  unfold getLockID.
  destruct (scan_spec 16 m t 0) as [(r & Hr & Hrfree & _ & Hscan)|[_ Hscan]].
  - left. exists r. split; [lia|]. by split.
  - by right.
Qed.

End LockAllocator.

Section LockAllocatorClaims.
Import LockAnalysis.
Implicit Types (m : gmap (Value * Z) Z) (t : Value).

Lemma createElements_exhausted n op m bi bufs lks :
  (forall j, 0 <= j < 16 -> usage m (producerTile op, j) <> 0) ->
  createElements (S n) op m bi bufs lks = Fatal NoMoreLocks.
Proof.
  intros Hall. simpl. by rewrite (getLockID_exhausted _ _ Hall).
Qed.

(** C4. [getLockID] hands out the smallest index of 0..15 whose usage count
    is 0 and marks it used.  When that index is 15 (0 through 14 are in use)
    the request after it finds no index, returns [-1], and the request of
    [createObjectFifoElements] that receives it stops on the assertion
    "No more locks to allocate!". *)
Theorem getLockID_first_fit m t i :
  0 <= i < 16 ->
  usage m (t, i) = 0 ->
  (forall j, 0 <= j < i -> usage m (t, j) <> 0) ->
  getLockID m t = (i, <[(t, i) := 1]> m) /\
  usage (<[(t, i) := 1]> m) (t, i) = 1 /\
  (i = 15 ->
   getLockID (<[(t, i) := 1]> m) t = (-1, <[(t, i) := 1]> m) /\
   forall st op,
     locksPerTile st = <[(t, i) := 1]> m -> producerTile op = t -> 0 < size op ->
     createObjectFifoElements st op = Fatal NoMoreLocks).
Proof.
  intros Hi Hfree Hbelow.
  split; [by apply getLockID_first_free|].
  split; [apply usage_insert_eq|].
  intros ->.
  assert (forall j, 0 <= j < 16 -> usage (<[(t, 15) := 1]> m) (t, j) <> 0) as Hall.
  { intros j Hj. destruct (decide (j = 15)) as [->|Hne].
    - rewrite usage_insert_eq. lia.
    - apply usage_insert_nonzero, Hbelow. lia. }
  split; [by apply getLockID_exhausted|].
  intros st op Hst <- Hsize. unfold createObjectFifoElements.
  destruct (Z.to_nat (size op)) as [|n] eqn:Hn; [lia|].
  rewrite Hst, createElements_exhausted; done.
Qed.

(** A tile of a module without locks: sixteen requests get 0 to 15 in
    order, the seventeenth gets [-1]. *)
Example serve_seventeen :
  (serve ∅ (replicate 17 5%nat)).1 =
  map (fun i => (5%nat, i)) [0;1;2;3;4;5;6;7;8;9;10;11;12;13;14;15;-1].
Proof. vm_compute. reflexivity. Qed.

Lemma init_snoc locks l :
  init (locks ++ [l]) = <[(tile l, getLockID_attr l) := 1]> (init locks).
Proof. unfold init. by rewrite foldl_app. Qed.

Lemma init_covers locks : covers locks (init locks).
Proof.
  induction locks as [|l locks IH] using rev_ind; intros l' Hl'.
  - by apply elem_of_nil in Hl'.
  - rewrite init_snoc. apply elem_of_app in Hl' as [Hl'|Hl'].
    + by apply usage_insert_nonzero, IH.
    + apply list_elem_of_singleton in Hl' as ->. rewrite usage_insert_eq. lia.
Qed.

Lemma getLockID_covers locks m t :
  covers locks m -> covers locks (getLockID m t).2.
Proof.
  intros Hc. destruct (getLockID_cases m t) as [(r & _ & _ & Hget)|Hget];
    rewrite Hget; simpl; [|done].
  intros l Hl. by apply usage_insert_nonzero, Hc.
Qed.

Lemma getLockID_not_covered locks m t :
  covers locks m -> 0 <= (getLockID m t).1 ->
  forall l, l ∈ locks -> (tile l, getLockID_attr l) <> (t, (getLockID m t).1).
Proof.
  intros Hc Hge l Hl Heq.
  destruct (getLockID_cases m t) as [(r & _ & Hfree & Hget)|Hget];
    rewrite Hget in *; simpl in *; [|lia].
  apply (Hc l Hl). by rewrite Heq.
Qed.

Lemma serve_avoids locks tiles : forall m t i,
  covers locks m -> (t, i) ∈ (serve m tiles).1 -> 0 <= i ->
  forall l, l ∈ locks -> (tile l, getLockID_attr l) <> (t, i).
Proof.
  induction tiles as [|t0 tiles IH]; intros m t i Hc Hin Hi; simpl in Hin.
  - by apply elem_of_nil in Hin.
  - pose proof (getLockID_covers locks m t0 Hc) as Hc'.
    pose proof (getLockID_not_covered locks m t0 Hc) as Hfresh.
    destruct (getLockID m t0) as [id m'] eqn:Hget. simpl in *.
    specialize (IH m'). destruct (serve m' tiles) as [rest m''] eqn:Hserve.
    simpl in *. apply elem_of_cons in Hin as [Heq|Hin].
    + injection Heq as -> ->. by apply Hfresh.
    + by apply (IH t i).
Qed.

Lemma createElements_avoids existing n op : forall lpt bi bufs lks lpt' bi' bufs' lks',
  covers existing lpt ->
  Forall (fun lk => lk ∉ existing) lks ->
  createElements n op lpt bi bufs lks = Ok (lpt', bi', bufs', lks') ->
  covers existing lpt' /\ Forall (fun lk => lk ∉ existing) lks'.
Proof.
  induction n as [|n IH]; intros lpt bi bufs lks lpt' bi' bufs' lks' Hc Hlks; simpl.
  - by intros [= <- <- <- <-].
  - pose proof (getLockID_covers existing lpt (producerTile op) Hc) as Hc'.
    pose proof (getLockID_not_covered existing lpt (producerTile op) Hc) as Hfresh.
    destruct (getLockID lpt (producerTile op)) as [lockID lpt1]. simpl in *.
    destruct (Z.ltb_spec lockID 0) as [|Hge]; [done|].
    apply IH; [done|]. apply Forall_app. split; [done|].
    constructor; [|constructor]. intros Hin.
    by apply (Hfresh Hge _ Hin).
Qed.

(** C10. The constructor marks the index of every lock of the input module
    on its tile, and no request served from that map on returns a
    [(tile, index)] pair that a lock of the input module occupies; the
    locks that [createObjectFifoElements] creates are none of the locks of
    the input module. *)
Theorem getLockID_avoids_existing_locks (existing : list LockOp) :
  covers existing (init existing) /\
  (forall (tiles : list Value) t i,
     (t, i) ∈ (serve (init existing) tiles).1 -> 0 <= i ->
     forall l, l ∈ existing -> ~ (tile l = t /\ getLockID_attr l = i)) /\
  (forall st op st',
     covers existing (locksPerTile st) ->
     createObjectFifoElements st op = Ok st' ->
     covers existing (locksPerTile st') /\
     forall created, locksPerFifo st' !! fifo_result op = Some created ->
                     Forall (fun lk => lk ∉ existing) created).
Proof.
  split; [apply init_covers|]. split.
  - intros tiles t i Hin Hi l Hl [Ht Hid].
    apply (serve_avoids existing tiles (init existing) t i
             (init_covers existing) Hin Hi l Hl).
    by rewrite Ht, Hid.
  - intros st op st' Hc. unfold createObjectFifoElements.
    destruct (createElements _ _ _ _ _ _) as [[[[lpt bi] bufs] lks]|] eqn:Hcreate;
      rsimpl; [|done].
    intros [= <-]. simpl.
    apply (createElements_avoids existing) in Hcreate as [Hc' Hlks];
      [|done|constructor].
    split; [done|]. intros created. rewrite lookup_insert_eq. by intros [= <-].
Qed.

End LockAllocatorClaims.

Lemma getLockID_first_fit_witness :
  LockAnalysis.getLockID fifteen_locks_used 5%nat =
    (15, <[(5%nat, 15) := 1]> fifteen_locks_used) /\
  LockAnalysis.usage (<[(5%nat, 15) := 1]> fifteen_locks_used) (5%nat, 15) = 1 /\
  (15 = 15 ->
   LockAnalysis.getLockID (<[(5%nat, 15) := 1]> fifteen_locks_used) 5%nat =
     (-1, <[(5%nat, 15) := 1]> fifteen_locks_used) /\
   forall st op,
     locksPerTile st = <[(5%nat, 15) := 1]> fifteen_locks_used ->
     producerTile op = 5%nat -> 0 < size op ->
     createObjectFifoElements st op = Fatal NoMoreLocks).
Proof.
  apply (getLockID_first_fit fifteen_locks_used 5%nat 15).
  - lia.
  - vm_compute. reflexivity.
  - intros j Hj. case_below j 15%nat.
Defined.

(** ** Sizing of split object FIFOs *)

Section Sizing.
Variable isLegalMemAffinity : Z -> Z -> Z -> Z -> bool.
Variable cores : list CoreOp.

Lemma maxAcquire_step_cases q acc o :
  (maxAcquire_step q acc o = acc /\
   (isAcquire o = true -> fifo o = Some (fifo_result q) -> acqNumber o <= acc))
  \/ (maxAcquire_step q acc o = acqNumber o /\ acc < acqNumber o /\
      isAcquire o = true /\ fifo o = Some (fifo_result q)).
Proof.
  unfold maxAcquire_step.
  destruct (isAcquire o); simpl; [|left; split; [done|discriminate]].
  case_bool_decide as Hf; simpl; [|left; split; [done|intros _ ?; done]].
  destruct (Z.ltb_spec acc (acqNumber o)); [right|left]; repeat split; auto.
Qed.

(** The inner fold: at least the accumulator, at least every matching
    acquire of the list, and either the accumulator or one of them. *)
Lemma fold_maxAcquire_step q ops : forall acc,
  let r := foldl (maxAcquire_step q) acc ops in
  acc <= r /\
  (forall o, o ∈ ops -> isAcquire o = true -> fifo o = Some (fifo_result q) ->
             acqNumber o <= r) /\
  (r = acc \/ exists o, o ∈ ops /\ isAcquire o = true /\
                        fifo o = Some (fifo_result q) /\ acqNumber o = r).
Proof.
  induction ops as [|o ops IH]; intros acc; simpl.
  - split; [lia|]. split; [|by left]. intros o Ho. by apply elem_of_nil in Ho.
  - destruct (IH (maxAcquire_step q acc o)) as (Hle & Hub & Hatt).
    destruct (maxAcquire_step_cases q acc o) as [[Heq Hacc]|(Heq & Hlt & Ha & Hf)];
      rewrite Heq in *.
    + split; [done|]. split.
      * intros o' Ho' Ha' Hf'. apply elem_of_cons in Ho' as [->|Ho'].
        -- specialize (Hacc Ha' Hf'). lia.
        -- by apply Hub.
      * destruct Hatt as [?|(o' & Ho' & ?)]; [by left|right].
        exists o'. split; [by apply list_elem_of_further|done].
    + split; [lia|]. split.
      * intros o' Ho' Ha' Hf'. apply elem_of_cons in Ho' as [->|Ho'].
        -- lia.
        -- by apply Hub.
      * right. destruct Hatt as [Hr|(o' & Ho' & ?)].
        -- exists o. split; [apply list_elem_of_here|]. by rewrite Hr.
        -- exists o'. split; [by apply list_elem_of_further|done].
Qed.

Lemma fold_cores_maxAcquire q tile cs : forall acc,
  let r := foldl (fun acc coreOp =>
                    if bool_decide (core_tile coreOp = tile)
                    then foldl (maxAcquire_step q) acc (walk_core coreOp)
                    else acc) acc cs in
  acc <= r /\
  (forall o, observes cs tile q o -> acqNumber o <= r) /\
  (r = acc \/ exists o, observes cs tile q o /\ acqNumber o = r).
Proof.
  induction cs as [|c cs IH]; intros acc; simpl.
  - split; [lia|]. split; [|by left].
    intros o (c & Hc & _). by apply elem_of_nil in Hc.
  - set (acc' := if bool_decide (core_tile c = tile)
                 then foldl (maxAcquire_step q) acc (walk_core c) else acc).
    destruct (IH acc') as (Hle & Hub & Hatt).
    assert (acc <= acc' /\
            (forall o, core_tile c = tile -> o ∈ walk_core c ->
                       isAcquire o = true -> fifo o = Some (fifo_result q) ->
                       acqNumber o <= acc') /\
            (acc' = acc \/ exists o, core_tile c = tile /\ o ∈ walk_core c /\
                                     isAcquire o = true /\
                                     fifo o = Some (fifo_result q) /\
                                     acqNumber o = acc')) as (Hle' & Hub' & Hatt').
    { subst acc'. case_bool_decide as Ht.
      - destruct (fold_maxAcquire_step q (walk_core c) acc) as (H1 & H2 & H3).
        split; [done|]. split; [intros o _; apply H2|].
        destruct H3 as [?|(o & ? & ? & ? & ?)]; [by left|right]. by exists o.
      - split; [lia|]. split; [done|by left]. }
    split; [lia|]. split.
    + intros o (c' & Hc' & Ht & Ho & Ha & Hf).
      apply elem_of_cons in Hc' as [->|Hc'].
      * specialize (Hub' o Ht Ho Ha Hf). lia.
      * apply Hub. by exists c'.
    + destruct Hatt as [Hr|(o & (c' & Hc' & ?) & Hr)].
      * destruct Hatt' as [Hacc|(o & Ht & Ho & Ha & Hf & Hacc)].
        -- left. lia.
        -- right. exists o. split; [|lia].
           exists c. split; [apply list_elem_of_here|done].
      * right. exists o. split; [|done].
        exists c'. split; [by apply list_elem_of_further|done].
Qed.

(** [maxAcquire] is the largest [acqNumber] of the acquires of the fifo in
    the cores of the tile, and 0 when there is none above 0. *)
Lemma maxAcquire_spec tile q :
  0 <= maxAcquire cores tile q /\
  (forall o, observes cores tile q o -> acqNumber o <= maxAcquire cores tile q) /\
  (maxAcquire cores tile q = 0 \/
   exists o, observes cores tile q o /\ acqNumber o = maxAcquire cores tile q).
Proof. apply (fold_cores_maxAcquire q tile cores 0). Qed.

Lemma wrap32_small z : int_range z -> wrap32 z = z.
Proof.
  unfold int_range, wrap32. intros Hz.
  rewrite Z.mod_small; lia.
Qed.

Lemma findObjectFifoSize_rule tile q :
  depth_rule (size q) (maxAcquire cores tile q) (findObjectFifoSize cores tile q).
Proof.
  unfold depth_rule, findObjectFifoSize.
  set (M := maxAcquire cores tile q).
  destruct (Z.eqb_spec (size q) 0) as [Hz|Hnz].
  { split; [done|]. intros; done. }
  destruct (Z.ltb_spec 0 M) as [Hpos|Hnpos].
  2:{ split; [done|]. intros _ ?; lia. }
  split; [intros [?|?]; lia|]. intros _ HM.
  destruct (Z.eqb_spec M 1) as [HM1|HM1]; simpl.
  - destruct (Z.eqb_spec (size q) 1) as [Hs1|Hs1].
    + split; [lia|]. split; [done|]. intros Hn. exfalso. by apply Hn.
    + rewrite wrap32_small by (unfold int_range; lia).
      split; [lia|]. split; [|intros _; lia]. split; [lia|intros [? _]; done].
  - rewrite wrap32_small by (unfold int_range; lia).
    split; [lia|]. split; [|intros _; lia]. split; [lia|intros [_ ?]; done].
Qed.

End Sizing.

(** ** Splitting a fifo into consumer fifos *)

Section Splitting.
Variable isLegalMemAffinity : Z -> Z -> Z -> Z -> bool.
Variable cores : list CoreOp.

Lemma splitConsumers_split q todo : forall acc fresh,
  (forall consumer, consumer ∈ todo ->
     ((length (consumerTiles q) =? 1)%nat && adjacent isLegalMemAffinity q consumer) = false) ->
  exists new,
    splitConsumers isLegalMemAffinity cores q todo acc fresh
      = (false, acc ++ new, (fresh + length todo)%nat) /\
    Forall2 (is_child cores q) todo new /\
    (forall child, child ∈ new -> (fresh <= fifo_result child)%nat).
Proof.
  induction todo as [|consumer todo IH]; intros acc fresh Hno; simpl.
  - exists []. rewrite app_nil_r, Nat.add_0_r. split; [done|].
    split; [constructor|]. intros ? H. by apply elem_of_nil in H.
  - pose proof (Hno consumer (list_elem_of_here _ _)) as Hc.
    unfold adjacent in Hc. rewrite Hc.
    set (child := {| fifo_result := fresh; getProducerTileOp := consumer;
                     consumerTiles := [consumer];
                     elemNumber := findObjectFifoSize cores (tile_result consumer) q;
                     elemShape := elemShape q |}).
    destruct (IH (acc ++ [child]) (S fresh)) as (new & Heq & Hall & Hfresh).
    { intros c Hc'. apply Hno. by apply list_elem_of_further. }
    exists (child :: new). rewrite Heq. split.
    + rewrite <- app_assoc. simpl. do 2 f_equal. lia.
    + split.
      * constructor; [|done]. by repeat split.
      * intros ch Hin. apply elem_of_cons in Hin as [->|Hin]; simpl; [lia|].
        specialize (Hfresh ch Hin). lia.
Qed.

Lemma single_adjacent_dec q :
  {single_adjacent isLegalMemAffinity q} +
  {forall consumer, consumer ∈ consumerTiles q ->
     ((length (consumerTiles q) =? 1)%nat && adjacent isLegalMemAffinity q consumer) = false}.
Proof.
  destruct (consumerTiles q) as [|c [|c' l]] eqn:Hq.
  - right. intros ? H. by apply elem_of_nil in H.
  - destruct (adjacent isLegalMemAffinity q c) eqn:Hadj.
    + left. exists c. by rewrite Hq.
    + right. intros c' Hc'. apply list_elem_of_singleton in Hc' as ->.
      by rewrite Hadj, andb_false_r.
  - right. intros; done.
Qed.

Lemma splitConsumers_shared q fresh :
  single_adjacent isLegalMemAffinity q ->
  splitConsumers isLegalMemAffinity cores q (consumerTiles q) [] fresh
    = (true, [], fresh).
Proof.
  intros (c & Hq & Hadj). rewrite Hq. simpl. rewrite Hq. simpl.
  unfold adjacent in Hadj. by rewrite Hadj.
Qed.

Lemma single_adjacent_not_split q :
  single_adjacent isLegalMemAffinity q ->
  ~ (forall consumer, consumer ∈ consumerTiles q ->
       ((length (consumerTiles q) =? 1)%nat && adjacent isLegalMemAffinity q consumer) = false).
Proof.
  intros (c & Hq & Hadj) Hno. specialize (Hno c). rewrite Hq in Hno.
  simpl in Hno. rewrite Hadj in Hno. discriminate Hno. apply list_elem_of_here.
Qed.

(** What [createOne] returns when it does not stop on an assertion. *)
Lemma createOne_shared st fresh q c :
  single_adjacent isLegalMemAffinity q ->
  createOne isLegalMemAffinity cores st fresh q = Ok c ->
  cr_shared c = true /\ cr_children c = [] /\ cr_createOp c = q /\
  splitFifos (cr_state c) = splitFifos st.
Proof.
  intros Hsh. unfold createOne. rewrite (splitConsumers_shared q fresh Hsh).
  unfold createObjectFifoElements.
  destruct (createElements _ _ _ _ _ _) as [[[[lpt bi] bufs] lks]|e]; simpl; [|done].
  intros [= <-]. done.
Qed.

Lemma createOne_split st fresh q c :
  ~ single_adjacent isLegalMemAffinity q ->
  createOne isLegalMemAffinity cores st fresh q = Ok c ->
  cr_shared c = false /\
  Forall2 (is_child cores q) (consumerTiles q) (cr_children c) /\
  (forall child, child ∈ cr_children c -> (fresh <= fifo_result child)%nat) /\
  cr_createOp c = setElemNumber q (findObjectFifoSize cores (producerTile q) q) /\
  splitFifos (cr_state c) !! fifo_result q = Some (cr_children c).
Proof.
  intros Hns. destruct (single_adjacent_dec q) as [?|Hno]; [done|].
  unfold createOne.
  destruct (splitConsumers_split q (consumerTiles q) [] fresh Hno)
    as (new & -> & Hall & Hfresh).
  simpl. unfold createObjectFifoElements.
  destruct (createElements _ _ _ _ _ _) as [[[[lpt bi] bufs] lks]|e]; simpl; [|done].
  intros [= <-]. simpl. repeat split; try done. by rewrite lookup_insert_eq.
Qed.

End Splitting.

(** ** Resolved depths *)

Lemma findObjectFifoSize_resolved cores q tile :
  resolved cores q tile (findObjectFifoSize cores tile q).
Proof.
  exists (maxAcquire cores tile q).
  split; [apply maxAcquire_spec|apply findObjectFifoSize_rule].
Qed.

(** C1 (as amended).  When a fifo is split, the producer side is resized on
    the producer tile and every consumer fifo is sized on its consumer tile.
    Such a depth is 0 when the declared depth is 0 or no acquire on the
    sizing tile asks for an element; otherwise (largest acquire below
    [INT_MAX]) it is at least 1, it is 1 exactly when the declared depth
    and the largest acquire are both 1, and it is the largest acquire plus
    1 in every other case. *)
Theorem resolved_depth isLegalMemAffinity cores st fresh q c :
  createOne isLegalMemAffinity cores st fresh q = Ok c ->
  cr_shared c = false ->
  resolved cores q (producerTile q) (size (cr_createOp c)) /\
  Forall2 (fun consumer child =>
             getProducerTileOp child = consumer /\
             resolved cores q (tile_result consumer) (size child))
          (consumerTiles q) (cr_children c).
Proof.
  intros Hc Hns.
  destruct (single_adjacent_dec isLegalMemAffinity q) as [Hsh|Hno].
  { destruct (createOne_shared _ _ _ _ _ _ Hsh Hc) as (Htrue & _). congruence. }
  pose proof (single_adjacent_not_split isLegalMemAffinity q) as Hnot.
  destruct (createOne_split isLegalMemAffinity cores st fresh q c) as
    (_ & Hall & _ & Hq & _); [tauto|done|].
  split.
  - rewrite Hq. apply findObjectFifoSize_resolved.
  - eapply Forall2_impl; [exact Hall|].
    intros consumer child (Hp & _ & Hn & _). split; [done|].
    unfold size. rewrite Hn. apply findObjectFifoSize_resolved.
Qed.

Lemma resolved_depth_witness :
  resolved coresFar fifoFar (producerTile fifoFar) (size (cr_createOp createdFar)) /\
  Forall2 (fun consumer child =>
             getProducerTileOp child = consumer /\
             resolved coresFar fifoFar (tile_result consumer) (size child))
          (consumerTiles fifoFar) (cr_children createdFar).
Proof.
  apply (resolved_depth exampleAffinity coresFar emptyState 100%nat fifoFar createdFar).
  - vm_compute. reflexivity.
  - vm_compute. reflexivity.
Defined.

(** C1 as stated fails: no core runs on the producer tile (1,2) of
    [fifoFar], whose declared depth is 2; the producer side is resized to
    depth 0, not to a depth of at least 1. *)
Lemma resolved_depth_counterexample :
  createOne exampleAffinity coresFar emptyState 100%nat fifoFar = Ok createdFar /\
  cr_shared createdFar = false /\
  size fifoFar = 2 /\
  maxAcquire coresFar (producerTile fifoFar) fifoFar = 0 /\
  size (cr_createOp createdFar) = 0 /\
  ~ (1 <= size (cr_createOp createdFar)) /\
  ~ (size (cr_createOp createdFar)
     = maxAcquire coresFar (producerTile fifoFar) fifoFar + 1).
Proof.
  assert (size (cr_createOp createdFar) = 0) as Hsize by (vm_compute; reflexivity).
  assert (maxAcquire coresFar (producerTile fifoFar) fifoFar = 0) as Hmax
    by (vm_compute; reflexivity).
  split; [vm_compute; reflexivity|].
  split; [vm_compute; reflexivity|].
  split; [reflexivity|].
  split; [exact Hmax|].
  split; [exact Hsize|].
  rewrite Hsize, Hmax. split; lia.
Qed.

(** ** Substitution of consumer fifos *)

Section Substitution.
Implicit Types (o : Operation) (sf : gmap Value (list ObjectFifoCreateOp)).

Lemma replaceUsesOfWith_kind o from to :
  op_kind (replaceUsesOfWith o from to) = op_kind o.
Proof. by destruct o. Qed.

Lemma replaceUsesOfWith_fifo_hit o from to :
  fifo o = Some from -> fifo (replaceUsesOfWith o from to) = Some to.
Proof.
  destruct o as [k [|v vs] rs rg]; unfold fifo; simpl; [done|].
  intros [= ->]. by rewrite bool_decide_eq_true_2.
Qed.

Lemma replaceUsesOfWith_fifo_miss o from to v :
  fifo o = Some v -> v <> from -> fifo (replaceUsesOfWith o from to) = Some v.
Proof.
  destruct o as [k [|w vs] rs rg]; unfold fifo; simpl; [done|].
  intros [= ->] Hne. by rewrite bool_decide_eq_false_2.
Qed.

Lemma substitute_kind parentFifo tile children : forall o,
  op_kind (substitute parentFifo tile o children) = op_kind o.
Proof.
  unfold substitute.
  induction children as [|ch children IH]; intros o; simpl; [done|].
  rewrite IH.
  case_bool_decide; [apply replaceUsesOfWith_kind|done].
Qed.

(** Once the operation names a value other than the parent, the loop
    leaves that name alone. *)
Lemma substitute_stable parentFifo tile children : forall o v,
  fifo o = Some v -> v <> parentFifo ->
  fifo (substitute parentFifo tile o children) = Some v.
Proof.
  unfold substitute.
  induction children as [|ch children IH]; intros o v Hf Hne; simpl; [done|].
  apply IH; [|done].
  case_bool_decide; [by apply replaceUsesOfWith_fifo_miss|done].
Qed.

Lemma substitute_first parentFifo tile children : forall o,
  fifo o = Some parentFifo ->
  (forall ch, ch ∈ children -> fifo_result ch <> parentFifo) ->
  (exists ch, ch ∈ children /\ producerTile ch = tile) ->
  exists ch, ch ∈ children /\ producerTile ch = tile /\
             fifo (substitute parentFifo tile o children) = Some (fifo_result ch).
Proof.
  induction children as [|ch children IH]; intros o Hf Hfresh (ch' & Hin & Ht).
  - by apply elem_of_nil in Hin.
  - unfold substitute. simpl. case_bool_decide as Hch.
    + exists ch. split; [apply list_elem_of_here|]. split; [done|].
      apply substitute_stable.
      * by apply replaceUsesOfWith_fifo_hit.
      * apply Hfresh, list_elem_of_here.
    + apply elem_of_cons in Hin as [->|Hin]; [done|].
      destruct (IH o Hf) as (ch'' & Hin'' & Ht'' & Hsub).
      * intros c Hc. by apply Hfresh, list_elem_of_further.
      * by exists ch'.
      * exists ch''. split; [by apply list_elem_of_further|done].
Qed.

Lemma checkSplitFifo_consume sf o q children tile :
  isAcquire o || isRelease o = true ->
  fifo o = Some (fifo_result q) ->
  port o = Some Consume ->
  sf !! fifo_result q = Some children ->
  (forall ch, ch ∈ children -> fifo_result ch <> fifo_result q) ->
  (exists ch, ch ∈ children /\ producerTile ch = tile) ->
  exists o' ch,
    checkSplitFifo sf o tile = Ok o' /\ op_kind o' = op_kind o /\
    ch ∈ children /\ producerTile ch = tile /\
    fifo o' = Some (fifo_result ch) /\ fifo o' <> Some (fifo_result q).
Proof.
  intros Hk Hf Hp Hsf Hfresh Hex.
  destruct (substitute_first (fifo_result q) tile children o Hf Hfresh Hex)
    as (ch & Hin & Ht & Hsub).
  exists (substitute (fifo_result q) tile o children), ch.
  unfold checkSplitFifo. rewrite Hk, Hf, Hsf, Hp. simpl.
  split; [done|]. split; [apply substitute_kind|].
  split; [done|]. split; [done|]. split; [done|].
  rewrite Hsub. intros [= Heq]. by apply (Hfresh ch Hin).
Qed.

Lemma checkSplitFifo_produce sf o tile :
  isAcquire o || isRelease o = true ->
  port o = Some Produce ->
  checkSplitFifo sf o tile = Ok o.
Proof.
  intros Hk Hp. unfold checkSplitFifo. rewrite Hk, Hp.
  destruct (fifo o) as [v|]; [|done]. by destruct (sf !! v).
Qed.

End Substitution.

(** C3 (as amended).  A fifo with one consumer that is adjacent to the
    producer gets no consumer fifo.  Every other fifo gets exactly one
    consumer fifo per consumer, in the order of the consumers, whether that
    consumer is adjacent or not; and an acquire or release of the consumer
    port that names the fifo, in a core on the tile of one of its
    consumers, leaves [checkSplitFifo] naming a consumer fifo of that tile
    and not the fifo itself.  An acquire or release of the producer port is
    left as it is. *)
Theorem one_child_per_consumer isLegalMemAffinity cores st fresh q c :
  createOne isLegalMemAffinity cores st fresh q = Ok c ->
  (fifo_result q < fresh)%nat ->
  (single_adjacent isLegalMemAffinity q ->
   cr_shared c = true /\ cr_children c = []) /\
  (~ single_adjacent isLegalMemAffinity q ->
   cr_shared c = false /\
   Forall2 (is_child cores q) (consumerTiles q) (cr_children c) /\
   splitFifos (cr_state c) !! fifo_result q = Some (cr_children c) /\
   forall sf o consumer,
     sf !! fifo_result q = Some (cr_children c) ->
     consumer ∈ consumerTiles q ->
     isAcquire o || isRelease o = true ->
     fifo o = Some (fifo_result q) ->
     port o = Some Consume ->
     exists o' child,
       checkSplitFifo sf o (tile_result consumer) = Ok o' /\
       op_kind o' = op_kind o /\
       child ∈ cr_children c /\
       producerTile child = tile_result consumer /\
       fifo o' = Some (fifo_result child) /\
       fifo o' <> Some (fifo_result q)) /\
  (forall sf o tile,
     isAcquire o || isRelease o = true -> port o = Some Produce ->
     checkSplitFifo sf o tile = Ok o).
Proof.
  intros Hc Hfresh. split; [|split].
  - intros Hsh. by destruct (createOne_shared _ _ _ _ _ _ Hsh Hc) as (? & ? & _).
  - intros Hns.
    destruct (createOne_split _ _ _ _ _ _ Hns Hc) as (Hsh & Hall & Hge & _ & Hsf).
    split; [done|]. split; [done|]. split; [done|].
    intros sf o consumer Hsf' Hin Hk Hf Hp.
    apply checkSplitFifo_consume; try done.
    + intros ch Hch Heq. specialize (Hge ch Hch). lia.
    + apply list_elem_of_lookup in Hin as [i Hi].
      destruct (Forall2_lookup_l _ _ _ _ _ Hall Hi) as (ch & Hch & Hp' & _).
      exists ch. split; [by eapply list_elem_of_lookup_2|].
      unfold producerTile. by rewrite Hp'.
  - intros sf o tile. apply checkSplitFifo_produce.
Qed.

Lemma one_child_per_consumer_witness :
  (single_adjacent exampleAffinity fifoBroadcast ->
   cr_shared createdBroadcast = true /\ cr_children createdBroadcast = []) /\
  (~ single_adjacent exampleAffinity fifoBroadcast ->
   cr_shared createdBroadcast = false /\
   Forall2 (is_child coresBroadcast fifoBroadcast) (consumerTiles fifoBroadcast)
           (cr_children createdBroadcast) /\
   splitFifos (cr_state createdBroadcast) !! fifo_result fifoBroadcast
     = Some (cr_children createdBroadcast) /\
   forall sf o consumer,
     sf !! fifo_result fifoBroadcast = Some (cr_children createdBroadcast) ->
     consumer ∈ consumerTiles fifoBroadcast ->
     isAcquire o || isRelease o = true ->
     fifo o = Some (fifo_result fifoBroadcast) ->
     port o = Some Consume ->
     exists o' child,
       checkSplitFifo sf o (tile_result consumer) = Ok o' /\
       op_kind o' = op_kind o /\
       child ∈ cr_children createdBroadcast /\
       producerTile child = tile_result consumer /\
       fifo o' = Some (fifo_result child) /\
       fifo o' <> Some (fifo_result fifoBroadcast)) /\
  (forall sf o tile,
     isAcquire o || isRelease o = true -> port o = Some Produce ->
     checkSplitFifo sf o tile = Ok o).
Proof.
  apply (one_child_per_consumer exampleAffinity coresBroadcast emptyState 100%nat
           fifoBroadcast createdBroadcast).
  - vm_compute. reflexivity.
  - vm_compute. lia.
Defined.

(** C3 as stated fails twice on [fifoBroadcast].  Its consumer (1,3) is
    adjacent to the producer (1,2) and still gets a consumer fifo, because
    the fifo has a second consumer; and an acquire of the producer port in
    the core of the consumer tile (3,3) still names the fifo itself after
    [checkSplitFifo]. *)
Lemma one_child_per_consumer_counterexample :
  createOne exampleAffinity coresBroadcast emptyState 100%nat fifoBroadcast
    = Ok createdBroadcast /\
  adjacent exampleAffinity fifoBroadcast tile13 = true /\
  adjacent exampleAffinity fifoBroadcast tile33 = false /\
  map getProducerTileOp (cr_children createdBroadcast) = [tile13; tile33] /\
  checkSplitFifo (splitFifos (cr_state createdBroadcast))
                 (acquireOp Produce 11%nat 1 30%nat) (tile_result tile33)
    = Ok (acquireOp Produce 11%nat 1 30%nat).
Proof. repeat split; vm_compute; reflexivity. Qed.

(** ** Port check *)

Section PortCheck.
Variable defs : gmap Value ObjectFifoCreateOp.

Lemma existsb_consumer coreTile (consumers : list TileOp) :
  existsb (fun consumerTile => bool_decide (coreTile = tile_result consumerTile))
          consumers = true
  <-> coreTile ∈ map tile_result consumers.
Proof.
  rewrite existsb_exists, list_elem_of_In, in_map_iff. split.
  - intros (x & Hin & Heq). apply bool_decide_eq_true_1 in Heq. by exists x.
  - intros (x & Heq & Hin). exists x. split; [done|].
    by apply bool_decide_eq_true_2.
Qed.

(** The loop over the parents stops on the assertion exactly when no
    parent is an [AIE.core], and otherwise on the innermost one. *)
Lemma enclosingCore_none (parents : list ParentOp) :
  Forall (fun p => p = ParentOther) parents <->
  enclosingCore parents = Fatal NotInsideCoreOp.
Proof.
  induction parents as [|[t|] parents IH]; simpl.
  - split; [done|constructor].
  - split; [|done]. intros Hall. apply Forall_cons in Hall as [? _]. done.
  - rewrite <- IH. split.
    + intros Hall. by apply Forall_cons in Hall as [_ ?].
    + intros Hall. by constructor.
Qed.

Lemma enclosingCore_innermost (parents : list ParentOp) coreTile :
  innermostCore parents coreTile <-> enclosingCore parents = Ok coreTile.
Proof.
  unfold innermostCore. induction parents as [|[t|] parents IH]; simpl.
  - split; [|done]. intros (others & rest & Heq & _). by destruct others.
  - split.
    + intros ([|p others] & rest & Heq & Hall); simpl in Heq.
      * by injection Heq as ->.
      * injection Heq as <- _. apply Forall_cons in Hall as [? _]. done.
    + intros [= ->]. exists [], parents. split; [done|constructor].
  - rewrite <- IH. split.
    + intros ([|p others] & rest & Heq & Hall); simpl in Heq; [done|].
      injection Heq as <- ->. apply Forall_cons in Hall as [_ Hall].
      by exists others, rest.
    + intros (others & rest & -> & Hall).
      exists (ParentOther :: others), rest. split; [done|by constructor].
Qed.

(** The two port assertions of [checkCorrectPort]. *)
Lemma checkCorrectPort_produce_wrong (o : Operation) (parents : list ParentOp)
      (q : ObjectFifoCreateOp) coreTile :
  isAcquire o || isRelease o = true ->
  fifo o = Some (fifo_result q) ->
  defs !! fifo_result q = Some q ->
  enclosingCore parents = Ok coreTile ->
  port o = Some Produce -> coreTile <> producerTile q ->
  checkCorrectPort defs o parents = Fatal ProducerPortOnWrongTile.
Proof.
  intros Hk Hf Hq Hcore Hp Hne. unfold checkCorrectPort.
  rewrite Hk, Hcore, Hp, Hf. simpl. rewrite Hq.
  by rewrite bool_decide_eq_true_2.
Qed.

Lemma checkCorrectPort_consume_wrong (o : Operation) (parents : list ParentOp)
      (q : ObjectFifoCreateOp) coreTile :
  isAcquire o || isRelease o = true ->
  fifo o = Some (fifo_result q) ->
  defs !! fifo_result q = Some q ->
  enclosingCore parents = Ok coreTile ->
  port o = Some Consume -> coreTile ∉ map tile_result (consumerTiles q) ->
  checkCorrectPort defs o parents = Fatal ConsumerPortOnWrongTile.
Proof.
  intros Hk Hf Hq Hcore Hp Hnin. unfold checkCorrectPort.
  rewrite Hk, Hcore, Hp, Hf. simpl. rewrite Hq.
  destruct (existsb _ _) eqn:Hex; [|done].
  by apply existsb_consumer in Hex.
Qed.

(** C7. For an acquire or release naming the fifo [q]: when none of the
    operations around it is an [AIE.core], [checkCorrectPort] stops on
    "must be used inside a CoreOp"; on the producer port, when the
    innermost core around it runs on another tile than the producer's, it
    stops on the producer-port assertion; on the consumer port, when the
    innermost core around it runs on a tile that is not among the
    consumers, it stops on the consumer-port assertion.  It returns
    normally only inside a core whose tile matches the port. *)
Theorem checkCorrectPort_rejects (o : Operation) (parents : list ParentOp)
        (q : ObjectFifoCreateOp) :
  isAcquire o || isRelease o = true ->
  fifo o = Some (fifo_result q) ->
  defs !! fifo_result q = Some q ->
  (Forall (fun p => p = ParentOther) parents ->
   checkCorrectPort defs o parents = Fatal NotInsideCoreOp) /\
  (forall coreTile,
     innermostCore parents coreTile ->
     port o = Some Produce -> coreTile <> producerTile q ->
     checkCorrectPort defs o parents = Fatal ProducerPortOnWrongTile) /\
  (forall coreTile,
     innermostCore parents coreTile ->
     port o = Some Consume -> coreTile ∉ map tile_result (consumerTiles q) ->
     checkCorrectPort defs o parents = Fatal ConsumerPortOnWrongTile) /\
  (checkCorrectPort defs o parents = Ok tt <->
   exists coreTile,
     innermostCore parents coreTile /\
     (port o = Some Produce /\ coreTile = producerTile q \/
      port o = Some Consume /\ coreTile ∈ map tile_result (consumerTiles q))).
Proof.
  intros Hk Hf Hq.
  rewrite enclosingCore_none.
  setoid_rewrite enclosingCore_innermost.
  unfold checkCorrectPort. rewrite Hk, Hf. simpl. rewrite Hq.
  assert (exists p, port o = Some p) as [p Hp].
  { unfold port, isAcquire, isRelease in *.
    destruct (op_kind o); try discriminate Hk; eauto. }
  rewrite Hp.
  split; [intros ->; done|].
  split.
  { intros coreTile -> [= ->] Hne. simpl. by rewrite bool_decide_eq_true_2. }
  split.
  { intros coreTile -> [= ->] Hnin. simpl.
    destruct (existsb _ _) eqn:Hex; [|done].
    apply existsb_consumer in Hex. done. }
  destruct (enclosingCore parents) as [coreTile|e]; simpl.
  2:{ split; [done|]. intros (? & ? & _). done. }
  destruct p.
  - case_bool_decide as Hne; split; try done.
    + intros (t & [= <-] & [[_ ?]|[? _]]); done.
    + intros _. exists coreTile. split; [done|]. left. split; [done|].
      by destruct (decide (coreTile = producerTile q)).
  - destruct (existsb _ _) eqn:Hex; split; try done.
    + intros _. exists coreTile. split; [done|]. right. split; [done|].
      by apply existsb_consumer.
    + intros (t & [= <-] & [[? _]|[_ Hin]]); [done|].
      apply existsb_consumer in Hin. congruence.
Qed.

End PortCheck.

(** ** Loop unrolling: what the clones name *)

Section Clones.
Variable isBlockArgument : Value -> bool.

Lemma dependencyIndex_external forLoop index v :
  external isBlockArgument forLoop v -> dependencyIndex isBlockArgument forLoop index v = Ok (-1).
Proof.
  intros (Hiv & Hba & Hdef). unfold dependencyIndex.
  rewrite bool_decide_eq_false_2 by done. by rewrite Hba, Hdef.
Qed.

Lemma identifyDependencies_external forLoop ops : forall index rows,
  identifyDependencies_from isBlockArgument forLoop index ops = Ok rows ->
  Forall2 (fun o deps => forall v, fifo o = Some v -> external isBlockArgument forLoop v ->
                                   head deps = Some (-1)) ops rows.
Proof.
  induction ops as [|o ops IH]; intros index rows; simpl.
  - intros [= <-]. constructor.
  - destruct (mapM _ (getOperands o)) as [row|] eqn:Hrow; simpl; [|done].
    destruct (identifyDependencies_from _ _ _ ops) as [rows'|] eqn:Hrows;
      simpl; [|done].
    intros [= <-]. constructor; [|by eapply IH].
    intros v Hf Hext. unfold fifo in Hf.
    destruct (getOperands o) as [|w ws]; simpl in *; [done|].
    injection Hf as ->.
    rewrite (dependencyIndex_external _ _ _ Hext) in Hrow. simpl in Hrow.
    destruct (mapM _ ws); simpl in Hrow; [|done]. by injection Hrow as <-.
Qed.

Lemma patchOperands_spec operands : forall fresh deps dup base inc created vs fresh',
  patchOperands fresh operands deps dup base inc = Ok (created, vs, fresh') ->
  Forall isArith created /\
  (operands = [] -> vs = []) /\
  (head deps = Some (-1) -> head vs = head operands).
Proof.
  induction operands as [|v operands IH];
    intros fresh deps dup base inc created vs fresh'; simpl.
  - intros [= <- <- <-]. split; [constructor|done].
  - destruct deps as [|d deps]; [done|].
    destruct (Z.leb_spec 0 d) as [Hd|Hd].
    + destruct (dup !! Z.to_nat d ≫= _) as [r|]; [|done].
      destruct (patchOperands _ _ _ _ _ _) as [[[cr vs0] f0]|] eqn:Hrec;
        simpl; [|done].
      intros [= <- <- <-]. apply IH in Hrec as [Har _].
      split; [done|]. split; [done|]. simpl. intros [= ->]. lia.
    + destruct (Z.eqb_spec d LOOP_VAR_DEPENDENCY) as [Hloop|Hloop].
      * destruct (patchOperands _ _ _ _ _ _) as [[[cr vs0] f0]|] eqn:Hrec;
          simpl; [|done].
        intros [= <- <- <-]. apply IH in Hrec as [Har _].
        split; [by repeat constructor|]. split; [done|].
        simpl. intros [= ->]. done.
      * destruct (patchOperands _ _ _ _ _ _) as [[[cr vs0] f0]|] eqn:Hrec;
          simpl; [|done].
        intros [= <- <- <-]. apply IH in Hrec as [Har _]. by split.
Qed.

Lemma clone_kind fresh o : op_kind (clone fresh o).1 = op_kind o.
Proof. by destruct o. Qed.

Lemma clone_operands fresh o : getOperands (clone fresh o).1 = getOperands o.
Proof. by destruct o. Qed.

Lemma setOperands_kind o vs : op_kind (setOperands o vs) = op_kind o.
Proof. by destruct o. Qed.

Lemma setOperands_operands o vs : getOperands (setOperands o vs) = vs.
Proof. by destruct o. Qed.

Lemma inserted_ok_cons o deps operations dependencies c :
  inserted_ok operations dependencies c ->
  inserted_ok (o :: operations) (deps :: dependencies) c.
Proof.
  intros [?|(k & o' & d' & ? & ? & ?)]; [by left|right].
  by exists (S k), o', d'.
Qed.

Lemma duplicateRound_spec operations : forall fresh dependencies dup base inc ins fresh',
  duplicateRound fresh operations dependencies dup base inc = Ok (ins, fresh') ->
  Forall (inserted_ok operations dependencies) ins.
Proof.
  induction operations as [|o operations IH];
    intros fresh dependencies dup base inc ins fresh'; simpl.
  - intros [= <- <-]. constructor.
  - destruct dependencies as [|deps dependencies]; [done|].
    destruct (clone fresh o) as [c fresh1] eqn:Hclone.
    destruct (patchOperands _ _ _ _ _ _) as [[[created vs] fresh2]|] eqn:Hpatch;
      simpl; [|done].
    destruct (duplicateRound _ _ _ _ _ _) as [[ins' fresh3]|] eqn:Hrec;
      simpl; [|done].
    intros [= <- <-].
    apply patchOperands_spec in Hpatch as (Har & Hnil & Hhead).
    apply IH in Hrec.
    assert (c = (clone fresh o).1) as Hc by (by rewrite Hclone).
    apply Forall_app. split.
    + eapply Forall_impl; [exact Har|]. intros x Hx. by left.
    + constructor.
      * right. exists 0%nat, o, deps. split; [done|]. split; [done|].
        split; [by rewrite setOperands_kind, Hc, clone_kind|]. split.
        -- unfold fifo. rewrite setOperands_operands.
           rewrite Hc, clone_operands in Hnil.
           destruct (getOperands o); [by rewrite Hnil|done].
        -- intros Hd. unfold fifo. rewrite setOperands_operands, (Hhead Hd).
           by rewrite Hc, clone_operands.
      * eapply Forall_impl; [exact Hrec|]. intros x. apply inserted_ok_cons.
Qed.

Lemma duplicateBlock_from_spec n : forall i fresh operations dependencies base step inLoop ins fresh',
  duplicateBlock_from n i fresh operations dependencies base step inLoop
    = Ok (ins, fresh') ->
  Forall (inserted_ok operations dependencies) ins.
Proof.
  induction n as [|n IH];
    intros i fresh operations dependencies base step inLoop ins fresh'; simpl.
  - intros [= <- <-]. constructor.
  - destruct (duplicateRound _ _ _ _ _ _) as [[ins1 fresh1]|] eqn:Hround;
      simpl; [|done].
    destruct (duplicateBlock_from _ _ _ _ _ _ _ _) as [[ins2 fresh2]|] eqn:Hrec;
      simpl; [|done].
    intros [= <- <-]. apply Forall_app. split.
    + by eapply duplicateRound_spec.
    + by eapply IH.
Qed.

End Clones.

Section UnrollNames.
Variable isBlockArgument : Value -> bool.
Variable sf : gmap Value (list ObjectFifoCreateOp).
Variable defs : gmap Value ObjectFifoCreateOp.
Variable tile : Value.

Lemma replaceUsesOfWith_results o from to :
  getResults (replaceUsesOfWith o from to) = getResults o.
Proof. by destruct o. Qed.

Lemma replaceUsesOfWith_fifo_cases o from to :
  fifo (replaceUsesOfWith o from to) = fifo o \/
  fifo (replaceUsesOfWith o from to) = Some to.
Proof.
  destruct o as [k [|v vs] rs rg]; unfold fifo; simpl; [by left|].
  case_bool_decide; [by right|by left].
Qed.

Lemma substitute_results parentFifo children : forall o,
  getResults (substitute parentFifo tile o children) = getResults o.
Proof.
  unfold substitute.
  induction children as [|ch children IH]; intros o; simpl; [done|].
  rewrite IH. case_bool_decide; [apply replaceUsesOfWith_results|done].
Qed.

Lemma substitute_fifo_cases parentFifo children : forall o,
  fifo (substitute parentFifo tile o children) = fifo o \/
  exists ch, ch ∈ children /\
             fifo (substitute parentFifo tile o children) = Some (fifo_result ch).
Proof.
  unfold substitute.
  induction children as [|ch children IH]; intros o; simpl; [by left|].
  set (o1 := if bool_decide (producerTile ch = tile)
             then replaceUsesOfWith o parentFifo (fifo_result ch) else o).
  assert (fifo o1 = fifo o \/ fifo o1 = Some (fifo_result ch)) as Ho1.
  { subst o1. case_bool_decide; [apply replaceUsesOfWith_fifo_cases|by left]. }
  destruct (IH o1) as [Heq|(ch' & Hin & Heq)].
  - rewrite Heq. destruct Ho1 as [ -> | -> ]; [by left|right].
    exists ch. split; [apply list_elem_of_here|done].
  - right. exists ch'. split; [by apply list_elem_of_further|done].
Qed.

Lemma checkSplitFifo_cases o o' :
  checkSplitFifo sf o tile = Ok o' ->
  op_kind o' = op_kind o /\ getResults o' = getResults o /\
  (fifo o' = fifo o \/
   exists parentFifo children ch,
     fifo o = Some parentFifo /\ sf !! parentFifo = Some children /\
     ch ∈ children /\ fifo o' = Some (fifo_result ch)).
Proof.
  unfold checkSplitFifo.
  destruct (isAcquire o || isRelease o); [|done].
  destruct (fifo o) as [p|] eqn:Hf; [|intros [= <-]; auto].
  destruct (sf !! p) as [children|] eqn:Hsf; [|intros [= <-]; rewrite Hf; auto].
  case_bool_decide; [|intros [= <-]; rewrite Hf; auto].
  intros [= <-]. fold (substitute p tile o children).
  split; [apply substitute_kind|]. split; [apply substitute_results|].
  destruct (substitute_fifo_cases p children o) as [Heq|(ch & Hin & Heq)];
    rewrite Heq; [by left|right].
  by exists p, children, ch.
Qed.

(** The loop over the acquires of the body calls [checkSplitFifo] on the
    acquires and leaves every other operation, the releases among them, as
    it is. *)
Lemma acquirePrepass_spec body : forall sizes found body' sizes' found',
  acquirePrepass sf defs tile body sizes found = Ok (body', sizes', found') ->
  Forall2 (fun o o' => if isAcquire o then checkSplitFifo sf o tile = Ok o'
                       else o' = o) body body'.
Proof.
  induction body as [|o body IH]; intros sizes found body' sizes' found'; simpl.
  - intros [= <- <- <-]. constructor.
  - destruct (isAcquire o) eqn:Hacq.
    + destruct (checkSplitFifo sf o tile) as [o1|] eqn:Hcheck; simpl; [|done].
      destruct (fifo o1 ≫= _) as [op|]; [|done].
      destruct (acquirePrepass _ _ _ body _ _) as [[[rest sz] fd]|] eqn:Hrec;
        simpl; [|done].
      intros [= <- <- <-]. constructor; [by rewrite Hacq|by eapply IH].
    + destruct (acquirePrepass _ _ _ body _ _) as [[[rest sz] fd]|] eqn:Hrec;
        simpl; [|done].
      intros [= <- <- <-]. constructor; [by rewrite Hacq|by eapply IH].
Qed.

Lemma definedAt_results body body' v :
  Forall2 (fun o o' => getResults o' = getResults o) body body' ->
  definedAt body' v = definedAt body v.
Proof.
  induction 1 as [|o o' body body' Hres _ IH]; simpl; [done|].
  by rewrite Hres, IH.
Qed.

End UnrollNames.

Section UnrollProvenance.
Variable isBlockArgument : Value -> bool.
Variable sf : gmap Value (list ObjectFifoCreateOp).
Variable defs : gmap Value ObjectFifoCreateOp.
Variable tile : Value.

Lemma duplicateBlock_spec fresh n operations dependencies base step inLoop ins fresh' :
  duplicateBlock fresh n operations dependencies base step inLoop = Ok (ins, fresh') ->
  Forall (inserted_ok operations dependencies) ins.
Proof. apply duplicateBlock_from_spec. Qed.

(** Every operation of the result is an operation of the body after the
    loop over its acquires, or was inserted by [duplicateBlock] from that
    body. *)
Lemma unrollOne_ops constants fresh forLoop u :
  unrollOne isBlockArgument sf defs tile constants fresh forLoop = Ok (Some u) ->
  exists body' rows,
    Forall2 (fun o o' => if isAcquire o then checkSplitFifo sf o tile = Ok o'
                         else o' = o) (getBody forLoop) body' /\
    identifyDependencies isBlockArgument (withBody forLoop body') = Ok rows /\
    forall c, c ∈ result_ops u -> c ∈ body' \/ inserted_ok body' rows c.
Proof.
  unfold unrollOne.
  destruct (acquirePrepass sf defs tile (getBody forLoop) [] false)
    as [[[body' sizes] found]|] eqn:Hpre; simpl; [|done].
  destruct (computeLCM sizes) as [uf|]; simpl; [|done].
  destruct found; simpl; [|done].
  destruct (constants !! getUpperBound forLoop) as [ub|]; [|done].
  destruct (constants !! getLowerBound forLoop) as [lb|]; [|done].
  destruct (constants !! getStep forLoop) as [st|]; [|done].
  destruct (cdiv _ st) as [num_iter|]; simpl; [|done].
  fold (withBody forLoop body').
  destruct (identifyDependencies _ _) as [rows|] eqn:Hrows; simpl; [|done].
  apply acquirePrepass_spec in Hpre.
  destruct (num_iter <=? uf).
  - destruct (duplicateBlock _ _ _ _ _ _ _) as [[after fresh']|] eqn:Hdup;
      simpl; [|done].
    intros [= <-]. exists body', rows. split; [done|]. split; [done|].
    unfold result_ops. simpl. intros c Hc. right.
    apply duplicateBlock_spec in Hdup.
    by apply (proj1 (Forall_forall _ _) Hdup).
  - destruct (crem _ _) as [r|]; simpl; [|done].
    destruct (cdiv r st) as [remainder|]; simpl; [|done].
    destruct (if 0 <? remainder then _ else _)
      as [[[[before1 upper] constants1] fresh1]|]; simpl; [|done].
    destruct (duplicateBlock (S fresh1) _ _ _ _ _ _) as [[inside fresh2]|] eqn:Hin;
      simpl; [|done].
    destruct (duplicateBlock fresh2 _ _ _ _ _ _) as [[after fresh3]|] eqn:Haft;
      simpl; [|done].
    intros [= <-]. exists body', rows. split; [done|]. split; [done|].
    unfold result_ops. simpl. intros c Hc.
    apply duplicateBlock_spec in Hin, Haft.
    apply elem_of_app in Hc as [Hc|Hc]; [apply elem_of_app in Hc as [Hc|Hc]|].
    + by left.
    + right. by apply (proj1 (Forall_forall _ _) Hin).
    + right. by apply (proj1 (Forall_forall _ _) Haft).
Qed.

End UnrollProvenance.

Lemma prepass_external (ext : Value -> Prop) sf tile ops : forall body',
  Forall (fun o => isAcquire o || isRelease o = true ->
                   forall v, fifo o = Some v -> ext v) ops ->
  (forall p chs ch, sf !! p = Some chs -> ch ∈ chs -> ext (fifo_result ch)) ->
  Forall2 (fun o o' => if isAcquire o then checkSplitFifo sf o tile = Ok o'
                       else o' = o) ops body' ->
  Forall2 (fun o o' => op_kind o' = op_kind o /\ getResults o' = getResults o /\
                       (isAcquire o || isRelease o = true ->
                        forall v, fifo o' = Some v -> ext v) /\
                       (isAcquire o = true -> checkSplitFifo sf o tile = Ok o') /\
                       (isAcquire o = false -> o' = o))
          ops body'.
Proof.
  induction ops as [|o ops IH]; intros body' Hself Hsf Hpre;
    inversion Hpre as [|? o' ? body'' Ho Hrest]; subst; constructor.
  - apply Forall_cons in Hself as [Hbody _].
    destruct (isAcquire o) eqn:Hacq.
    + destruct (checkSplitFifo_cases sf tile o o' Ho)
        as (Hk & Hr & [Hf|(p & chs & ch & Hfo & Hp & Hin & Hf)]).
      * repeat split; try done. intros _ v Hv. rewrite Hf in Hv. by apply Hbody.
      * repeat split; try done. intros _ v Hv. rewrite Hf in Hv.
        injection Hv as <-. by eapply Hsf.
    + subst o'. repeat split; try done.
  - apply IH; [|done|done]. by apply Forall_cons in Hself as [_ ?].
Qed.

(** C9 (as amended).  When a loop is unrolled, an acquire of the consumer
    port in its body that names a split fifo with a consumer fifo on the
    tile of the core names that consumer fifo before the body is cloned:
    no acquire of the consumer port in the unrolled loop or in its
    remainder names the split fifo, and each acquire there names what
    [checkSplitFifo] made of an acquire of the body.  The unroller does not
    touch the releases: each release of the result names the fifo that a
    release of the original body names. *)
Theorem unroll_rewrites_consume_acquires
        isBlockArgument sf defs tile constants fresh forLoop u q children :
  unrollOne isBlockArgument sf defs tile constants fresh forLoop = Ok (Some u) ->
  (forall o v, o ∈ getBody forLoop -> isAcquire o || isRelease o = true ->
               fifo o = Some v -> external isBlockArgument forLoop v) ->
  (forall p chs ch, sf !! p = Some chs -> ch ∈ chs ->
                    external isBlockArgument forLoop (fifo_result ch) /\
                    fifo_result ch <> fifo_result q) ->
  sf !! fifo_result q = Some children ->
  (exists ch, ch ∈ children /\ producerTile ch = tile) ->
  (forall c, c ∈ result_ops u -> isAcquire c = true -> port c = Some Consume ->
             fifo c <> Some (fifo_result q)) /\
  (forall c, c ∈ result_ops u -> isAcquire c = true ->
             exists o o', o ∈ getBody forLoop /\ checkSplitFifo sf o tile = Ok o' /\
                          op_kind c = op_kind o /\ fifo c = fifo o') /\
  (forall c, c ∈ result_ops u -> isRelease c = true ->
             exists o, o ∈ getBody forLoop /\ op_kind c = op_kind o /\
                       fifo c = fifo o).
Proof.
  intros Hun Hbody Hsf Hq Hch.
  destruct (unrollOne_ops _ _ _ _ _ _ _ _ Hun) as (body' & rows & Hpre & Hrows & Hops).
  (* every operation of [body'] names an external value *)
  assert (Forall2 (fun o o' => op_kind o' = op_kind o /\ getResults o' = getResults o /\
                     (isAcquire o || isRelease o = true ->
                      forall v, fifo o' = Some v -> external isBlockArgument forLoop v) /\
                     (isAcquire o = true -> checkSplitFifo sf o tile = Ok o') /\
                     (isAcquire o = false -> o' = o))
                  (getBody forLoop) body') as Hpre'.
  { apply prepass_external; [|by intros p chs ch Hp Hin; eapply Hsf|done].
    apply Forall_forall. intros o Ho Hk v Hv. by eapply Hbody. }
  assert (forall v, external isBlockArgument forLoop v ->
                    external isBlockArgument (withBody forLoop body') v) as Hext.
  { intros v (Hiv & Hba & Hdef). split; [done|]. split; [done|]. simpl.
    rewrite <- Hdef. apply definedAt_results.
    eapply Forall2_impl; [exact Hpre'|]. by intros ? ? (_ & ? & _). }
  apply identifyDependencies_external in Hrows. simpl in Hrows.
  (* where an acquire or release of the result comes from *)
  assert (forall c, c ∈ result_ops u -> isAcquire c || isRelease c = true ->
            exists o o', o ∈ getBody forLoop /\ op_kind o' = op_kind o /\
                         op_kind c = op_kind o /\ fifo c = fifo o' /\
                         (isAcquire o = true -> checkSplitFifo sf o tile = Ok o') /\
                         (isAcquire o = false -> o' = o)) as Hfrom.
  { intros c Hc Hk.
    assert (exists k o', body' !! k = Some o' /\ op_kind c = op_kind o' /\
                         fifo c = fifo o') as (k & o' & Hk' & Hkind & Hfifo).
    { destruct (Hops c Hc) as [Hin|[Har|(k & o' & deps & Ho' & Hd & Hkd & Hnone & Hhead)]].
      - apply list_elem_of_lookup in Hin as [k Hk']. by exists k, c.
      - unfold isArith in Har. unfold isAcquire, isRelease in Hk.
        destruct (op_kind c); done.
      - exists k, o'. split; [done|]. split; [done|].
        destruct (fifo o') as [v|] eqn:Hv; [|by apply Hnone].
        apply Hhead.
        apply (Forall2_lookup_lr _ _ _ _ _ _ Hrows Ho' Hd v Hv), Hext.
        destruct (Forall2_lookup_r _ _ _ _ _ Hpre' Ho') as (o & _ & Hko & _ & Hx & _).
        apply Hx; [|done].
        unfold isAcquire, isRelease in *. by rewrite <- Hko, <- Hkd. }
    destruct (Forall2_lookup_r _ _ _ _ _ Hpre' Hk') as (o & Ho & Hko & _ & _ & Ha & Hna).
    exists o, o'. split; [by eapply list_elem_of_lookup_2|].
    split; [done|]. split; [congruence|]. by split. }
  split; [|split].
  - intros c Hc Hacq Hport Hname.
    destruct (Hfrom c Hc) as (o & o' & Hin & Hko & Hkc & Hf & Ha & _);
      [by rewrite Hacq|].
    assert (isAcquire o = true) as Hao by (unfold isAcquire in *; by rewrite <- Hkc).
    assert (port o = Some Consume) as Hpo by (unfold port in *; by rewrite <- Hkc).
    specialize (Ha Hao).
    destruct (checkSplitFifo_cases sf tile o o' Ha)
      as (_ & _ & [Hsame|(p & chs & ch & Hfo & Hp & Hin' & Hch')]).
    + assert (fifo o = Some (fifo_result q)) as Hfo by congruence.
      destruct (checkSplitFifo_consume sf o q children tile)
        as (o'' & ch & Ho'' & _ & _ & _ & _ & Hne); try done.
      * by rewrite Hao.
      * intros ch Hin'. by eapply Hsf.
      * rewrite Ha in Ho''. injection Ho'' as <-. congruence.
    + destruct (Hsf p chs ch Hp Hin') as [_ Hne]. congruence.
  - intros c Hc Hacq.
    destruct (Hfrom c Hc) as (o & o' & Hin & Hko & Hkc & Hf & Ha & _);
      [by rewrite Hacq|].
    assert (isAcquire o = true) as Hao by (unfold isAcquire in *; by rewrite <- Hkc).
    exists o, o'. by repeat split; auto.
  - intros c Hc Hrel.
    destruct (Hfrom c Hc) as (o & o' & Hin & Hko & Hkc & Hf & _ & Hna);
      [by rewrite Hrel, orb_true_r|].
    assert (isAcquire o = false) as Hao.
    { unfold isAcquire, isRelease in *. rewrite <- Hkc. by destruct (op_kind c). }
    rewrite (Hna Hao) in Hf. by exists o.
Qed.

Lemma splitFifos_createdFar :
  splitFifos (cr_state createdFar) = {[ 10%nat := cr_children createdFar ]}.
Proof. vm_compute. reflexivity. Qed.

Lemma unroll_rewrites_consume_acquires_witness :
  (forall c, c ∈ result_ops unrolledFar -> isAcquire c = true ->
             port c = Some Consume -> fifo c <> Some (fifo_result fifoFar)) /\
  (forall c, c ∈ result_ops unrolledFar -> isAcquire c = true ->
             exists o o', o ∈ getBody loopFar /\
                          checkSplitFifo (splitFifos (cr_state createdFar)) o
                                         (tile_result tile33) = Ok o' /\
                          op_kind c = op_kind o /\ fifo c = fifo o') /\
  (forall c, c ∈ result_ops unrolledFar -> isRelease c = true ->
             exists o, o ∈ getBody loopFar /\ op_kind c = op_kind o /\
                       fifo c = fifo o).
Proof.
  apply (unroll_rewrites_consume_acquires blockArgsFar
           (splitFifos (cr_state createdFar)) defsFar (tile_result tile33)
           constantsFar 200%nat loopFar unrolledFar fifoFar
           (cr_children createdFar)).
  - vm_compute. reflexivity.
  - intros o v Ho Hk Hf. simpl in Ho.
    repeat (apply elem_of_cons in Ho as [->|Ho]);
      [| discriminate Hk | | by apply elem_of_nil in Ho];
      injection Hf as <-; vm_compute; repeat split; intros H; discriminate H.
  - intros p chs ch Hp Hin. rewrite splitFifos_createdFar in Hp.
    apply lookup_singleton_Some in Hp as [<- <-].
    change (cr_children createdFar) with
      [ {| fifo_result := 100%nat; getProducerTileOp := tile33;
           consumerTiles := [tile33]; elemNumber := 2; elemShape := [16] |} ] in Hin.
    apply list_elem_of_singleton in Hin as ->.
    vm_compute. repeat split; intros H; discriminate H.
  - rewrite splitFifos_createdFar. apply lookup_singleton_eq.
  - exists {| fifo_result := 100%nat; getProducerTileOp := tile33;
              consumerTiles := [tile33]; elemNumber := 2; elemShape := [16] |}.
    split; [|reflexivity].
    change (cr_children createdFar) with
      [ {| fifo_result := 100%nat; getProducerTileOp := tile33;
           consumerTiles := [tile33]; elemNumber := 2; elemShape := [16] |} ].
    apply list_elem_of_here.
Defined.

(** C9 as stated fails on [loopFar], in the core of the consumer tile of
    the split fifo 10: after the unrolling the release of the body and its
    clone (positions 2 and 7 of the unrolled body) still name fifo 10, while
    the acquire and its clone (positions 0 and 3) name the consumer fifo
    100. *)
Lemma unroll_release_counterexample :
  unrollOne blockArgsFar (splitFifos (cr_state createdFar)) defsFar
            (tile_result tile33) constantsFar 200%nat loopFar
    = Ok (Some unrolledFar) /\
  splitFifos (cr_state createdFar) !! 10%nat
    = Some [ {| fifo_result := 100%nat; getProducerTileOp := tile33;
                consumerTiles := [tile33]; elemNumber := 2; elemShape := [16] |} ] /\
  result_ops unrolledFar !! 0%nat = Some (acquireOp Consume 100%nat 1 20%nat) /\
  result_ops unrolledFar !! 2%nat = Some (releaseOp Consume 10%nat 1) /\
  result_ops unrolledFar !! 3%nat = Some (acquireOp Consume 100%nat 1 201%nat) /\
  result_ops unrolledFar !! 7%nat = Some (releaseOp Consume 10%nat 1).
Proof. repeat split; vm_compute; reflexivity. Qed.

(** ** Loop unrolling: bounds *)

(** The example of the specification: [loopDeep] over [0, 6) by 1, with a
    fifo of depth 3.  The loop keeps its bounds and gets step 3, its body
    holds the original and two clones, nothing follows the loop, and the
    induction variable and its two offsets go through 0, 1, 2 and then
    3, 4, 5. *)
Example unroll_zero_to_six :
  exists u l,
    unrolledDeep 0 6 1 = Ok (Some u) /\
    un_unrollFactor u = 3 /\ un_remainder u = 0 /\
    un_loop u = Some l /\
    un_constants u !! getLowerBound l = Some 0 /\
    un_constants u !! getUpperBound l = Some 6 /\
    un_constants u !! getStep l = Some 3 /\
    length (filter (fun o => isAcquire o = true) (getBody l)) = 3%nat /\
    un_after u = [] /\
    runUnrolled 10 (unrolledDeep 0 6 1) = ([[0; 1; 2]; [3; 4; 5]], []).
Proof.
  eexists _, _. split; [vm_compute; reflexivity|].
  repeat split; vm_compute; reflexivity.
Qed.

(** C5, where the code departs from it: [loopDeep] over [-10, 0) by 1, with
    a fifo of depth 3.  The trip count 10 exceeds the unroll factor 3; the
    step becomes 3, two clones join the body, and the remainder is 1 clone
    whose induction value is the new upper bound plus 0, as the claim
    says.  The new upper bound is [((0 - (-10)) / 3) * 3 = 9]: the lower
    bound is not added back, so the upper bound rises from 0 to 9 instead
    of shrinking, and the loop runs seven times (to induction value 10)
    where nine of the ten iterations of the original loop were due. *)
Theorem partial_unroll_ignores_lower_bound :
  exists u l,
    unrolledDeep (-10) 0 1 = Ok (Some u) /\
    un_unrollFactor u = 3 /\ un_remainder u = 1 /\
    un_loop u = Some l /\
    un_constants u !! getLowerBound l = Some (-10) /\
    un_constants u !! getStep l = Some 3 /\
    un_constants u !! getUpperBound l = Some 9 /\
    0 < 9 /\
    runUnrolled 10 (unrolledDeep (-10) 0 1)
    = ([[-10; -9; -8]; [-7; -6; -5]; [-4; -3; -2]; [-1; 0; 1];
        [2; 3; 4]; [5; 6; 7]; [8; 9; 10]], [9]).
Proof.
  eexists _, _. split; [vm_compute; reflexivity|].
  repeat split; vm_compute; reflexivity.
Qed.

(** The same with a positive lower bound: over [20, 30) the new upper
    bound is 9 again, the loop does not run at all, and the remainder runs
    once with induction value 9. *)
Example partial_unroll_from_twenty :
  runUnrolled 10 (unrolledDeep 20 30 1) = ([], [9]).
Proof. vm_compute. reflexivity. Qed.

(** ** Acquire and release resolution *)

(** C2, where the code departs from it.  In [coreAB] the acquire at index 4
    follows a release of fifo 13 (index 2) and a release of fifo 14 (index
    3), in that order in [releaseOps].  Resolving the acquire of fifo 14
    counts the release of fifo 14 and erases the first entry of the vector,
    the release of fifo 13: the release of fifo 14 stays pending.  The
    acquire at index 5 counts it a second time (the core then holds
    elements 2 and 0 where it holds 1 and 2), and the acquire of fifo 13 at
    index 6 finds no release of fifo 13 and keeps element 0 as held. *)
Theorem acquire_erases_first_release :
  releaseOps <$> resolveAB 4 =
    Ok [ (InRegion (InModule 0) 0 2, releaseOp Consume 13%nat 1);
         (InRegion (InModule 0) 0 3, releaseOp Consume 14%nat 1) ] /\
  (fun st => acquiresPerFifo st !! 14%nat) <$> resolveAB 4 = Ok (Some [0; 1]) /\
  releaseOps <$> resolveAB 5 =
    Ok [ (InRegion (InModule 0) 0 3, releaseOp Consume 14%nat 1) ] /\
  (fun st => acquiresPerFifo st !! 14%nat) <$> resolveAB 5 = Ok (Some [1; 2]) /\
  releaseOps <$> resolveAB 6 = Ok [] /\
  (fun st => acquiresPerFifo st !! 14%nat) <$> resolveAB 6 = Ok (Some [2; 0]) /\
  (fun st => acquiresPerFifo st !! 13%nat) <$> resolveAB 7 = Ok (Some [0]) /\
  (fun st => length (filter (fun u => bool_decide (ul_action u = Acquire))
                            (useLocks st))) <$> resolveAB 7 = Ok 5%nat.
Proof. repeat split; vm_compute; reflexivity. Qed.

Section ReleaseCheck.
Variable sf : gmap Value (list ObjectFifoCreateOp).
Variable defs : gmap Value ObjectFifoCreateOp.
Variable buffers : gmap Value (list BufferOp).
Variable locks : gmap Value (list LockAnalysis.LockOp).
Variable tile : Value.

(** With elements held, the assertion of line 867 guards the count of the
    pending releases. *)
Lemma replaceAcquire_checks_when_holding st l acquireOp acquireOp' op
      storage size numRel held :
  checkSplitFifo sf acquireOp tile = Ok acquireOp' ->
  checkCorrectPort defs acquireOp' (parentsIn tile l) = Ok tt ->
  fifo acquireOp' ≫= (defs !!.) = Some op ->
  countReleases (length (releaseOps st)) 0 l acquireOp' (releaseOps st)
                (length (releaseOps st)) 0 = Ok (storage, size, numRel) ->
  acquiresPerFifo st !! fifo_result op = Some held ->
  held <> [] ->
  Z.of_nat (length held) < numRel ->
  replaceAcquire sf defs buffers locks tile st l acquireOp
    = Fatal ReleaseMoreThanAcquired.
Proof.
  intros Hsplit Hport Hop Hcount Hheld Hne Hlt.
  unfold replaceAcquire. rewrite Hsplit. simpl. rewrite Hport. simpl.
  rewrite Hop. destruct (updateAndReturnIndex _ _) as [start acq1].
  rewrite Hcount. simpl. rewrite Hheld. simpl.
  destruct held as [|h held]; [done|]. simpl.
  destruct (Z.leb_spec 0 numRel); simpl; [|done].
  destruct (Z.leb_spec numRel (Z.of_nat (S (length held)))); simpl; [|done].
  simpl in Hlt. lia.
Qed.

End ReleaseCheck.

(** C8, where the code departs from it.  [coreEarlyRelease] releases an
    element of fifo 13 before it acquires any.  When the acquire is
    resolved one pending release is counted ([numRel = 1]) and the core
    holds nothing of the fifo; the assertion of line 867 stands under
    [if (acquiresPerFifo[op].size() != 0)] and is not evaluated, and the
    walks end normally with element 0 acquired. *)
Theorem release_without_acquire_is_accepted :
  (exists st0,
     walkWith (replaceRelease (splitFifos stateAB) defsAB (locksPerFifo stateAB)
                              (tile_result tile13))
              isRelease emptyCoreState (walkCoreAt 0 coreEarlyRelease) = Ok st0 /\
     acquiresPerFifo st0 !! 13%nat = None /\
     countReleases (length (releaseOps st0)) 0 (InRegion (InModule 0) 0 1)
                   (acquireOp Consume 13%nat 1 51%nat) (releaseOps st0)
                   (length (releaseOps st0)) 0
     = Ok ([(InRegion (InModule 0) 0 0, releaseOp Consume 13%nat 1)], 0%nat, 1)) /\
  is_fatal resolveEarlyRelease = false /\
  (fun st => acquiresPerFifo st !! 13%nat) <$> resolveEarlyRelease = Ok (Some [0]).
Proof.
  split.
  - eexists. split; [vm_compute; reflexivity|].
    split; vm_compute; reflexivity.
  - split; vm_compute; reflexivity.
Qed.

(** ** Tile DMAs: the ring of Bd blocks *)

Section Ring.
Variable lockMode : Z.
Variable buffers : list BufferOp.
Variable locks : list LockAnalysis.LockOp.

Lemma createBlock_before e new pre eops post :
  Forall (fun b => blk_id b <> e) pre ->
  createBlock e new (pre ++ mkMemBlock e eops :: post)
  = pre ++ mkMemBlock new [] :: mkMemBlock e eops :: post.
Proof.
  induction pre as [|b pre IH]; intros Hpre; simpl.
  - by rewrite bool_decide_eq_true_2.
  - apply Forall_cons in Hpre as [Hb Hpre].
    rewrite bool_decide_eq_false_2 by done. by rewrite IH.
Qed.

Lemma insertAtStart_miss c ops body :
  Forall (fun b => blk_id b <> c) body -> insertAtStart c ops body = body.
Proof.
  unfold insertAtStart. induction 1 as [|b body Hb _ IH]; simpl; [done|].
  rewrite bool_decide_eq_false_2 by done. by rewrite IH.
Qed.

Lemma insertAtStart_hit c ops pre ops0 post :
  Forall (fun b => blk_id b <> c) pre ->
  Forall (fun b => blk_id b <> c) post ->
  insertAtStart c ops (pre ++ mkMemBlock c ops0 :: post)
  = pre ++ mkMemBlock c (ops ++ ops0) :: post.
Proof.
  intros Hpre Hpost. unfold insertAtStart. rewrite map_app. simpl.
  rewrite bool_decide_eq_true_2 by done.
  fold (insertAtStart c ops pre). fold (insertAtStart c ops post).
  by rewrite !insertAtStart_miss.
Qed.

Lemma ring_cons_from base D idx n :
  omap (bdBlockAt lockMode buffers locks base D) (seq idx (S n))
  = match bdBlockAt lockMode buffers locks base D idx with
    | Some b => b :: omap (bdBlockAt lockMode buffers locks base D) (seq (S idx) n)
    | None => omap (bdBlockAt lockMode buffers locks base D) (seq (S idx) n)
    end.
Proof. reflexivity. Qed.

(** The loop of [createBdBlocks] from block [idx] on, [curr] being the
    empty block [base + idx] in front of the end block. *)
Lemma createBdBlocks_spec n : forall idx pre0 D base e eops,
  (idx + S n = D)%nat ->
  (e < base)%nat ->
  Forall (fun b => (blk_id b < base + idx)%nat /\ blk_id b <> e) pre0 ->
  (forall i, (idx <= i < D)%nat -> is_Some (buffers !! i) /\ is_Some (locks !! i)) ->
  createBdBlocks (S n) idx lockMode buffers locks e base (base + idx)%nat
                 (S (base + idx)%nat)
                 (pre0 ++ [mkMemBlock (base + idx)%nat []; mkMemBlock e eops])
  = Ok (pre0 ++ omap (bdBlockAt lockMode buffers locks base D) (seq idx (S n))
             ++ [mkMemBlock e eops],
        (base + D)%nat).
Proof.
  induction n as [|n IH]; intros idx pre0 D base e eops HD He Hpre Hlook.
  - (* the last block branches to the first one *)
    simpl createBdBlocks.
    destruct (Hlook idx) as [[buff Hb] [lock Hl]]; [lia|].
    rewrite Hb, Hl. rewrite ring_cons_from. unfold bdBlockAt at 1.
    rewrite Hb, Hl. simpl.
    rewrite insertAtStart_hit.
    + replace ((idx + 1) mod D)%nat with 0%nat.
      2:{ replace (idx + 1)%nat with D by lia. by rewrite Nat.Div0.mod_same. }
      rewrite Nat.add_0_r. do 2 f_equal. lia.
    + eapply Forall_impl; [exact Hpre|]. intros b [? _]. lia.
    + repeat constructor. simpl. lia.
  - destruct (Hlook idx) as [[buff Hb] [lock Hl]]; [lia|].
    set (filled := mkMemBlock (base + idx)%nat
                     (createBdBlock lockMode buff lock (S (base + idx)%nat))).
    assert (createBdBlocks (S (S n)) idx lockMode buffers locks e base
              (base + idx)%nat (S (base + idx)%nat)
              (pre0 ++ [mkMemBlock (base + idx)%nat []; mkMemBlock e eops])
            = createBdBlocks (S n) (S idx) lockMode buffers locks e base
                (base + S idx)%nat (S (base + S idx)%nat)
                ((pre0 ++ [filled])
                   ++ [mkMemBlock (base + S idx)%nat []; mkMemBlock e eops]))
      as Hstep.
    { cbn [createBdBlocks]. rewrite Hb, Hl.
      replace (pre0 ++ [mkMemBlock (base + idx)%nat []; mkMemBlock e eops])
        with ((pre0 ++ [mkMemBlock (base + idx)%nat []]) ++ mkMemBlock e eops :: [])
        by (by rewrite <- app_assoc).
      rewrite createBlock_before.
      2:{ apply Forall_app. split.
          - eapply Forall_impl; [exact Hpre|]. by intros b [_ ?].
          - repeat constructor. simpl. lia. }
      rewrite <- app_assoc. cbn [app].
      rewrite insertAtStart_hit.
      2:{ eapply Forall_impl; [exact Hpre|]. intros b [? _]. lia. }
      2:{ repeat constructor; simpl; lia. }
      rewrite app_nil_r, <- app_assoc. cbn [app]. subst filled.
      replace (base + S idx)%nat with (S (base + idx)%nat) by lia. reflexivity. }
    rewrite Hstep, (IH (S idx) _ D base e eops); try done; try lia.
    + rewrite (ring_cons_from base D idx (S n)). unfold bdBlockAt at 2.
      rewrite Hb, Hl. cbn [mbind option_bind].
      rewrite <- app_assoc. cbn [app]. subst filled. unfold createBdBlock.
      replace (base + (idx + 1) mod D)%nat with (S (base + idx)%nat); [done|].
      rewrite Nat.mod_small by lia. lia.
    + apply Forall_app. split.
      * eapply Forall_impl; [exact Hpre|]. intros b [? ?]. split; [lia|done].
      * repeat constructor; simpl; lia.
    + intros i Hi. apply Hlook. lia.
Qed.

End Ring.

Section Chain.
Variable lockMode : Z.
Variable buffers : list BufferOp.
Variable locks : list LockAnalysis.LockOp.

Lemma mapM_app {A B : Type} (f : A -> result B) l1 l2 :
  mapM f (l1 ++ l2) = (l1' ← mapM f l1; l2' ← mapM f l2; mret (l1' ++ l2')).
Proof.
  induction l1 as [|a l1 IH]; simpl.
  - by destruct (mapM f l2).
  - destruct (f a) as [b|]; simpl; [|done]. rewrite IH.
    destruct (mapM f l1); simpl; [|done]. by destruct (mapM f l2).
Qed.

Lemma mapM_id {A : Type} (f : A -> result A) l :
  Forall (fun a => f a = Ok a) l -> mapM f l = Ok l.
Proof.
  induction 1 as [|a l Ha _ IH]; simpl; [done|]. by rewrite Ha, IH.
Qed.

Lemma setSuccessor1_miss l s body :
  Forall (fun b => blk_id b <> l) body -> setSuccessor1 l s body = Ok body.
Proof.
  intros Hb. apply mapM_id. eapply Forall_impl; [exact Hb|].
  intros b Hne. simpl. by rewrite bool_decide_eq_false_2.
Qed.

Lemma setSuccessor1_hit l s pre lops channel dest chain post :
  Forall (fun b => blk_id b <> l) pre ->
  Forall (fun b => blk_id b <> l) post ->
  setSuccessor1 l s (pre ++ mkMemBlock l (lops ++ [DMAStart channel dest chain]) :: post)
  = Ok (pre ++ mkMemBlock l (lops ++ [DMAStart channel dest s]) :: post).
Proof.
  intros Hpre Hpost. unfold setSuccessor1. rewrite mapM_app.
  fold (setSuccessor1 l s pre). rewrite setSuccessor1_miss by done.
  simpl. rewrite bool_decide_eq_true_2 by done.
  rewrite last_snoc, removelast_last. simpl.
  fold (setSuccessor1 l s post). by rewrite setSuccessor1_miss.
Qed.

Lemma findEndOpBlock_last old e eops :
  EndOp ∈ eops -> findEndOpBlock (old ++ [mkMemBlock e eops]) = Some e.
Proof.
  intros He. unfold findEndOpBlock. rewrite foldl_app. simpl.
  by rewrite bool_decide_eq_true_2.
Qed.

Lemma edgesTo_app body1 body2 target :
  edgesTo (body1 ++ body2) target = edgesTo body1 target ++ edgesTo body2 target.
Proof. unfold edgesTo. apply flat_map_app. Qed.

Lemma edgesTo_none body target :
  Forall (fun b => target ∉ successors b) body -> edgesTo body target = [].
Proof.
  unfold edgesTo.
  induction 1 as [|b body Hb _ IH]; cbn [flat_map]; [done|].
  rewrite IH, app_nil_r.
  induction (successors b) as [|s ss IHs]; [done|].
  apply not_elem_of_cons in Hb as [Hne Hb].
  rewrite filter_cons_False by done. by apply IHs.
Qed.

Lemma getSinglePredecessor_new e :
  getSinglePredecessor [mkMemBlock e [EndOp]] e = None.
Proof. reflexivity. Qed.

Lemma getSinglePredecessor_last body e l :
  lastChainOf body e l -> getSinglePredecessor body e = Some l.
Proof.
  intros (pre & lops & channel & dest & post & -> & Hd & Hothers).
  apply Forall_app in Hothers as [Hpre Hpost].
  unfold getSinglePredecessor. fold (edgesTo (pre ++ mkMemBlock l (lops ++ [DMAStart channel dest e])
                                       :: post ++ [mkMemBlock e [EndOp]]) e).
  rewrite edgesTo_app. rewrite edgesTo_none.
  2:{ eapply Forall_impl; [exact Hpre|]. by intros b [_ ?]. }
  change (mkMemBlock l (lops ++ [DMAStart channel dest e]) :: post ++ [mkMemBlock e [EndOp]])
    with ([mkMemBlock l (lops ++ [DMAStart channel dest e])] ++ post ++ [mkMemBlock e [EndOp]]).
  rewrite !edgesTo_app. rewrite (edgesTo_none post).
  2:{ eapply Forall_impl; [exact Hpost|]. by intros b [_ ?]. }
  unfold edgesTo. simpl. unfold successors. simpl. rewrite last_snoc. simpl.
  rewrite filter_cons_False by done. rewrite filter_cons_True by done.
  by rewrite filter_nil.
Qed.

Lemma edgesTo_in body target l :
  l ∈ edgesTo body target -> exists b, b ∈ body /\ blk_id b = l.
Proof.
  unfold edgesTo. rewrite list_elem_of_In, in_flat_map.
  intros (b & Hb & Hl). apply in_map_iff in Hl as (? & <- & _).
  exists b. by rewrite list_elem_of_In.
Qed.

(** The single predecessor of the end block is one of the blocks in front
    of it. *)
Lemma getSinglePredecessor_old old e l :
  getSinglePredecessor (old ++ [mkMemBlock e [EndOp]]) e = Some l ->
  exists b, b ∈ old /\ blk_id b = l.
Proof.
  unfold getSinglePredecessor.
  fold (edgesTo (old ++ [mkMemBlock e [EndOp]]) e).
  rewrite edgesTo_app. change (edgesTo [mkMemBlock e [EndOp]] e) with (@nil BlockId).
  rewrite app_nil_r. intros Hl. apply (edgesTo_in old e).
  destruct (edgesTo old e) as [|x [|y rest]]; try done.
  injection Hl as ->. apply list_elem_of_here.
Qed.

End Chain.

Section ChainBuild.
Variable lockMode : Z.
Variable buffers : list BufferOp.
Variable locks : list LockAnalysis.LockOp.

Lemma setSuccessor1_ids l s body body' :
  setSuccessor1 l s body = Ok body' -> map blk_id body' = map blk_id body.
Proof.
  unfold setSuccessor1. revert body'.
  induction body as [|b body IH]; intros body'; simpl.
  - by intros [= <-].
  - destruct (if bool_decide (blk_id b = l) then _ else _) as [b'|] eqn:Hb;
      simpl; [|done].
    destruct (mapM _ body) as [body''|]; simpl; [|done].
    intros [= <-]. simpl. rewrite (IH body'') by done. f_equal.
    case_bool_decide; [|by injection Hb as <-].
    destruct (last (blk_ops b)) as [[]|]; try done. by injection Hb as <-.
Qed.

(** [createChain] on a region [old ++ [end block]]: the blocks of [old]
    stay where they are, [old'] being [old] after the [setSuccessor] of
    line 280; the new [DMAStart] block and the ring of Bd blocks stand
    between them and the end block. *)
Lemma createChain_general n channelMode fresh old e old' :
  Forall (fun b => (blk_id b < fresh)%nat /\ blk_id b <> e) old ->
  (e < fresh)%nat ->
  (forall i, (i < S n)%nat -> is_Some (buffers !! i) /\ is_Some (locks !! i)) ->
  match getSinglePredecessor (old ++ [mkMemBlock e [EndOp]]) e with
  | Some l => (l < fresh)%nat /\ l <> e /\ setSuccessor1 l fresh old = Ok old'
  | None => old' = old
  end ->
  createChain (S n) channelMode lockMode buffers locks fresh
              (old ++ [mkMemBlock e [EndOp]])
  = Ok (old' ++ mkMemBlock fresh [DMAStart channelMode (S fresh) e]
             :: ring lockMode buffers locks (S fresh) (S n)
             ++ [mkMemBlock e [EndOp]],
        (S fresh + S n)%nat).
Proof.
  intros Hold He Hlook Hpred. unfold createChain.
  rewrite findEndOpBlock_last by apply list_elem_of_here.
  rewrite createBlock_before by (eapply Forall_impl; [exact Hold|]; by intros b [_ ?]).
  replace (old ++ mkMemBlock fresh [] :: mkMemBlock e [EndOp] :: [])
    with ((old ++ [mkMemBlock fresh []]) ++ mkMemBlock e [EndOp] :: [])
    by (by rewrite <- app_assoc).
  rewrite createBlock_before.
  2:{ apply Forall_app. split.
      - eapply Forall_impl; [exact Hold|]. by intros b [_ ?].
      - repeat constructor. simpl. lia. }
  rewrite <- app_assoc. cbn [app].
  rewrite insertAtStart_hit.
  2:{ eapply Forall_impl; [exact Hold|]. intros b [? _]. lia. }
  2:{ repeat constructor; simpl; lia. }
  rewrite app_nil_r.
  set (dma := mkMemBlock fresh [DMAStart channelMode (S fresh) e]).
  assert (match getSinglePredecessor (old ++ [mkMemBlock e [EndOp]]) e with
          | Some l => setSuccessor1 l fresh
                        (old ++ dma :: mkMemBlock (S fresh) [] :: [mkMemBlock e [EndOp]])
          | None => Ok (old ++ dma :: mkMemBlock (S fresh) [] :: [mkMemBlock e [EndOp]])
          end
          = Ok (old' ++ dma :: mkMemBlock (S fresh) [] :: [mkMemBlock e [EndOp]]))
    as ->.
  { destruct (getSinglePredecessor _ e) as [l|]; [|by subst old'].
    destruct Hpred as (Hl & Hle & Hset).
    unfold setSuccessor1. rewrite mapM_app. fold (setSuccessor1 l fresh old).
    rewrite Hset. simpl.
    rewrite !bool_decide_eq_false_2 by (simpl; lia). done. }
  cbn [mbind result_bind].
  assert (map blk_id old' = map blk_id old) as Hids.
  { destruct (getSinglePredecessor _ e) as [l|]; [|by subst old'].
    destruct Hpred as (_ & _ & Hset). by eapply setSuccessor1_ids. }
  assert (Forall (fun b => (blk_id b < fresh)%nat /\ blk_id b <> e) old') as Hold'.
  { apply Forall_forall. intros b Hb.
    assert (blk_id b ∈ map blk_id old) as Hin
      by (rewrite <- Hids; by apply list_elem_of_fmap_2).
    apply list_elem_of_fmap in Hin as (b0 & -> & Hb0).
    by apply (proj1 (Forall_forall _ _) Hold). }
  pose proof (createBdBlocks_spec lockMode buffers locks n 0 (old' ++ [dma])
                (S n) (S fresh) e [EndOp]) as Hring.
  rewrite Nat.add_0_r in Hring.
  replace (old' ++ dma :: mkMemBlock (S fresh) [] :: [mkMemBlock e [EndOp]])
    with ((old' ++ [dma]) ++ [mkMemBlock (S fresh) []; mkMemBlock e [EndOp]])
    by (by rewrite <- app_assoc).
  rewrite Hring; try done; try lia.
  - unfold ring. by rewrite <- app_assoc.
  - apply Forall_app. split.
    + eapply Forall_impl; [exact Hold'|]. intros b [? ?]. split; [lia|done].
    + repeat constructor; simpl; lia.
  - intros i Hi. apply Hlook. lia.
Qed.

Lemma createChainIn_none tile build mems :
  Forall (fun m => mem_tile m <> tile) mems -> createChainIn tile build mems = None.
Proof.
  induction 1 as [|m mems Hm _ IH]; simpl; [done|].
  rewrite bool_decide_eq_false_2 by done. by rewrite IH.
Qed.

Lemma createChainIn_found tile build ms1 body ms2 body' fresh' :
  Forall (fun m => mem_tile m <> tile) ms1 ->
  build body = Ok (body', fresh') ->
  createChainIn tile build (ms1 ++ mkMemOp tile body :: ms2)
  = Some (Ok (ms1 ++ mkMemOp tile body' :: ms2, fresh')).
Proof.
  intros Hms Hbuild. induction Hms as [|m ms1 Hm _ IH]; simpl.
  - rewrite bool_decide_eq_true_2 by done. by rewrite Hbuild.
  - rewrite bool_decide_eq_false_2 by done. by rewrite IH.
Qed.

End ChainBuild.

Lemma omap_total {A B : Type} (f : A -> option B) (l : list A) :
  Forall (fun a => is_Some (f a)) l ->
  length (omap f l) = length l /\
  forall k a, l !! k = Some a -> omap f l !! k = f a.
Proof.
  induction 1 as [|a l [b Hb] _ [IHlen IHlook]]; simpl.
  - split; [done|]. intros k a Hk. by rewrite lookup_nil in Hk.
  - rewrite Hb. simpl. split; [f_equal; exact IHlen|].
    intros [|k] a' Hk; simpl in *.
    + by injection Hk as <-.
    + exact (IHlook k a' Hk).
Qed.

(** The ring holds one block per element of the fifo; block [i] is
    [bdBlockAt i]. *)
Lemma ring_blocks lockMode buffers locks base D :
  length buffers = D -> length locks = D ->
  length (ring lockMode buffers locks base D) = D /\
  forall i, (i < D)%nat ->
    ring lockMode buffers locks base D !! i
    = bdBlockAt lockMode buffers locks base D i /\
    is_Some (bdBlockAt lockMode buffers locks base D i).
Proof.
  intros Hb Hl.
  assert (forall i, (i < D)%nat ->
                    is_Some (bdBlockAt lockMode buffers locks base D i)) as Hsome.
  { intros i Hi. unfold bdBlockAt.
    destruct (lookup_lt_is_Some_2 buffers i) as [buff ->]; [lia|].
    destruct (lookup_lt_is_Some_2 locks i) as [lock ->]; [lia|]. by eexists. }
  destruct (omap_total (bdBlockAt lockMode buffers locks base D) (seq 0 D))
    as [Hlen Hlook].
  { apply Forall_forall. intros i Hi. apply Hsome.
    apply list_elem_of_In, in_seq in Hi. lia. }
  unfold ring. rewrite Hlen, length_seq. split; [done|].
  intros i Hi. split; [|by apply Hsome].
  apply Hlook. by rewrite lookup_seq_lt.
Qed.

Lemma product_ge_1 shape :
  Forall (fun d => 1 <= d) shape -> 1 <= fold_right Z.mul 1 shape.
Proof. induction 1; simpl; nia. Qed.

(** Without overflow the length of a Bd is the number of elements of the
    buffer. *)
Lemma bdLen_product shape :
  Forall (fun d => 1 <= d) shape ->
  fold_right Z.mul 1 shape < 2 ^ 31 ->
  bdLen shape = fold_right Z.mul 1 shape.
Proof.
  unfold bdLen. intros Hshape.
  assert (forall acc, 1 <= acc -> acc * fold_right Z.mul 1 shape < 2 ^ 31 ->
            foldl (fun len i => wrap32 (len * i)) acc shape
            = acc * fold_right Z.mul 1 shape) as Hgen.
  { induction Hshape as [|d shape Hd Hshape IH]; intros acc Hacc Hlt; simpl.
    - lia.
    - pose proof (product_ge_1 shape Hshape) as Hp. simpl in Hlt.
      assert (acc * d <= acc * (d * fold_right Z.mul 1 shape)) by nia.
      rewrite wrap32_small by (unfold int_range; nia).
      rewrite IH; [lia|nia|]. by rewrite Z.mul_assoc in Hlt. }
  intros Hlt. rewrite Hgen; lia.
Qed.

Lemma wrap32_range z : int_range (wrap32 z).
Proof.
  unfold int_range, wrap32.
  pose proof (Z.mod_pos_bound (z + 2 ^ 31) (2 ^ 32) ltac:(lia)). lia.
Qed.

(** Reducing a factor to an [int] first does not change the reduced
    product. *)
Lemma wrap32_mul_l a b : wrap32 (wrap32 a * b) = wrap32 (a * b).
Proof.
  unfold wrap32. f_equal.
  rewrite <- (Zplus_mod_idemp_l (_ * b)), <- (Zplus_mod_idemp_l (a * b)).
  f_equal. f_equal.
  rewrite <- (Zmult_mod_idemp_l (_ - _)), <- (Zmult_mod_idemp_l a).
  f_equal. f_equal.
  rewrite Zminus_mod, Zmod_mod, <- Zminus_mod.
  f_equal. lia.
Qed.

Lemma bdLen_from acc shape :
  wrap32 (foldl (fun len i => wrap32 (len * i)) acc shape)
  = wrap32 (acc * fullExtent shape).
Proof.
  revert acc. induction shape as [|d shape IH]; intros acc; simpl.
  - by rewrite Z.mul_1_r.
  - rewrite IH, wrap32_mul_l. f_equal. lia.
Qed.

Lemma bdLen_in_range acc shape :
  int_range acc -> int_range (foldl (fun len i => wrap32 (len * i)) acc shape).
Proof.
  revert acc. induction shape as [|d shape IH]; intros acc Hacc; simpl; [done|].
  apply IH, wrap32_range.
Qed.

(** The length of a Bd is the number of elements of the buffer as an
    [int]: whatever the dimensions, the loop [len *= i] ends on the
    product reduced to 32 bits. *)
Lemma bdLen_wrap32 shape : bdLen shape = wrap32 (fullExtent shape).
Proof.
  unfold bdLen. rewrite <- (wrap32_small (foldl _ 1 shape)).
  - rewrite bdLen_from. f_equal. lia.
  - apply bdLen_in_range. unfold int_range. lia.
Qed.

Lemma createElements_length n op : forall lpt bi bufs lks lpt' bi' bufs' lks',
  createElements n op lpt bi bufs lks = Ok (lpt', bi', bufs', lks') ->
  length bufs' = (length bufs + n)%nat /\ length lks' = (length lks + n)%nat.
Proof.
  induction n as [|n IH]; intros lpt bi bufs lks lpt' bi' bufs' lks'; simpl.
  - intros [= <- <- <- <-]. lia.
  - destruct (LockAnalysis.getLockID lpt (producerTile op)) as [lockID lpt1].
    destruct (lockID <? 0); [done|].
    intros Hrec. apply IH in Hrec as [Hb Hl].
    rewrite length_app in Hb, Hl. simpl in *. lia.
Qed.

(** [createObjectFifoElements] gives a fifo as many buffers and locks as
    its depth. *)
Lemma createObjectFifoElements_length st op st' :
  createObjectFifoElements st op = Ok st' ->
  exists buffers locks,
    buffersPerFifo st' !! fifo_result op = Some buffers /\
    locksPerFifo st' !! fifo_result op = Some locks /\
    length buffers = Z.to_nat (size op) /\ length locks = Z.to_nat (size op).
Proof.
  unfold createObjectFifoElements.
  destruct (createElements _ _ _ _ _ _) as [[[[lpt bi] bufs] lks]|] eqn:Hcreate;
    simpl; [|done].
  intros [= <-]. simpl. exists bufs, lks. rewrite !lookup_insert_eq.
  apply createElements_length in Hcreate as [Hb Hl]. simpl in Hb, Hl.
  by rewrite Hb, Hl.
Qed.

(** C6. [createDMA] builds nothing for a fifo of depth 0 and stops on the
    assertion of line 244 for a depth above 14.  For a depth [D] from 1 to
    14 it builds a [DMAStart] block and a ring of [D] Bd blocks in front of
    the end block; block [i] of the ring acquires lock [i] in mode
    [lockMode == 0 ? 1 : 0], moves buffer [i] from offset 0, releases lock
    [i] in mode [lockMode == 0 ? 0 : 1] and branches to block
    [(i + 1) mod D].  The length of the transfer is the number of elements
    of the buffer as a 32-bit [int]: the full extent of the buffer when
    that number fits an [int], and the number reduced modulo [2 ^ 32]
    otherwise.  On a tile without [AIE.mem] the chain is the whole
    region.  On a tile with an [AIE.mem] the blocks that are there stay
    where they are and the new blocks stand after them, in front of the end
    block; of the old blocks only the single predecessor of the end block,
    when there is one, changes: its successor 1 becomes the new [DMAStart]
    block.  So when the [AIE.mem] holds chains that [createDMA] built, the
    [DMAStart] of the last chain, which led to the end block, leads to the
    new [DMAStart] block, which leads to the end block. *)
Theorem createDMA_ring st mems fresh op channelMode lockMode :
  (size op = 0 -> createDMA st mems fresh op channelMode lockMode = Ok (mems, fresh)) /\
  (14 < size op ->
   createDMA st mems fresh op channelMode lockMode = Fatal TooManyDmaBlocks) /\
  (0 < size op <= 14 ->
   forall buffers locks (D := Z.to_nat (size op)),
     buffersPerFifo st !! fifo_result op = Some buffers ->
     locksPerFifo st !! fifo_result op = Some locks ->
     length buffers = D -> length locks = D ->
     (forall base,
        length (ring lockMode buffers locks base D) = D /\
        forall i, (i < D)%nat ->
          exists buff lock len,
            buffers !! i = Some buff /\ locks !! i = Some lock /\
            ring lockMode buffers locks base D !! i
            = Some (mkMemBlock (base + i)%nat
                      [ UseLock lock (if lockMode =? 0 then 1 else 0) Acquire;
                        DMABD buff 0 len 0;
                        UseLock lock (if lockMode =? 0 then 0 else 1) Release;
                        Br (base + (i + 1) mod D)%nat ]) /\
            len = wrap32 (fullExtent (buf_shape buff)) /\
            (int_range (fullExtent (buf_shape buff)) ->
             len = fullExtent (buf_shape buff))) /\
     (Forall (fun m => mem_tile m <> producerTile op) mems ->
      createDMA st mems fresh op channelMode lockMode
      = Ok (mems ++ [mkMemOp (producerTile op)
                       (mkMemBlock (S fresh) [DMAStart channelMode (S (S fresh)) fresh]
                          :: ring lockMode buffers locks (S (S fresh)) D
                          ++ [mkMemBlock fresh [EndOp]])],
            (S (S fresh) + D)%nat)) /\
     (forall ms1 ms2 old e old',
        mems = ms1 ++ mkMemOp (producerTile op) (old ++ [mkMemBlock e [EndOp]]) :: ms2 ->
        Forall (fun m => mem_tile m <> producerTile op) ms1 ->
        Forall (fun b => (blk_id b < fresh)%nat /\ blk_id b <> e) old ->
        (e < fresh)%nat ->
        match getSinglePredecessor (old ++ [mkMemBlock e [EndOp]]) e with
        | Some l => setSuccessor1 l fresh old = Ok old'
        | None => old' = old
        end ->
        createDMA st mems fresh op channelMode lockMode
        = Ok (ms1 ++ mkMemOp (producerTile op)
                       (old' ++ mkMemBlock fresh [DMAStart channelMode (S fresh) e]
                             :: ring lockMode buffers locks (S fresh) D
                             ++ [mkMemBlock e [EndOp]]) :: ms2,
              (S fresh + D)%nat)) /\
     (forall ms1 ms2 pre l lops channel dest post e,
        mems = ms1 ++ mkMemOp (producerTile op)
                        (pre ++ mkMemBlock l (lops ++ [DMAStart channel dest e])
                             :: post ++ [mkMemBlock e [EndOp]]) :: ms2 ->
        Forall (fun m => mem_tile m <> producerTile op) ms1 ->
        dest <> e -> (e < fresh)%nat -> (l < fresh)%nat -> l <> e ->
        Forall (fun b => (blk_id b < fresh)%nat /\ blk_id b <> e /\
                         blk_id b <> l /\ e ∉ successors b) (pre ++ post) ->
        createDMA st mems fresh op channelMode lockMode
        = Ok (ms1 ++ mkMemOp (producerTile op)
                       (pre ++ mkMemBlock l (lops ++ [DMAStart channel dest fresh])
                            :: post
                            ++ mkMemBlock fresh [DMAStart channelMode (S fresh) e]
                            :: ring lockMode buffers locks (S fresh) D
                            ++ [mkMemBlock e [EndOp]]) :: ms2,
              (S fresh + D)%nat))).
Proof.
  split; [|split].
  - intros Hz. unfold createDMA. by rewrite Hz.
  - intros Hbig. unfold createDMA.
    destruct (Z.eqb_spec (size op) 0); [lia|].
    by destruct (Z.ltb_spec 14 (size op)); [|lia].
  - intros Hsize buffers locks D Hbufs Hlocks Hblen Hllen.
    assert (exists n, D = S n) as [n HD].
    { exists (Nat.pred D). subst D. lia. }
    assert (forall i, (i < S n)%nat -> is_Some (buffers !! i) /\ is_Some (locks !! i))
      as Hlook.
    { intros i Hi. split; apply lookup_lt_is_Some_2; lia. }
    assert (createDMA st mems fresh op channelMode lockMode
            = match createChainIn (producerTile op)
                      (createChain D channelMode lockMode buffers locks fresh) mems with
              | Some r => r
              | None =>
                  '(body, fresh') ←
                    createChain D channelMode lockMode buffers locks (S fresh)
                                [mkMemBlock fresh [EndOp]];
                  mret (mems ++ [mkMemOp (producerTile op) body], fresh')
              end) as ->.
    { unfold createDMA.
      destruct (Z.eqb_spec (size op) 0); [lia|].
      destruct (Z.ltb_spec 14 (size op)); [lia|].
      by rewrite Hbufs, Hlocks. }
    split; [|split; [|split]].
    + intros base.
      destruct (ring_blocks lockMode buffers locks base D Hblen Hllen) as [Hlen Hring].
      split; [done|]. intros i Hi.
      destruct (Hring i Hi) as [Heq _]. rewrite Heq. unfold bdBlockAt.
      destruct (lookup_lt_is_Some_2 buffers i) as [buff Hb]; [lia|].
      destruct (lookup_lt_is_Some_2 locks i) as [lock Hl]; [lia|].
      exists buff, lock, (bdLen (buf_shape buff)). rewrite Hb, Hl.
      split; [done|]. split; [done|]. split; [done|].
      rewrite bdLen_wrap32. split; [done|]. apply wrap32_small.
    + intros Hnone. rewrite createChainIn_none by done. rewrite HD.
      pose proof (createChain_general lockMode buffers locks n channelMode (S fresh)
                    [] fresh []) as Hnew.
      cbn [app] in Hnew. rewrite Hnew; try done; lia.
    + intros ms1 ms2 old e old' -> Hms1 Hold He Hpred.
      assert (createChain D channelMode lockMode buffers locks fresh
                (old ++ [mkMemBlock e [EndOp]])
              = Ok (old' ++ mkMemBlock fresh [DMAStart channelMode (S fresh) e]
                         :: ring lockMode buffers locks (S fresh) D
                         ++ [mkMemBlock e [EndOp]], (S fresh + D)%nat)) as Hchain.
      { rewrite HD. apply createChain_general; try done.
        destruct (getSinglePredecessor _ e) as [l|] eqn:Hl; [|done].
        destruct (getSinglePredecessor_old old e l Hl) as (b & Hb & <-).
        destruct (proj1 (Forall_forall _ _) Hold b Hb) as [? ?]. done. }
      by rewrite (createChainIn_found _ _ ms1 _ ms2 _ _ Hms1 Hchain).
    + intros ms1 ms2 pre l lops channel dest post e -> Hms1 Hdest He Hl Hle Hothers.
      set (old := pre ++ mkMemBlock l (lops ++ [DMAStart channel dest e]) :: post).
      set (old' := pre ++ mkMemBlock l (lops ++ [DMAStart channel dest fresh]) :: post).
      apply Forall_app in Hothers as [Hpre Hpost].
      assert (createChain D channelMode lockMode buffers locks fresh
                (old ++ [mkMemBlock e [EndOp]])
              = Ok (old' ++ mkMemBlock fresh [DMAStart channelMode (S fresh) e]
                         :: ring lockMode buffers locks (S fresh) D
                         ++ [mkMemBlock e [EndOp]], (S fresh + D)%nat)) as Hchain.
      { rewrite HD. apply createChain_general; try done.
        - subst old. apply Forall_app. split.
          + eapply Forall_impl; [exact Hpre|]. by intros b (? & ? & _).
          + constructor; [done|].
            eapply Forall_impl; [exact Hpost|]. by intros b (? & ? & _).
        - rewrite (getSinglePredecessor_last _ e l).
          + split; [done|]. split; [done|]. subst old old'.
            apply setSuccessor1_hit.
            * eapply Forall_impl; [exact Hpre|]. by intros b (_ & _ & ? & _).
            * eapply Forall_impl; [exact Hpost|]. by intros b (_ & _ & ? & _).
          + exists pre, lops, channel, dest, post. subst old.
            split; [by rewrite <- app_assoc|]. split; [done|].
            apply Forall_app. split.
            * eapply Forall_impl; [exact Hpre|]. by intros b (_ & _ & ? & ?).
            * eapply Forall_impl; [exact Hpost|]. by intros b (_ & _ & ? & ?). }
      replace (pre ++ mkMemBlock l (lops ++ [DMAStart channel dest e])
                   :: post ++ [mkMemBlock e [EndOp]])
        with (old ++ [mkMemBlock e [EndOp]])
        by (subst old; by rewrite <- app_assoc).
      rewrite (createChainIn_found _ _ ms1 _ ms2 _ _ Hms1 Hchain).
      subst old'. by rewrite <- app_assoc.
Qed.

(** The tile DMAs of [fifosTwo]: on tile (1,2) the chain of fifo 15 follows
    the chain of fifo 12, whose [DMAStart] (block 1) leads to the
    [DMAStart] of the new chain (block 9) instead of the end block 0. *)
Example memsTwo_appended :
  (fun r : list MemOp * BlockId =>
     map (fun m => (mem_tile m, map (fun b => (blk_id b, successors b)) (mem_body m)))
         r.1) <$> memsTwo
  = Ok [ (1%nat, [ (1%nat, [2%nat; 9%nat]); (2%nat, [3%nat]); (3%nat, [2%nat]);
                   (9%nat, [10%nat; 0%nat]); (10%nat, [11%nat]); (11%nat, [10%nat]);
                   (0%nat, []) ]);
         (3%nat, [ (5%nat, [6%nat; 12%nat]); (6%nat, [7%nat]); (7%nat, [8%nat]);
                   (8%nat, [6%nat]);
                   (12%nat, [13%nat; 4%nat]); (13%nat, [14%nat]); (14%nat, [13%nat]);
                   (4%nat, []) ]) ].
Proof. vm_compute. reflexivity. Qed.

Lemma checkCorrectPort_rejects_witness :
  checkCorrectPort {[ 10%nat := fifoFar ]} (releaseOp Consume 10%nat 1)
                   [ParentOther; ParentOther]
  = Fatal NotInsideCoreOp /\
  checkCorrectPort {[ 10%nat := fifoFar ]} (acquireOp Produce 10%nat 1 20%nat)
                   [ParentOther; ParentCore (tile_result tile33)]
  = Fatal ProducerPortOnWrongTile /\
  checkCorrectPort {[ 10%nat := fifoFar ]} (acquireOp Consume 10%nat 1 20%nat)
                   [ParentOther; ParentCore (tile_result tile12)]
  = Fatal ConsumerPortOnWrongTile.
Proof.
  split; [|split].
  - apply (checkCorrectPort_rejects {[ 10%nat := fifoFar ]}
             (releaseOp Consume 10%nat 1) [ParentOther; ParentOther] fifoFar).
    + reflexivity.
    + reflexivity.
    + vm_compute. reflexivity.
    + repeat constructor.
  - destruct (checkCorrectPort_rejects {[ 10%nat := fifoFar ]}
                (acquireOp Produce 10%nat 1 20%nat)
                [ParentOther; ParentCore (tile_result tile33)] fifoFar
                ltac:(reflexivity) ltac:(reflexivity) ltac:(vm_compute; reflexivity))
      as (_ & Hproduce & _).
    apply (Hproduce (tile_result tile33)).
    + exists [ParentOther], []. split; [reflexivity|repeat constructor].
    + reflexivity.
    + vm_compute. discriminate.
  - destruct (checkCorrectPort_rejects {[ 10%nat := fifoFar ]}
                (acquireOp Consume 10%nat 1 20%nat)
                [ParentOther; ParentCore (tile_result tile12)] fifoFar
                ltac:(reflexivity) ltac:(reflexivity) ltac:(vm_compute; reflexivity))
      as (_ & _ & Hconsume & _).
    apply (Hconsume (tile_result tile12)).
    + exists [ParentOther], []. split; [reflexivity|repeat constructor].
    + reflexivity.
    + vm_compute. intros Hin. apply list_elem_of_singleton in Hin. discriminate Hin.
Defined.

(** The port check on concrete cores: a consumer-port acquire of fifo 10 in
    the core of its producer tile (1,2), a producer-port acquire in the
    core of its consumer tile (3,3), and an acquire outside any core. *)
Example checkCorrectPort_examples :
  checkCorrectPort {[ 10%nat := fifoFar ]} (acquireOp Consume 10%nat 1 20%nat)
                   [ParentOther; ParentCore (tile_result tile12)]
  = Fatal ConsumerPortOnWrongTile /\
  checkCorrectPort {[ 10%nat := fifoFar ]} (acquireOp Produce 10%nat 1 20%nat)
                   [ParentCore (tile_result tile33)]
  = Fatal ProducerPortOnWrongTile /\
  checkCorrectPort {[ 10%nat := fifoFar ]} (releaseOp Consume 10%nat 1)
                   [ParentOther; ParentOther]
  = Fatal NotInsideCoreOp /\
  checkCorrectPort {[ 10%nat := fifoFar ]} (acquireOp Consume 10%nat 1 20%nat)
                   [ParentOther; ParentCore (tile_result tile33)]
  = Ok tt.
Proof. repeat split; vm_compute; reflexivity. Qed.

(** ** Loop unrolling: the partial case in general *)

Lemma cdiv_nonzero a b : b <> 0 -> cdiv a b = Ok (Z.quot a b).
Proof. intros Hb. unfold cdiv. by destruct (Z.eqb_spec b 0). Qed.

Lemma crem_nonzero a b : b <> 0 -> crem a b = Ok (Z.rem a b).
Proof. intros Hb. unfold crem. by destruct (Z.eqb_spec b 0). Qed.

Lemma wrap64_small z : int64_range z -> wrap64 z = z.
Proof.
  unfold int64_range, wrap64. intros Hz. rewrite Z.mod_small; lia.
Qed.

(** The unroll factor: over positive sizes whose product fits an [int],
    [computeLCM] returns their least common multiple. *)
Lemma computeLCM_from_lcm values : forall lcm,
  0 < lcm -> Forall (fun i => 0 < i) values ->
  lcm * foldr Z.mul 1 values < 2 ^ 31 ->
  computeLCM_from lcm values = Ok (foldl (fun l i => Z.lcm i l) lcm values).
Proof.
  induction values as [|i values IH]; intros lcm Hpos Hall Hfit; [done|].
  apply Forall_cons in Hall as [Hi Hall].
  assert (1 <= foldr Z.mul 1 values) as Hprod.
  { clear -Hall. induction Hall; simpl; [lia|nia]. }
  simpl in Hfit.
  assert (i * lcm < 2 ^ 31) as Hstep by nia.
  assert (Z.gcd i lcm <> 0) as Hg.
  { intros Hz. apply Z.gcd_eq_0_l in Hz. lia. }
  pose proof (Z.gcd_nonneg i lcm) as Hg0.
  destruct (Z.gcd_divide_r i lcm) as [k Hk].
  assert (0 < k) as Hkpos by nia.
  assert (Z.lcm i lcm = i * k) as Hlcm.
  { unfold Z.lcm. rewrite Hk at 1. rewrite Z.div_mul by done.
    apply Z.abs_eq. nia. }
  assert (Z.quot (i * lcm) (Z.gcd i lcm) = i * k) as Hquot.
  { rewrite Hk at 1. rewrite Z.mul_assoc. by apply Z.quot_mul. }
  simpl. rewrite wrap32_small by (unfold int_range; lia).
  rewrite cdiv_nonzero by done.
  rsimpl. rewrite Hquot, <- Hlcm. apply IH; [rewrite Hlcm; nia|done|rewrite Hlcm; nia].
Qed.

Lemma computeLCM_lcm values :
  Forall (fun i => 0 < i) values -> foldr Z.mul 1 values < 2 ^ 31 ->
  computeLCM values = Ok (foldl (fun l i => Z.lcm i l) 1 values).
Proof. intros Hall Hfit. apply computeLCM_from_lcm; [lia|done|lia]. Qed.

(** For a loop with a positive step, a lower bound [L], an upper bound [U]
    and more iterations than the unroll factor [uf]: the lower bound stays,
    the step becomes [uf * S], [uf - 1] rounds of clones based on the
    induction variable join the body, [((U - L) mod (uf * S)) / S] rounds
    based on the upper bound of the loop follow it, and the upper bound is
    replaced, by [((U - L) / (uf * S)) * (uf * S)], exactly when that
    remainder is not 0.  The new bound is the largest multiple of the new
    step that does not exceed [U - L]; the lower bound [L] is not part of
    it. *)
Lemma unrollOne_partial isBlockArgument sf defs tile constants fresh forLoop u U L S :
  unrollOne isBlockArgument sf defs tile constants fresh forLoop = Ok (Some u) ->
  constants !! getUpperBound forLoop = Some U ->
  constants !! getLowerBound forLoop = Some L ->
  constants !! getStep forLoop = Some S ->
  (getUpperBound forLoop < fresh)%nat ->
  (getLowerBound forLoop < fresh)%nat ->
  int64_range (U - L) -> 0 < S ->
  1 <= un_unrollFactor u -> int_range (un_unrollFactor u) ->
  int64_range (un_unrollFactor u * S) ->
  un_unrollFactor u < (U - L) / S ->
  let uf := un_unrollFactor u in
  let remainder := ((U - L) mod (uf * S)) / S in
  exists l body' rows inside fresh1 fresh2,
    un_loop u = Some l /\
    getInductionVar l = getInductionVar forLoop /\
    un_constants u !! getLowerBound l = Some L /\
    un_constants u !! getStep l = Some (uf * S) /\
    un_remainder u = remainder /\ 0 <= remainder < uf /\
    un_constants u !! getUpperBound l
    = Some (if decide (remainder = 0) then U
            else ((U - L) / (uf * S)) * (uf * S)) /\
    (forall m, (uf * S | m) -> m <= U - L -> m <= ((U - L) / (uf * S)) * (uf * S)) /\
    getBody l = body' ++ inside /\
    duplicateBlock fresh1 (uf - 1) body' rows (getInductionVar forLoop) S true
    = Ok (inside, fresh2) /\
    duplicateBlock fresh2 remainder body' rows (getUpperBound l) S false
    = Ok (un_after u, un_fresh u).
Proof.
  intros Hun HU HL HS Hub Hlb Hrange Hpos Huf1 Hufr Hns Htrip uf remainder.
  assert (2 * S <= U - L) as Hext.
  { assert (2 <= (U - L) / S) by (subst uf; lia).
    assert (S * ((U - L) / S) <= U - L) by (apply Z.mul_div_le; lia). nia. }
  assert (0 < uf * S) as Hnspos by (subst uf; nia).
  assert (0 <= (U - L) mod (uf * S) < uf * S) as Hmod
    by (apply Z.mod_pos_bound; lia).
  assert (0 <= remainder < uf) as Hrem.
  { subst remainder. split; [apply Z.div_pos; lia|].
    apply Z.div_lt_upper_bound; lia. }
  assert (0 <= (U - L) / (uf * S) * (uf * S) <= U - L) as Hnew.
  { pose proof (Z.mul_div_le (U - L) (uf * S) Hnspos).
    assert (0 <= (U - L) / (uf * S)) by (apply Z.div_pos; lia). nia. }
  revert Hun. unfold unrollOne.
  destruct (acquirePrepass sf defs tile (getBody forLoop) [] false)
    as [[[body' sizes] found]|]; rsimpl; [|done].
  destruct (computeLCM sizes) as [uf0|]; rsimpl; [|done].
  destruct found; rsimpl; [|done].
  cbn [getUpperBound getLowerBound getStep getInductionVar].
  rewrite HU, HL, HS.
  rewrite (wrap64_small (U - L)) by done.
  rewrite (cdiv_nonzero (U - L) S) by lia. rsimpl.
  destruct (identifyDependencies _ _) as [rows|]; rsimpl; [|done].
  rewrite (Z.quot_div_nonneg (U - L) S) by lia.
  destruct (Z.leb_spec ((U - L) / S) uf0) as [Hle|Hgt].
  { destruct (duplicateBlock _ _ _ _ _ _ _) as [[after fresh']|]; rsimpl; [|done].
    intros [= <-]. simpl in *. lia. }
  destruct (decide (wrap64 (uf0 * S) = 0)) as [Hz|Hnz].
  { unfold crem. rewrite Hz. done. }
  rewrite (crem_nonzero (U - L) (wrap64 (uf0 * S))) by done. rsimpl.
  rewrite (cdiv_nonzero _ S) by lia. rsimpl.
  set (rem0 := Z.quot (Z.rem (U - L) (wrap64 (uf0 * S))) S).
  destruct (if 0 <? rem0 then _ else _)
    as [[[[before1 upper] constants1] fresh1]|] eqn:Hupper; rsimpl; [|done].
  destruct (duplicateBlock (Datatypes.S fresh1) _ _ _ _ _ _)
    as [[inside fresh2]|] eqn:Hin; rsimpl; [|done].
  destruct (duplicateBlock fresh2 _ _ _ _ _ _) as [[after fresh3]|] eqn:Haft;
    rsimpl; [|done].
  intros [= <-]. simpl in Huf1, Hufr, Hns, Htrip, uf, remainder, Hnspos, Hmod, Hrem, Hnew.
  subst uf.
  unfold rem0 in *. clear rem0.
  rewrite (wrap64_small (uf0 * S)) in * by done.
  assert (Z.quot (Z.rem (U - L) (uf0 * S)) S = remainder) as Hrem0.
  { subst remainder. rewrite Z.rem_mod_nonneg by lia.
    apply Z.quot_div_nonneg; lia. }
  rewrite Hrem0 in *.
  rewrite (wrap64_small (uf0 - 1)) in Hin by (unfold int64_range, int_range in *; lia).
  rewrite (wrap32_small (uf0 - 1)) in Hin by (unfold int_range in *; lia).
  rewrite (wrap32_small remainder) in Haft by (unfold int_range in *; lia).
  assert (upper = (if decide (remainder = 0) then getUpperBound forLoop else fresh) /\
          fresh1 = (if decide (remainder = 0) then fresh else Datatypes.S fresh) /\
          constants1 = (if decide (remainder = 0) then constants
                        else <[fresh := (U - L) / (uf0 * S) * (uf0 * S)]> constants))
    as (-> & -> & ->).
  { destruct (Z.ltb_spec 0 remainder) as [Hp|Hnp].
    - unfold cdiv in Hupper.
      destruct (Z.eqb_spec (uf0 * S) 0) as [|_]; [lia|]. cbn in Hupper.
      rewrite (Z.quot_div_nonneg (U - L) (uf0 * S)) in Hupper by lia.
      rewrite wrap64_small in Hupper by (unfold int64_range in *; lia).
      injection Hupper as <- <- <- <-.
      by destruct (decide (remainder = 0)); [lia|].
    - injection Hupper as <- <- <- <-.
      by destruct (decide (remainder = 0)); [|lia]. }
  eexists _, body', rows, inside, _, fresh2.
  split; [reflexivity|]. simpl.
  split; [done|].
  split.
  { destruct (decide (remainder = 0)).
    - rewrite lookup_insert_ne by lia. done.
    - rewrite !lookup_insert_ne by lia. done. }
  split; [by rewrite lookup_insert_eq|].
  split; [done|]. split; [done|].
  split.
  { destruct (decide (remainder = 0)).
    - rewrite lookup_insert_ne by lia. done.
    - rewrite lookup_insert_ne by lia. by rewrite lookup_insert_eq. }
  split.
  { intros m [k ->] Hm.
    assert (k <= (U - L) / (uf0 * S)).
    { apply Z.div_le_lower_bound; lia. }
    nia. }
  split; [done|]. split; [exact Hin|exact Haft].
Qed.

(** Round [k] of [duplicateBlock] patches the dependencies on the induction
    variable with [base + (k + 1) * step] inside the loop and with
    [base + k * step] after it. *)
Lemma duplicateBlock_from_rounds n : forall i fresh operations dependencies base step inLoop ins fresh',
  duplicateBlock_from n i fresh operations dependencies base step inLoop
    = Ok (ins, fresh') ->
  exists rounds,
    ins = concat rounds /\ length rounds = n /\
    forall k round, rounds !! k = Some round ->
      exists f f',
        duplicateRound f operations dependencies [] base
          (wrap64 ((if inLoop then i + Z.of_nat k + 1 else i + Z.of_nat k) * step))
        = Ok (round, f').
Proof.
  induction n as [|n IH];
    intros i fresh operations dependencies base step inLoop ins fresh'; simpl.
  - intros [= <- <-]. exists []. split; [done|]. split; [done|].
    intros k round Hk. by rewrite lookup_nil in Hk.
  - destruct (duplicateRound _ _ _ _ _ _) as [[ins1 fresh1]|] eqn:Hround;
      rsimpl; [|done].
    destruct (duplicateBlock_from _ _ _ _ _ _ _ _) as [[ins2 fresh2]|] eqn:Hrec;
      rsimpl; [|done].
    intros [= <- <-]. apply IH in Hrec as (rounds & -> & Hlen & Hrounds).
    exists (ins1 :: rounds). split; [done|]. split; [simpl; lia|].
    intros [|k] round Hk; simpl in Hk.
    + injection Hk as <-. exists fresh, fresh1.
      rewrite <- Hround. do 2 f_equal. destruct inLoop; f_equal; lia.
    + destruct (Hrounds k round Hk) as (f & f' & Hr). exists f, f'.
      rewrite <- Hr. do 2 f_equal. destruct inLoop; f_equal; lia.
Qed.

(** An operand that depends on the induction variable becomes the result
    of an addition of [base] and a new constant [increment_value]. *)
Lemma patchOperands_loop_var operands : forall fresh deps dup base inc created vs fresh' j,
  patchOperands fresh operands deps dup base inc = Ok (created, vs, fresh') ->
  (j < length operands)%nat ->
  deps !! j = Some LOOP_VAR_DEPENDENCY ->
  exists c r,
    vs !! j = Some r /\
    mkOperation (KConstant inc) [] [c] [] ∈ created /\
    mkOperation KAddI [base; c] [r] [] ∈ created.
Proof.
  induction operands as [|v operands IH];
    intros fresh deps dup base inc created vs fresh' j; simpl; [lia|].
  destruct deps as [|d deps]; [done|].
  destruct (Z.leb_spec 0 d) as [Hd|Hd].
  - destruct (dup !! Z.to_nat d ≫= _) as [r0|]; [|done].
    destruct (patchOperands _ _ _ _ _ _) as [[[cr vs0] f0]|] eqn:Hrec;
      rsimpl; [|done].
    intros [= <- <- <-] Hj Hdep. destruct j as [|j]; simpl in *.
    + injection Hdep as ->. unfold LOOP_VAR_DEPENDENCY in Hd. lia.
    + eapply IH; [exact Hrec|lia|done].
  - destruct (Z.eqb_spec d LOOP_VAR_DEPENDENCY) as [Hloop|Hloop].
    + destruct (patchOperands _ _ _ _ _ _) as [[[cr vs0] f0]|] eqn:Hrec;
        rsimpl; [|done].
      intros [= <- <- <-] Hj Hdep. destruct j as [|j]; simpl in *.
      * exists fresh, (S fresh). split; [done|].
        split; [apply list_elem_of_here|].
        apply list_elem_of_further, list_elem_of_here.
      * destruct (IH _ _ _ _ _ _ _ _ j Hrec) as (c & r & Hr & Hc & Hs);
          [lia|done|].
        exists c, r. split; [done|].
        split; by do 2 apply list_elem_of_further.
    + destruct (patchOperands _ _ _ _ _ _) as [[[cr vs0] f0]|] eqn:Hrec;
        rsimpl; [|done].
      intros [= <- <- <-] Hj Hdep. destruct j as [|j]; simpl in *.
      * by injection Hdep as ->.
      * eapply IH; [exact Hrec|lia|done].
Qed.

(** ** The port check inside the walks of a core *)

Section ResolverPortCheck.
Variable sf : gmap Value (list ObjectFifoCreateOp).
Variable defs : gmap Value ObjectFifoCreateOp.
Variable buffers : gmap Value (list BufferOp).
Variable locks : gmap Value (list LockAnalysis.LockOp).
Variable tile : Value.

Lemma enclosingCore_parentsIn p : forall r i,
  enclosingCore (parentsIn tile (InRegion p r i)) = Ok tile.
Proof.
  induction p as [|p IH r' i']; intros r i; [done|].
  change (parentsIn tile (InRegion (InRegion p r' i') r i))
    with (ParentOther :: parentsIn tile (InRegion p r' i')).
  apply IH.
Qed.

Lemma substitute_none parentFifo children : forall o,
  Forall (fun ch => producerTile ch <> tile) children ->
  substitute parentFifo tile o children = o.
Proof.
  unfold substitute. intros o Hall. revert o.
  induction Hall as [|ch children Hch _ IH]; intros o; simpl; [done|].
  rewrite bool_decide_eq_false_2 by done. apply IH.
Qed.

Lemma checkSplitFifo_other_tile o q :
  isAcquire o || isRelease o = true ->
  fifo o = Some (fifo_result q) ->
  (forall children ch, sf !! fifo_result q = Some children -> ch ∈ children ->
                       producerTile ch <> tile) ->
  checkSplitFifo sf o tile = Ok o.
Proof.
  intros Hk Hf Hch. unfold checkSplitFifo. rewrite Hk, Hf.
  destruct (sf !! fifo_result q) as [children|] eqn:Hsf; [|done].
  case_bool_decide; [|done].
  fold (substitute (fifo_result q) tile o children).
  rewrite substitute_none; [done|].
  apply Forall_forall. intros ch Hin. by eapply Hch.
Qed.

(** The walks of a core on [tile] stop on the port assertions: on an
    acquire or release of the consumer port of [q] when [tile] is not among
    the consumers of [q] (the consumer fifos of [q] stand on its consumer
    tiles, so none is substituted), and on an acquire or release of the
    producer port when [tile] is not the producer tile. *)
Lemma walks_reject_wrong_port st p r i o q :
  fifo o = Some (fifo_result q) ->
  defs !! fifo_result q = Some q ->
  (forall children ch, sf !! fifo_result q = Some children -> ch ∈ children ->
                       producerTile ch ∈ map tile_result (consumerTiles q)) ->
  (port o = Some Consume -> tile ∉ map tile_result (consumerTiles q) ->
   (isAcquire o = true ->
    replaceAcquire sf defs buffers locks tile st (InRegion p r i) o
    = Fatal ConsumerPortOnWrongTile) /\
   (isRelease o = true ->
    replaceRelease sf defs locks tile st (InRegion p r i) o
    = Fatal ConsumerPortOnWrongTile)) /\
  (port o = Some Produce -> tile <> producerTile q ->
   (isAcquire o = true ->
    replaceAcquire sf defs buffers locks tile st (InRegion p r i) o
    = Fatal ProducerPortOnWrongTile) /\
   (isRelease o = true ->
    replaceRelease sf defs locks tile st (InRegion p r i) o
    = Fatal ProducerPortOnWrongTile)).
Proof.
  intros Hf Hq Hchildren.
  pose proof (enclosingCore_parentsIn p r i) as Hcore.
  split.
  - intros Hp Hnin.
    assert (forall Hk : isAcquire o || isRelease o = true,
              checkSplitFifo sf o tile = Ok o /\
              checkCorrectPort defs o (parentsIn tile (InRegion p r i))
              = Fatal ConsumerPortOnWrongTile) as Hboth.
    { intros Hk. split.
      - apply (checkSplitFifo_other_tile o q Hk Hf).
        intros children ch Hsf Hin Heq.
        apply Hnin. rewrite <- Heq. by eapply Hchildren.
      - by apply (checkCorrectPort_consume_wrong defs o _ q tile). }
    split; intros Hk.
    + destruct Hboth as [Hs Hc]; [by rewrite Hk|].
      unfold replaceAcquire. by rewrite Hs; rsimpl; rewrite Hc.
    + destruct Hboth as [Hs Hc]; [by rewrite Hk, orb_true_r|].
      unfold replaceRelease. by rewrite Hs; rsimpl; rewrite Hc.
  - intros Hp Hne.
    assert (forall Hk : isAcquire o || isRelease o = true,
              checkSplitFifo sf o tile = Ok o /\
              checkCorrectPort defs o (parentsIn tile (InRegion p r i))
              = Fatal ProducerPortOnWrongTile) as Hboth.
    { intros Hk. split.
      - by apply checkSplitFifo_produce.
      - by apply (checkCorrectPort_produce_wrong defs o _ q tile). }
    split; intros Hk.
    + destruct Hboth as [Hs Hc]; [by rewrite Hk|].
      unfold replaceAcquire. by rewrite Hs; rsimpl; rewrite Hc.
    + destruct Hboth as [Hs Hc]; [by rewrite Hk, orb_true_r|].
      unfold replaceRelease. by rewrite Hs; rsimpl; rewrite Hc.
Qed.

End ResolverPortCheck.

(** The ring of C6 at work: the tile DMA of fifo 15 on tile (1,2), whose
    [AIE.mem] holds the chain of fifo 12 (blocks 1, 2, 3 and the end block
    0).  Block 1 leads to the new [DMAStart] block 9, and the first block
    of the new ring moves the 32 elements of its buffer (4 by 8). *)
Lemma createDMA_ring_witness :
  (createDMA createdTwo.1.1 (from_result ([], 0%nat) (memsAfter 2)).1 9%nat
            fifoSecondSized MM2S1 0
  = Ok ([] ++ mkMemOp (producerTile fifoSecondSized)
                ([] ++ mkMemBlock 1%nat ([] ++ [DMAStart MM2S0 2%nat 9%nat])
                    :: ring 0 (default [] (buffersPerFifo createdTwo.1.1 !! 12%nat))
                            (default [] (locksPerFifo createdTwo.1.1 !! 12%nat))
                            2%nat 2%nat
                    ++ mkMemBlock 9%nat [DMAStart MM2S1 10%nat 0%nat]
                    :: ring 0 buffersSecond locksSecond 10%nat
                            (Z.to_nat (size fifoSecondSized))
                    ++ [mkMemBlock 0%nat [EndOp]])
                :: drop 1 (from_result ([], 0%nat) (memsAfter 2)).1,
        (10 + Z.to_nat (size fifoSecondSized))%nat)) /\
  (exists buff lock,
     buffersSecond !! 0%nat = Some buff /\ locksSecond !! 0%nat = Some lock /\
     fullExtent (buf_shape buff) = 32 /\
     ring 0 buffersSecond locksSecond 10%nat (Z.to_nat (size fifoSecondSized))
       !! 0%nat
     = Some (mkMemBlock 10%nat
               [ UseLock lock 1 Acquire; DMABD buff 0 32 0;
                 UseLock lock 0 Release; Br 11%nat ])).
Proof.
  destruct (createDMA_ring createdTwo.1.1 (from_result ([], 0%nat) (memsAfter 2)).1
              9%nat fifoSecondSized MM2S1 0) as (_ & _ & Hring).
  destruct (Hring ltac:(vm_compute; split; [reflexivity|discriminate])
                  buffersSecond locksSecond
                  ltac:(vm_compute; reflexivity) ltac:(vm_compute; reflexivity)
                  ltac:(vm_compute; reflexivity) ltac:(vm_compute; reflexivity))
    as (Hblocks & _ & _ & Happend).
  split.
  2:{ destruct (Hblocks 10%nat) as [_ Hblock].
      destruct (Hblock 0%nat ltac:(vm_compute; lia))
        as (buff & lock & len & Hb & Hl & Hr & _ & Hfull).
      exists buff, lock. split; [exact Hb|]. split; [exact Hl|].
      assert (fullExtent (buf_shape buff) = 32) as Hext.
      { vm_compute in Hb. injection Hb as <-. reflexivity. }
      split; [exact Hext|].
      rewrite Hr, Hfull, Hext; [reflexivity|].
      rewrite Hext. unfold int_range. lia. }
  apply (Happend [] (drop 1 (from_result ([], 0%nat) (memsAfter 2)).1)
                 [] 1%nat [] MM2S0 2%nat
                 (ring 0 (default [] (buffersPerFifo createdTwo.1.1 !! 12%nat))
                       (default [] (locksPerFifo createdTwo.1.1 !! 12%nat))
                       2%nat 2%nat)
                 0%nat).
  - vm_compute. reflexivity.
  - constructor.
  - discriminate.
  - lia.
  - lia.
  - discriminate.
  - vm_compute. repeat constructor; try lia; try discriminate;
      intros Hin; repeat (apply elem_of_cons in Hin as [Hin|Hin]; [discriminate Hin|]);
      by apply elem_of_nil in Hin.
Defined.

(** C6 as stated fails: the buffer of [fifoHuge] has [2 ^ 32] elements, and
    the one block of its ring moves none of them: the [int] in which
    [createBdBlock] multiplies the dimensions holds 0. *)
Lemma createDMA_ring_counterexample :
  createObjectFifoElements emptyState fifoHuge = Ok stateHuge /\
  buffersPerFifo stateHuge !! fifo_result fifoHuge
  = Some [mkBufferOp 0 (tile_result tile12) [65536; 65536]] /\
  locksPerFifo stateHuge !! fifo_result fifoHuge
  = Some [LockAnalysis.mkLockOp (tile_result tile12) 0] /\
  fullExtent [65536; 65536] = 2 ^ 32 /\
  createDMA stateHuge [] 0%nat fifoHuge MM2S0 0
  = Ok ([mkMemOp (tile_result tile12)
           [ mkMemBlock 1%nat [DMAStart MM2S0 2%nat 0%nat];
             mkMemBlock 2%nat
               [ UseLock (LockAnalysis.mkLockOp (tile_result tile12) 0) 1 Acquire;
                 DMABD (mkBufferOp 0 (tile_result tile12) [65536; 65536]) 0 0 0;
                 UseLock (LockAnalysis.mkLockOp (tile_result tile12) 0) 0 Release;
                 Br 2%nat ];
             mkMemBlock 0%nat [EndOp] ]], 3%nat) /\
  0 <> fullExtent [65536; 65536].
Proof.
  split; [vm_compute; reflexivity|].
  split; [vm_compute; reflexivity|].
  split; [vm_compute; reflexivity|].
  split; [vm_compute; reflexivity|].
  split; [vm_compute; reflexivity|].
  vm_compute. discriminate.
Qed.

(** * Further properties of the pass *)

(** ** Locks and buffers of a fifo *)

Section FreeLocks.
Import LockAnalysis.
Implicit Types (m : gmap (Value * Z) Z) (t : Value).

Lemma scan_filter n : forall m t i,
  scan m t i n =
  match filter (fun j => usage m (t, j) = 0) (seqZ i (Z.of_nat n)) with
  | j :: _ => (j, <[(t, j) := 1]> m)
  | [] => (-1, m)
  end.
Proof.
  induction n as [|n IH]; intros m t i; [done|].
  rewrite Nat2Z.inj_succ, seqZ_cons by lia.
  rewrite filter_cons. simpl scan.
  destruct (Z.eqb_spec (usage m (t, i)) 0) as [Hz|Hnz].
  - by rewrite decide_True.
  - rewrite decide_False by done. rewrite IH.
    by replace (Z.pred (Z.succ (Z.of_nat n))) with (Z.of_nat n) by lia.
Qed.

Lemma getLockID_freeLocks m t :
  getLockID m t =
  match freeLocks m t with
  | j :: _ => (j, <[(t, j) := 1]> m)
  | [] => (-1, m)
  end.
Proof. apply (scan_filter 16). Qed.

Lemma freeLocks_range m t j : j ∈ freeLocks m t -> 0 <= j < 16.
Proof.
  unfold freeLocks. intros Hj. apply list_elem_of_filter in Hj as [_ Hj].
  apply elem_of_seqZ in Hj. lia.
Qed.

Lemma freeLocks_other m t t' i :
  t <> t' -> freeLocks (<[(t, i) := 1]> m) t' = freeLocks m t'.
Proof.
  intros Hne. unfold freeLocks. apply list_filter_iff. intros j.
  rewrite usage_insert_ne; [done|congruence].
Qed.

Lemma filter_ext_in {A : Type} (P Q : A -> Prop) `{!forall x, Decision (P x)}
      `{!forall x, Decision (Q x)} (l : list A) :
  (forall x, x ∈ l -> (P x <-> Q x)) -> filter P l = filter Q l.
Proof.
  induction l as [|x l IH]; intros Hext; [done|].
  rewrite !filter_cons.
  assert (filter P l = filter Q l) as ->.
  { apply IH. intros y Hy. apply Hext. by right. }
  destruct (decide (P x)) as [HP|HP].
  - rewrite decide_True; [done|]. apply Hext; [left|done].
  - rewrite decide_False; [done|]. rewrite <- Hext; [done|left].
Qed.

Lemma filter_head_out (P Q : Z -> Prop) `{!forall x, Decision (P x)}
      `{!forall x, Decision (Q x)} l j rest :
  NoDup l ->
  filter P l = j :: rest ->
  (forall x, Q x <-> P x /\ x <> j) ->
  filter Q l = rest.
Proof.
  intros Hnd. revert j rest.
  induction Hnd as [|x l Hx Hnd IH]; intros j rest Hf HQ; [done|].
  rewrite filter_cons in Hf. rewrite filter_cons.
  destruct (decide (P x)) as [HP|HP].
  - injection Hf as -> <-. rewrite decide_False by (rewrite HQ; tauto).
    apply filter_ext_in. intros y Hy. rewrite HQ.
    split; [tauto|]. intros HPy. split; [done|]. by intros ->.
  - rewrite decide_False by (rewrite HQ; tauto). by eapply IH.
Qed.

Lemma freeLocks_taken m t j rest :
  freeLocks m t = j :: rest -> freeLocks (<[(t, j) := 1]> m) t = rest.
Proof.
  intros Hf. unfold freeLocks in *.
  eapply filter_head_out; [apply NoDup_seqZ|exact Hf|].
  intros x. simpl. destruct (decide (x = j)) as [->|Hne].
  - rewrite usage_insert_eq. split; [lia|tauto].
  - rewrite usage_insert_ne by congruence. tauto.
Qed.

Lemma createElements_free n : forall op m bi bufs lks,
  let t := producerTile op in
  ((n <= length (freeLocks m t))%nat ->
   exists m',
     createElements n op m bi bufs lks
     = Ok (m', bi + Z.of_nat n,
           bufs ++ map (fun k => mkBufferOp (bi + k) t (elemShape op))
                       (seqZ 0 (Z.of_nat n)),
           lks ++ map (mkLockOp t) (take n (freeLocks m t))) /\
     freeLocks m' t = drop n (freeLocks m t) /\
     forall t' i, t' <> t -> usage m' (t', i) = usage m (t', i)) /\
  ((length (freeLocks m t) < n)%nat ->
   createElements n op m bi bufs lks = Fatal NoMoreLocks).
Proof.
  induction n as [|n IH]; intros op m bi bufs lks t.
  { split; [|lia]. intros _. exists m. simpl. rewrite Z.add_0_r, !app_nil_r.
    by rewrite drop_0. }
  simpl createElements. rewrite getLockID_freeLocks. fold t.
  destruct (freeLocks m t) as [|j rest] eqn:Hfree.
  { split; [simpl; lia|done]. }
  assert (0 <= j < 16) as Hj.
  { apply (freeLocks_range m t). rewrite Hfree. left. }
  cbn beta iota.
  destruct (Z.ltb_spec j 0) as [|_]; [lia|].
  pose proof (freeLocks_taken _ _ _ _ Hfree) as Hrest.
  destruct (IH op (<[(t, j) := 1]> m) (bi + 1)
               (bufs ++ [mkBufferOp bi t (elemShape op)])
               (lks ++ [mkLockOp t j])) as [IHok IHfail].
  fold t in IHok, IHfail. rewrite Hrest in IHok, IHfail.
  split.
  - intros Hle. simpl in Hle.
    destruct IHok as (m' & -> & Hfree' & Hframe); [lia|].
    exists m'. split; [|split; [done|]].
    + f_equal. f_equal; [f_equal; [f_equal; lia|]|].
      * rewrite <- app_assoc. f_equal. rewrite Nat2Z.inj_succ.
        rewrite (seqZ_cons 0 (Z.succ (Z.of_nat n))) by lia. simpl. rewrite Z.add_0_r. f_equal.
        replace (Z.pred (Z.succ (Z.of_nat n))) with (Z.of_nat n) by lia.
        rewrite <- (fmap_add_seqZ 1 0), <- list_fmap_compose.
        apply list_fmap_ext. intros _ k _. simpl. f_equal. lia.
      * by rewrite <- app_assoc.
    + intros t' i Hne. rewrite Hframe by done.
      apply usage_insert_ne. congruence.
  - intros Hlt. simpl in Hlt. apply IHfail. lia.
Qed.

End FreeLocks.

Section ElementsOfAFifo.
Import LockAnalysis.

Lemma freeLocks_frame m m' t :
  (forall i, usage m' (t, i) = usage m (t, i)) -> freeLocks m' t = freeLocks m t.
Proof.
  intros Heq. unfold freeLocks. apply list_filter_iff. intros i. by rewrite Heq.
Qed.

(** X1. [createObjectFifoElements] succeeds exactly when the producer
    tile has at least as many free lock ids as the fifo has elements.  The
    locks of the fifo are then the smallest free ids of the tile, in
    ascending order; these ids are no longer free afterwards, and the free
    ids of every other tile are what they were.  With fewer free ids it
    stops on "No more locks to allocate!". *)
Theorem createObjectFifoElements_takes_free_locks st op :
  let t := producerTile op in
  let free := freeLocks (locksPerTile st) t in
  let n := Z.to_nat (size op) in
  ((n <= length free)%nat ->
   exists st',
     createObjectFifoElements st op = Ok st' /\
     locksPerFifo st' !! fifo_result op = Some (map (mkLockOp t) (take n free)) /\
     freeLocks (locksPerTile st') t = drop n free /\
     forall t', t' <> t ->
       freeLocks (locksPerTile st') t' = freeLocks (locksPerTile st) t') /\
  ((length free < n)%nat -> createObjectFifoElements st op = Fatal NoMoreLocks).
Proof.
  cbv zeta. unfold createObjectFifoElements.
  destruct (createElements_free (Z.to_nat (size op)) op (locksPerTile st)
              (buff_index st) [] []) as [Hok Hfail].
  split.
  - intros Hle. destruct (Hok Hle) as (m' & -> & Hfree & Hframe).
    eexists. split; [reflexivity|]. simpl. rewrite lookup_insert_eq.
    split; [done|]. split; [done|].
    intros t' Hne. apply freeLocks_frame. intros i. by apply Hframe.
  - intros Hlt. by rewrite (Hfail Hlt).
Qed.

(** X2. When [createObjectFifoElements] returns, the buffers of the fifo
    are named [buff_index], [buff_index + 1], ... in order, stand on the
    producer tile and have the element shape of the fifo; [buff_index] has
    advanced by the number of elements; the buffers and locks recorded for
    other fifos and the split fifos are untouched. *)
Theorem createObjectFifoElements_names_buffers st op st' :
  createObjectFifoElements st op = Ok st' ->
  buffersPerFifo st' !! fifo_result op
  = Some (map (fun k => mkBufferOp (buff_index st + k) (producerTile op) (elemShape op))
              (seqZ 0 (Z.of_nat (Z.to_nat (size op))))) /\
  buff_index st' = buff_index st + Z.of_nat (Z.to_nat (size op)) /\
  (forall q, q <> fifo_result op ->
     buffersPerFifo st' !! q = buffersPerFifo st !! q /\
     locksPerFifo st' !! q = locksPerFifo st !! q) /\
  splitFifos st' = splitFifos st.
Proof.
  unfold createObjectFifoElements.
  destruct (createElements_free (Z.to_nat (size op)) op (locksPerTile st)
              (buff_index st) [] []) as [Hok Hfail].
  destruct (decide (Z.to_nat (size op)
                    <= length (freeLocks (locksPerTile st) (producerTile op)))%nat)
    as [Hle|Hgt].
  - destruct (Hok Hle) as (m' & -> & _). intros [= <-]. simpl.
    rewrite lookup_insert_eq. split; [done|]. split; [done|]. split; [|done].
    intros q Hq. by rewrite !lookup_insert_ne.
  - rewrite Hfail by lia. done.
Qed.

Lemma createObjectFifoElements_names_buffers_witness :
  let st' := from_result emptyState (createObjectFifoElements emptyState fifoFar) in
  buffersPerFifo st' !! 10%nat
  = Some [mkBufferOp 0 1%nat [16]; mkBufferOp 1 1%nat [16]] /\
  buff_index st' = 2.
Proof.
  destruct (createObjectFifoElements_names_buffers emptyState fifoFar
              (from_result emptyState (createObjectFifoElements emptyState fifoFar)))
    as (Hb & Hi & _); [vm_compute; reflexivity|].
  split; [exact Hb|exact Hi].
Defined.

Lemma serve_was_free tiles : forall m p,
  p ∈ (serve m tiles).1 -> 0 <= p.2 -> usage m p = 0.
Proof.
  induction tiles as [|t tiles IH]; intros m p Hin Hp.
  { by apply elem_of_nil in Hin. }
  simpl in Hin.
  destruct (getLockID m t) as [id m'] eqn:Hget.
  destruct (serve m' tiles) as [rest m''] eqn:Hserve. simpl in Hin.
  destruct (getLockID_cases m t) as [(r & Hr & Hfree & Heq)|Heq];
    rewrite Hget in Heq; injection Heq as -> ->.
  - apply elem_of_cons in Hin as [->|Hin]; [done|].
    specialize (IH (<[(t, r) := 1]> m) p). rewrite Hserve in IH.
    specialize (IH Hin Hp).
    destruct (decide ((t, r) = p)) as [<-|Hne].
    + rewrite usage_insert_eq in IH. lia.
    + by rewrite usage_insert_ne in IH.
  - apply elem_of_cons in Hin as [->|Hin]; [simpl in Hp; lia|].
    specialize (IH m p). rewrite Hserve in IH. by apply IH.
Qed.

(** X3. Whatever requests [getLockID] serves one after the other, it
    never hands out the same lock of a tile twice: the pairs it returned
    with an id are pairwise different, every id lies in 0..15, and every
    pair was free before the first request. *)
Theorem serve_no_lock_twice m tiles :
  NoDup (filter (fun p => 0 <= p.2) (serve m tiles).1) /\
  Forall (fun p => p.2 = -1 \/ 0 <= p.2 < 16 /\ usage m p = 0) (serve m tiles).1.
Proof.
  split.
  - revert m. induction tiles as [|t tiles IH]; intros m; [constructor|].
    simpl.
    destruct (getLockID m t) as [id m'] eqn:Hget.
    pose proof (serve_was_free tiles m') as Hfree.
    specialize (IH m').
    destruct (serve m' tiles) as [rest m''] eqn:Hserve. simpl in *.
    rewrite filter_cons. simpl.
    destruct (decide (0 <= id)) as [Hid|_]; [|done].
    constructor; [|done].
    intros Hin. apply list_elem_of_filter in Hin as [_ Hin].
    specialize (Hfree _ Hin Hid).
    destruct (getLockID_cases m t) as [(r & Hr & _ & Heq)|Heq];
      rewrite Hget in Heq; injection Heq as -> ->; [|lia].
    rewrite usage_insert_eq in Hfree. lia.
  - revert m. induction tiles as [|t tiles IH]; intros m; [constructor|].
    simpl.
    destruct (getLockID m t) as [id m'] eqn:Hget.
    specialize (IH m').
    destruct (serve m' tiles) as [rest m''] eqn:Hserve. simpl in *.
    destruct (getLockID_cases m t) as [(r & Hr & Hr0 & Heq)|Heq];
      rewrite Hget in Heq; injection Heq as -> ->.
    + constructor; [right; by split|].
      eapply Forall_impl; [exact IH|]. intros p [Hp|[Hp Hu]]; [by left|right].
      split; [done|]. destruct (decide ((t, r) = p)) as [<-|Hne].
      * rewrite usage_insert_eq in Hu. lia.
      * by rewrite usage_insert_ne in Hu.
    + constructor; [by left|]. done.
Qed.

End ElementsOfAFifo.

(** ** The channel analysis and the tile DMAs of the split fifos *)

Section ChannelBudget.
Import DMAChannelAnalysis.

Lemma serveRequests_app a reqs1 reqs2 :
  serveRequests a (reqs1 ++ reqs2) = a' ← serveRequests a reqs1; serveRequests a' reqs2.
Proof.
  revert a. induction reqs1 as [|p reqs1 IH]; intros a; [done|].
  simpl. destruct (requestChannel a p) as [[ch a']|e]; simpl; [apply IH|done].
Qed.

Section Constructor.
Variable isSend : DMAChan -> bool.

Lemma visitOps_serve tile ops : forall a,
  visitOps isSend a tile ops
  = serveRequests a (omap (fun o => match o with
                                    | DMAStart channel _ _ => Some (tile, isSend channel)
                                    | _ => None
                                    end) ops).
Proof.
  induction ops as [|o ops IH]; intros a; [done|].
  destruct o; simpl; try apply IH.
  unfold requestChannel. simpl.
  destruct (if isSend channel then _ else _) as [[ch a']|e]; simpl; [apply IH|done].
Qed.

Lemma visitBlocks_serve tile blocks : forall a,
  visitBlocks isSend a tile blocks
  = serveRequests a (flat_map (fun bl =>
      omap (fun o => match o with
                     | DMAStart channel _ _ => Some (tile, isSend channel)
                     | _ => None
                     end) (blk_ops bl)) blocks).
Proof.
  induction blocks as [|bl blocks IH]; intros a; [done|].
  simpl. rewrite serveRequests_app, visitOps_serve.
  destruct (serveRequests a _) as [a'|e]; simpl; [apply IH|done].
Qed.

Lemma visitMems_serve mems : forall a,
  visitMems isSend a mems = serveRequests a (dmaStarts isSend mems).
Proof.
  induction mems as [|memOp mems IH]; intros a; [done|].
  simpl. unfold dmaStarts. simpl. rewrite serveRequests_app, visitBlocks_serve.
  destruct (serveRequests a _) as [a'|e]; simpl; [apply IH|done].
Qed.

End Constructor.

Lemma channelsUsed_snoc r served p :
  channelsUsed r (served ++ [p])
  = (channelsUsed r served + if decide (p = r) then 1 else 0)%nat.
Proof.
  unfold channelsUsed. rewrite filter_app, length_app. f_equal.
  rewrite filter_cons, filter_nil. by destruct (decide _).
Qed.

Lemma channelsUsed_app r reqs1 reqs2 :
  channelsUsed r (reqs1 ++ reqs2) = (channelsUsed r reqs1 + channelsUsed r reqs2)%nat.
Proof. unfold channelsUsed. by rewrite filter_app, length_app. Qed.

Lemma hasServed_empty : hasServed empty [].
Proof. intros tile. split; apply lookup_empty. Qed.

Lemma hasServed_master a served tile :
  hasServed a served ->
  hasServed (mk (<[tile := Z.of_nat (channelsUsed (tile, true) served)]>
                   (masterChannelsPerTile a)) (slaveChannelsPerTile a))
            (served ++ [(tile, true)]).
Proof.
  intros Hinv tile'. simpl. rewrite !channelsUsed_snoc.
  destruct (Hinv tile') as [Hm Hs]. split.
  - destruct (decide (tile = tile')) as [<-|Hne].
    + rewrite lookup_insert_eq, decide_True by done.
      by rewrite Nat.add_1_r.
    + rewrite lookup_insert_ne by done. rewrite decide_False by congruence.
      by rewrite Nat.add_0_r.
  - rewrite decide_False by congruence. by rewrite Nat.add_0_r.
Qed.

Lemma hasServed_slave a served tile :
  hasServed a served ->
  hasServed (mk (masterChannelsPerTile a)
                (<[tile := Z.of_nat (channelsUsed (tile, false) served)]>
                   (slaveChannelsPerTile a)))
            (served ++ [(tile, false)]).
Proof.
  intros Hinv tile'. simpl. rewrite !channelsUsed_snoc.
  destruct (Hinv tile') as [Hm Hs]. split.
  - rewrite decide_False by congruence. by rewrite Nat.add_0_r.
  - destruct (decide (tile = tile')) as [<-|Hne].
    + rewrite lookup_insert_eq, decide_True by done.
      by rewrite Nat.add_1_r.
    + rewrite lookup_insert_ne by done. rewrite decide_False by congruence.
      by rewrite Nat.add_0_r.
Qed.

(** The [k]-th requestChannel of a kind on a tile gets channel [k] of that kind,
    for [k] 0 and 1; there is no third channel. *)
Lemma request_step a served r :
  hasServed a served ->
  match channelsUsed r served with
  | 0%nat => exists a', requestChannel a r = Done (if r.2 then MM2S0 else S2MM0, a') /\
                        hasServed a' (served ++ [r])
  | 1%nat => exists a', requestChannel a r = Done (if r.2 then MM2S1 else S2MM1, a') /\
                        hasServed a' (served ++ [r])
  | _ => requestChannel a r = Stopped (if r.2 then AllMasterChannelsInUse
                                else AllSlaveChannelsInUse)
  end.
Proof.
  intros Hinv. destruct r as [tile [|]]; simpl.
  - pose proof (hasServed_master a served tile Hinv) as Hnext.
    destruct (Hinv tile) as [Hm _]. unfold requestChannel, getMasterDMAChannel. simpl.
    rewrite Hm.
    destruct (channelsUsed (tile, true) served) as [|[|n]]; simpl.
    + eexists. split; [reflexivity|exact Hnext].
    + eexists. split; [reflexivity|exact Hnext].
    + destruct (Z.ltb_spec (Z.of_nat (S n)) 1); [lia|done].
  - pose proof (hasServed_slave a served tile Hinv) as Hnext.
    destruct (Hinv tile) as [_ Hs]. unfold requestChannel, getSlaveDMAChannel. simpl.
    rewrite Hs.
    destruct (channelsUsed (tile, false) served) as [|[|n]]; simpl.
    + eexists. split; [reflexivity|exact Hnext].
    + eexists. split; [reflexivity|exact Hnext].
    + destruct (Z.ltb_spec (Z.of_nat (S n)) 1); [lia|done].
Qed.

Lemma request_done a served r ch a' :
  hasServed a served -> requestChannel a r = Done (ch, a') ->
  hasServed a' (served ++ [r]) /\ (channelsUsed r served < 2)%nat /\
  channelToPortNum ch = Z.of_nat (channelsUsed r served).
Proof.
  intros Hinv Hreq. pose proof (request_step a served r Hinv) as Hstep.
  destruct (channelsUsed r served) as [|[|n]].
  - destruct Hstep as (a1 & Heq & Hnext). rewrite Hreq in Heq.
    injection Heq as -> ->. split; [done|]. split; [lia|]. by destruct (r.2).
  - destruct Hstep as (a1 & Heq & Hnext). rewrite Hreq in Heq.
    injection Heq as -> ->. split; [done|]. split; [lia|]. by destruct (r.2).
  - by rewrite Hreq in Hstep.
Qed.

Lemma serveRequests_budget reqs : forall a served,
  hasServed a served ->
  (forall r, (channelsUsed r served <= 2)%nat) ->
  ((forall r, (channelsUsed r (served ++ reqs) <= 2)%nat) ->
   exists a', serveRequests a reqs = Done a' /\ hasServed a' (served ++ reqs)) /\
  ((exists r, (2 < channelsUsed r (served ++ reqs))%nat) ->
   stopped (serveRequests a reqs) = true).
Proof.
  induction reqs as [|p reqs IH]; intros a served Hinv Hbound.
  { rewrite app_nil_r. split; [by exists a|].
    intros [r Hr]. specialize (Hbound r). lia. }
  pose proof (request_step a served p Hinv) as Hstep.
  assert (forall r, channelsUsed r (served ++ p :: reqs)
                    = channelsUsed r ((served ++ [p]) ++ reqs)) as Hcount.
  { intros r. by rewrite <- app_assoc. }
  assert (served ++ p :: reqs = (served ++ [p]) ++ reqs) as Happ
    by (by rewrite <- app_assoc).
  simpl serveRequests.
  destruct (channelsUsed p served) as [|[|n]] eqn:Hk.
  - destruct Hstep as (a' & -> & Hnext). simpl. rewrite Happ.
    apply IH; [done|]. intros r. rewrite channelsUsed_snoc.
    destruct (decide (p = r)) as [<-|_]; [lia|]. specialize (Hbound r). lia.
  - destruct Hstep as (a' & -> & Hnext). simpl. rewrite Happ.
    apply IH; [done|]. intros r. rewrite channelsUsed_snoc.
    destruct (decide (p = r)) as [<-|_]; [lia|]. specialize (Hbound r). lia.
  - rewrite Hstep. simpl. split; [|done].
    intros Hall. specialize (Hall p). rewrite Happ, channelsUsed_app in Hall.
    rewrite channelsUsed_snoc, decide_True in Hall by done.
    specialize (Hbound p). lia.
Qed.

Lemma serveRequests_served reqs : forall a served a',
  hasServed a served -> serveRequests a reqs = Done a' ->
  hasServed a' (served ++ reqs).
Proof.
  induction reqs as [|p reqs IH]; intros a served a' Hinv Hdone.
  { rewrite app_nil_r. by injection Hdone as <-. }
  simpl in Hdone. destruct (requestChannel a p) as [[ch a1]|e] eqn:Hreq; [|done].
  simpl in Hdone. apply (request_done _ _ _ _ _ Hinv) in Hreq as (Hnext & _).
  rewrite (cons_middle p), app_assoc. by eapply IH.
Qed.

End ChannelBudget.

Section ChannelTheorems.
Import DMAChannelAnalysis.
Variable isSend : DMAChan -> bool.

Lemma init_served mems a :
  init isSend mems = Done a -> hasServed a (dmaStarts isSend mems).
Proof.
  unfold init. rewrite visitMems_serve. intros Hdone.
  by apply (serveRequests_served _ empty [] a hasServed_empty).
Qed.

Lemma init_bound mems a r :
  init isSend mems = Done a -> (channelsUsed r (dmaStarts isSend mems) <= 2)%nat.
Proof.
  unfold init. rewrite visitMems_serve. intros Hdone.
  destruct (serveRequests_budget (dmaStarts isSend mems) empty [] hasServed_empty)
    as [_ Hstop]; [intros r'; by apply Nat.le_0_l|].
  destruct (le_lt_dec (channelsUsed r (dmaStarts isSend mems)) 2) as [|Hlt]; [done|].
  rewrite Hdone in Hstop. simpl in Hstop.
  discriminate Hstop. by exists r.
Qed.

(** X4. The constructor of the channel analysis counts the [DMAStartOp]s
    of the module, per tile and direction.  With at most two of a kind on
    every tile it returns, and the entry of a tile is missing (no start),
    0 (one start) or 1 (two starts), whatever channels the starts name;
    with a third start of a kind on some tile it stops on an
    assertion. *)
Theorem init_counts_dma_starts mems :
  ((forall r, (channelsUsed r (dmaStarts isSend mems) <= 2)%nat) ->
   exists a,
     init isSend mems = Done a /\
     forall tile,
       masterChannelsPerTile a !! tile
       = entryAfter (channelsUsed (tile, true) (dmaStarts isSend mems)) /\
       slaveChannelsPerTile a !! tile
       = entryAfter (channelsUsed (tile, false) (dmaStarts isSend mems))) /\
  ((exists r, (2 < channelsUsed r (dmaStarts isSend mems))%nat) ->
   stopped (init isSend mems) = true).
Proof.
  unfold init. rewrite visitMems_serve.
  destruct (serveRequests_budget (dmaStarts isSend mems) empty [] hasServed_empty)
    as [Hok Hstop]; [intros r'; by apply Nat.le_0_l|].
  split; [|exact Hstop].
  intros Hall. destruct (Hok Hall) as (a & Hdone & Hserved). by exists a.
Qed.

Lemma getMaster_left a tile k :
  masterChannelsPerTile a !! tile = entryAfter k ->
  match k with
  | 0%nat => exists a1 a2,
      getMasterDMAChannel a tile = Done (MM2S0, a1) /\
      getMasterDMAChannel a1 tile = Done (MM2S1, a2) /\
      getMasterDMAChannel a2 tile = Stopped AllMasterChannelsInUse
  | 1%nat => exists a1,
      getMasterDMAChannel a tile = Done (MM2S1, a1) /\
      getMasterDMAChannel a1 tile = Stopped AllMasterChannelsInUse
  | _ => getMasterDMAChannel a tile = Stopped AllMasterChannelsInUse
  end.
Proof.
  intros Hm. unfold getMasterDMAChannel.
  destruct k as [|[|n]]; simpl in Hm; rewrite Hm.
  - eexists _, _. split; [reflexivity|]. simpl. rewrite lookup_insert_eq. simpl.
    split; [reflexivity|]. simpl. by rewrite lookup_insert_eq.
  - eexists. split; [reflexivity|]. simpl. by rewrite lookup_insert_eq.
  - destruct (Z.ltb_spec (Z.of_nat (S n)) 1); [lia|done].
Qed.

Lemma getSlave_left a tile k :
  slaveChannelsPerTile a !! tile = entryAfter k ->
  match k with
  | 0%nat => exists a1 a2,
      getSlaveDMAChannel a tile = Done (S2MM0, a1) /\
      getSlaveDMAChannel a1 tile = Done (S2MM1, a2) /\
      getSlaveDMAChannel a2 tile = Stopped AllSlaveChannelsInUse
  | 1%nat => exists a1,
      getSlaveDMAChannel a tile = Done (S2MM1, a1) /\
      getSlaveDMAChannel a1 tile = Stopped AllSlaveChannelsInUse
  | _ => getSlaveDMAChannel a tile = Stopped AllSlaveChannelsInUse
  end.
Proof.
  intros Hm. unfold getSlaveDMAChannel.
  destruct k as [|[|n]]; simpl in Hm; rewrite Hm.
  - eexists _, _. split; [reflexivity|]. simpl. rewrite lookup_insert_eq. simpl.
    split; [reflexivity|]. simpl. by rewrite lookup_insert_eq.
  - eexists. split; [reflexivity|]. simpl. by rewrite lookup_insert_eq.
  - destruct (Z.ltb_spec (Z.of_nat (S n)) 1); [lia|done].
Qed.

(** X5. After the constructor, a tile has as many channels of a kind left
    as it has fewer than two [DMAStartOp]s of that kind: with none, the
    requests get channel 0, then channel 1, then the assertion "All tile
    DMA master (slave) channels are already in use."; with one, channel 1
    and then the assertion; with two, the assertion at once. *)
Theorem channels_left_after_init mems a tile :
  init isSend mems = Done a ->
  match channelsUsed (tile, true) (dmaStarts isSend mems) with
  | 0%nat => exists a1 a2,
      getMasterDMAChannel a tile = Done (MM2S0, a1) /\
      getMasterDMAChannel a1 tile = Done (MM2S1, a2) /\
      getMasterDMAChannel a2 tile = Stopped AllMasterChannelsInUse
  | 1%nat => exists a1,
      getMasterDMAChannel a tile = Done (MM2S1, a1) /\
      getMasterDMAChannel a1 tile = Stopped AllMasterChannelsInUse
  | _ => getMasterDMAChannel a tile = Stopped AllMasterChannelsInUse
  end /\
  match channelsUsed (tile, false) (dmaStarts isSend mems) with
  | 0%nat => exists a1 a2,
      getSlaveDMAChannel a tile = Done (S2MM0, a1) /\
      getSlaveDMAChannel a1 tile = Done (S2MM1, a2) /\
      getSlaveDMAChannel a2 tile = Stopped AllSlaveChannelsInUse
  | 1%nat => exists a1,
      getSlaveDMAChannel a tile = Done (S2MM1, a1) /\
      getSlaveDMAChannel a1 tile = Stopped AllSlaveChannelsInUse
  | _ => getSlaveDMAChannel a tile = Stopped AllSlaveChannelsInUse
  end.
Proof.
  intros Hinit. destruct (init_served _ _ Hinit tile) as [Hm Hs].
  split; [by apply getMaster_left|by apply getSlave_left].
Qed.

End ChannelTheorems.

Section SplitDMAs.
Import DMAChannelAnalysis.

Lemma createConsumerDMAs_ports st consumers : forall ds served ds' dests,
  hasServed (dmaAnalysis ds) served ->
  createConsumerDMAs st ds consumers = Done (ds', dests) ->
  hasServed (dmaAnalysis ds') (served ++ consumerRequests consumers) /\
  Forall2 (fun consumer d => md_tile d = producerTile consumer) consumers dests /\
  forall j consumer d,
    consumers !! j = Some consumer -> dests !! j = Some d ->
    md_port d = Z.of_nat (channelsUsed (producerTile consumer, false)
                            (served ++ consumerRequests (take j consumers))) /\
    0 <= md_port d <= 1.
Proof.
  induction consumers as [|c consumers IH]; intros ds served ds' dests Hinv Hdone.
  { injection Hdone as <- <-. rewrite app_nil_r. split; [done|]. split; [constructor|].
    intros j ? ? Hj. by rewrite lookup_nil in Hj. }
  simpl in Hdone.
  destruct (getSlaveDMAChannel (dmaAnalysis ds) (producerTile c)) as [[ch a]|e] eqn:Hreq;
    [|done].
  simpl in Hdone.
  destruct (createDMA st (ds_mems ds) (ds_fresh ds) c ch 1) as [[mems fresh]|e];
    [|done].
  simpl in Hdone.
  destruct (createConsumerDMAs st _ consumers) as [[ds1 dests1]|e] eqn:Hrest; [|done].
  injection Hdone as <- <-.
  destruct (request_done _ served (producerTile c, false) ch a Hinv Hreq)
    as (Hnext & Hlt & Hport).
  destruct (IH (mkDmaState a mems fresh) _ _ _ Hnext Hrest) as (Hserved & Hall & Hports).
  split; [|split].
  - simpl. by rewrite (cons_middle _ served), app_assoc.
  - by constructor.
  - intros [|j] consumer d Hc Hd; simpl in Hc, Hd.
    + injection Hc as <-. injection Hd as <-. simpl. rewrite app_nil_r.
      split; [done|]. rewrite Hport. lia.
    + destruct (Hports j consumer d Hc Hd) as [Hp Hr]. split; [|done].
      rewrite Hp. simpl. by rewrite <- app_assoc.
Qed.

Lemma createSplitDMAs_ports st ds producer consumers served ds' multicast :
  hasServed (dmaAnalysis ds) served ->
  createSplitDMAs st ds producer consumers = Done (ds', multicast) ->
  hasServed (dmaAnalysis ds') (served ++ dmaRequests [(producer, consumers)]) /\
  mc_tile multicast = producerTile producer /\
  mc_port multicast = Z.of_nat (channelsUsed (producerTile producer, true) served) /\
  0 <= mc_port multicast <= 1 /\
  Forall2 (fun consumer d => md_tile d = producerTile consumer)
          consumers (mc_dests multicast) /\
  forall j consumer d,
    consumers !! j = Some consumer -> mc_dests multicast !! j = Some d ->
    md_port d = Z.of_nat (channelsUsed (producerTile consumer, false)
                            (served ++ consumerRequests (take j consumers))) /\
    0 <= md_port d <= 1.
Proof.
  intros Hinv Hdone. unfold createSplitDMAs in Hdone.
  destruct (getMasterDMAChannel (dmaAnalysis ds) (producerTile producer))
    as [[ch a]|e] eqn:Hreq; [|done].
  simpl in Hdone.
  destruct (createDMA st (ds_mems ds) (ds_fresh ds) producer ch 0) as [[mems fresh]|e];
    [|done].
  simpl in Hdone.
  destruct (createConsumerDMAs st _ consumers) as [[ds1 dests]|e] eqn:Hrest; [|done].
  injection Hdone as <- <-.
  destruct (request_done _ served (producerTile producer, true) ch a Hinv Hreq)
    as (Hnext & Hlt & Hport).
  destruct (createConsumerDMAs_ports _ _ (mkDmaState a mems fresh) _ _ _ Hnext Hrest)
    as (Hserved & Hall & Hports).
  simpl. rewrite app_nil_r.
  split; [by rewrite (cons_middle _ served), app_assoc|].
  split; [done|]. split; [done|]. split; [rewrite Hport; lia|]. split; [done|].
  intros j consumer d Hc Hd. destruct (Hports j consumer d Hc Hd) as [Hp Hr].
  split; [|done]. rewrite Hp. rewrite <- app_assoc, !channelsUsed_app.
  unfold channelsUsed at 2. simpl. rewrite filter_cons, decide_False, filter_nil by done.
  simpl. lia.
Qed.

Lemma createAllDMAs_ports st entries : forall ds served ds' multicasts,
  hasServed (dmaAnalysis ds) served ->
  createAllDMAs st ds entries = Done (ds', multicasts) ->
  hasServed (dmaAnalysis ds') (served ++ dmaRequests entries) /\
  length multicasts = length entries /\
  forall i producer consumers multicast,
    entries !! i = Some (producer, consumers) -> multicasts !! i = Some multicast ->
    let before := served ++ dmaRequests (take i entries) in
    mc_tile multicast = producerTile producer /\
    mc_port multicast = Z.of_nat (channelsUsed (producerTile producer, true) before) /\
    0 <= mc_port multicast <= 1 /\
    Forall2 (fun consumer d => md_tile d = producerTile consumer)
            consumers (mc_dests multicast) /\
    forall j consumer d,
      consumers !! j = Some consumer -> mc_dests multicast !! j = Some d ->
      md_port d = Z.of_nat (channelsUsed (producerTile consumer, false)
                              (before ++ consumerRequests (take j consumers))) /\
      0 <= md_port d <= 1.
Proof.
  induction entries as [|[producer consumers] entries IH];
    intros ds served ds' multicasts Hinv Hdone.
  { injection Hdone as <- <-. rewrite app_nil_r. split; [done|]. split; [done|].
    intros i ? ? ? Hi. by rewrite lookup_nil in Hi. }
  simpl in Hdone.
  destruct (createSplitDMAs st ds producer consumers) as [[ds1 mc]|e] eqn:Hone; [|done].
  simpl in Hdone.
  destruct (createAllDMAs st ds1 entries) as [[ds2 mcs]|e] eqn:Hrest; [|done].
  injection Hdone as <- <-.
  destruct (createSplitDMAs_ports _ _ _ _ _ _ _ Hinv Hone) as (Hnext & Hone').
  destruct (IH _ _ _ _ Hnext Hrest) as (Hserved & Hlen & Hports).
  assert (forall l, served ++ dmaRequests ((producer, consumers) :: l)
                    = (served ++ dmaRequests [(producer, consumers)]) ++ dmaRequests l)
    as Happ.
  { intros l. unfold dmaRequests. simpl. rewrite app_nil_r.
    by rewrite <- !app_assoc. }
  split; [by rewrite Happ|]. split; [simpl; by rewrite Hlen|].
  intros [|i] p cs m Hi Hm; simpl in Hi, Hm.
  - injection Hi as <- <-. injection Hm as <-. simpl. rewrite app_nil_r. exact Hone'.
  - specialize (Hports i p cs m Hi Hm). simpl in Hports. simpl take.
    by rewrite Happ.
Qed.

Lemma createConsumerDMAs_requests st consumers : forall ds ds' dests,
  createConsumerDMAs st ds consumers = Done (ds', dests) ->
  serveRequests (dmaAnalysis ds) (consumerRequests consumers) = Done (dmaAnalysis ds').
Proof.
  induction consumers as [|c consumers IH]; intros ds ds' dests Hdone.
  { by injection Hdone as <- <-. }
  simpl in Hdone. simpl. unfold requestChannel. simpl.
  destruct (getSlaveDMAChannel (dmaAnalysis ds) (producerTile c)) as [[ch a]|e]; [|done].
  simpl in *.
  destruct (createDMA st (ds_mems ds) (ds_fresh ds) c ch 1) as [[mems fresh]|e];
    [|done].
  simpl in Hdone.
  destruct (createConsumerDMAs st _ consumers) as [[ds1 dests1]|e] eqn:Hrest; [|done].
  injection Hdone as <- <-. by apply IH in Hrest.
Qed.

Lemma createAllDMAs_requests st entries : forall ds ds' multicasts,
  createAllDMAs st ds entries = Done (ds', multicasts) ->
  serveRequests (dmaAnalysis ds) (dmaRequests entries) = Done (dmaAnalysis ds').
Proof.
  induction entries as [|[producer consumers] entries IH]; intros ds ds' mcs Hdone.
  { by injection Hdone as <- <-. }
  simpl in Hdone. unfold createSplitDMAs in Hdone.
  change (dmaRequests ((producer, consumers) :: entries))
    with ((producerTile producer, true)
          :: consumerRequests consumers ++ dmaRequests entries).
  simpl. unfold requestChannel at 1. simpl.
  destruct (getMasterDMAChannel (dmaAnalysis ds) (producerTile producer))
    as [[ch a]|e]; [|done].
  simpl in *.
  destruct (createDMA st (ds_mems ds) (ds_fresh ds) producer ch 0) as [[mems fresh]|e];
    [|done].
  simpl in Hdone.
  destruct (createConsumerDMAs st _ consumers) as [[ds1 dests]|e] eqn:Hcons; [|done].
  simpl in Hdone.
  destruct (createAllDMAs st ds1 entries) as [[ds2 mcs2]|e] eqn:Hrest; [|done].
  injection Hdone as <- <-.
  rewrite serveRequests_app. apply createConsumerDMAs_requests in Hcons.
  simpl in Hcons. rewrite Hcons. simpl. by apply IH in Hrest.
Qed.

End SplitDMAs.



Section SplitDMATheorems.
Import DMAChannelAnalysis.
Variable isSend : DMAChan -> bool.

(** X6. The loop over the split fifos asks for a master channel per split
    fifo and a slave channel per consumer fifo.  When these requests and
    the [DMAStartOp]s that the module already holds ask for more than two
    channels of a kind on some tile, the loop does not end normally, even
    for fifos without elements. *)
Theorem createAllDMAs_channel_budget st mems ds entries :
  init isSend mems = Done (dmaAnalysis ds) ->
  (exists r, (2 < channelsUsed r (dmaStarts isSend mems ++ dmaRequests entries))%nat) ->
  stopped (createAllDMAs st ds entries) = true.
Proof.
  intros Hinit Hover.
  destruct (createAllDMAs st ds entries) as [[ds' mcs]|e] eqn:Hrun; [|done].
  apply createAllDMAs_requests in Hrun.
  destruct (serveRequests_budget (dmaRequests entries) (dmaAnalysis ds)
              (dmaStarts isSend mems)) as [_ Hstop].
  - by apply init_served.
  - intros r. by eapply init_bound.
  - rewrite Hrun in Hstop. by apply Hstop.
Qed.

(** X7. When the loop over the split fifos ends normally it has built one
    multicast per split fifo, on the tile of the fifo, with one destination
    per consumer fifo, on the tile of that fifo and in the order of the
    consumer fifos.  The port of the multicast is the number of master
    channels its tile had in use before (0 or 1), and the port of a
    destination the number of slave channels its tile had in use
    before. *)
Theorem multicast_ports st mems ds entries ds' multicasts :
  init isSend mems = Done (dmaAnalysis ds) ->
  createAllDMAs st ds entries = Done (ds', multicasts) ->
  length multicasts = length entries /\
  forall i producer consumers multicast,
    entries !! i = Some (producer, consumers) -> multicasts !! i = Some multicast ->
    let before := dmaStarts isSend mems ++ dmaRequests (take i entries) in
    mc_tile multicast = producerTile producer /\
    mc_port multicast = Z.of_nat (channelsUsed (producerTile producer, true) before) /\
    0 <= mc_port multicast <= 1 /\
    Forall2 (fun consumer d => md_tile d = producerTile consumer)
            consumers (mc_dests multicast) /\
    forall j consumer d,
      consumers !! j = Some consumer -> mc_dests multicast !! j = Some d ->
      md_port d = Z.of_nat (channelsUsed (producerTile consumer, false)
                              (before ++ consumerRequests (take j consumers))) /\
      0 <= md_port d <= 1.
Proof.
  intros Hinit Hrun.
  destruct (createAllDMAs_ports st entries ds (dmaStarts isSend mems) ds' multicasts)
    as (_ & Hlen & Hports); [by apply init_served|done|].
  by split.
Qed.

End SplitDMATheorems.

Lemma createAllDMAs_channel_budget_witness :
  stopped (createAllDMAs emptyState noDmas
                         entriesThree) = true.
Proof.
  apply (createAllDMAs_channel_budget sendChannel emptyState []
           noDmas entriesThree).
  - reflexivity.
  - exists (tile_result tile12, true). vm_compute. lia.
Defined.

(** Three split fifos on one tile: the third request for a master channel
    stops the loop. *)
Example third_split_fifo_of_a_tile :
  createAllDMAs emptyState noDmas entriesThree
  = Stopped (inl AllMasterChannelsInUse).
Proof. vm_compute. reflexivity. Qed.

Lemma multicast_ports_witness : length dmasTwo.2 = length entriesTwo.
Proof.
  destruct (multicast_ports sendChannel createdTwo.1.1 [] noDmas entriesTwo
              dmasTwo.1 dmasTwo.2) as [Hlen _];
    [reflexivity|vm_compute; reflexivity|exact Hlen].
Defined.

(** The two split fifos of [createdTwo], both from tile (1,2) to tile
    (3,3): the first leaves through port 0 and arrives on port 0, the
    second through port 1 and arrives on port 1. *)
Example dmasTwo_ports :
  dmasTwo.2 = [ mkMulticastOp 1%nat 0 [mkMultiDestOp 3%nat 0];
                mkMulticastOp 1%nat 1 [mkMultiDestOp 3%nat 1] ].
Proof. vm_compute. reflexivity. Qed.

Lemma channels_left_after_init_witness :
  let mems := (from_result ([], 0%nat) (memsAfter 2)).1 in
  let a := match DMAChannelAnalysis.init sendChannel mems with
           | Done a => a | Stopped _ => DMAChannelAnalysis.empty end in
  (exists a1,
     DMAChannelAnalysis.getMasterDMAChannel a 1%nat = Done (MM2S1, a1) /\
     DMAChannelAnalysis.getMasterDMAChannel a1 1%nat = Stopped AllMasterChannelsInUse).
Proof.
  exact (proj1 (channels_left_after_init sendChannel
                  (from_result ([], 0%nat) (memsAfter 2)).1
                  (match DMAChannelAnalysis.init sendChannel
                           (from_result ([], 0%nat) (memsAfter 2)).1 with
                   | Done a => a | Stopped _ => DMAChannelAnalysis.empty end)
                  1%nat ltac:(vm_compute; reflexivity))).
Defined.

(** ** The chain of tile DMAs on one tile *)

Section KeepsChain.

Lemma ring_inside lockMode buffers locks base D :
  length buffers = D -> length locks = D ->
  Forall (fun b => (base <= blk_id b < base + D)%nat /\
                   forall s, s ∈ successors b -> (base <= s < base + D)%nat)
         (ring lockMode buffers locks base D).
Proof.
  intros Hb Hl. destruct (ring_blocks lockMode buffers locks base D Hb Hl) as [Hlen Hring].
  apply Forall_lookup. intros i b Hi.
  assert (i < D)%nat as HiD by (apply lookup_lt_Some in Hi; lia).
  destruct (Hring i HiD) as [Heq _]. rewrite Hi in Heq. symmetry in Heq.
  unfold bdBlockAt in Heq.
  destruct (buffers !! i) as [buff|]; [|done].
  destruct (locks !! i) as [lock|]; [|done].
  simpl in Heq. injection Heq as <-. simpl. split; [lia|].
  intros s Hs. unfold successors in Hs. simpl in Hs.
  apply list_elem_of_singleton in Hs as ->.
  pose proof (Nat.mod_upper_bound (i + 1) D ltac:(lia)). lia.
Qed.

(** X8. [createDMA] keeps the region of an [AIE.mem] chained.  On a tile
    without [AIE.mem] the new region is chained on the new channel.  In a
    region that is chained, the new blocks (one [DMAStart] block and one Bd
    block per element) join the blocks that are there, and the region is
    chained again, now on the new channel: a later [createDMA] on the tile
    finds the [DMAStart] to redirect. *)
Theorem createDMA_keeps_chain st mems fresh op channelMode lockMode buffers locks :
  0 < size op <= 14 ->
  buffersPerFifo st !! fifo_result op = Some buffers ->
  locksPerFifo st !! fifo_result op = Some locks ->
  length buffers = Z.to_nat (size op) -> length locks = Z.to_nat (size op) ->
  (Forall (fun m => mem_tile m <> producerTile op) mems ->
   exists body',
     createDMA st mems fresh op channelMode lockMode
     = Ok (mems ++ [mkMemOp (producerTile op) body'],
           (S (S fresh) + Z.to_nat (size op))%nat) /\
     chained body' (S (S fresh) + Z.to_nat (size op))%nat channelMode) /\
  (forall ms1 body ms2 channel,
     mems = ms1 ++ mkMemOp (producerTile op) body :: ms2 ->
     Forall (fun m => mem_tile m <> producerTile op) ms1 ->
     chained body fresh channel ->
     exists body',
       createDMA st mems fresh op channelMode lockMode
       = Ok (ms1 ++ mkMemOp (producerTile op) body' :: ms2,
             (S fresh + Z.to_nat (size op))%nat) /\
       chained body' (S fresh + Z.to_nat (size op))%nat channelMode /\
       length body' = (length body + S (Z.to_nat (size op)))%nat).
Proof.
  intros Hsize Hbufs Hlocks Hblen Hllen.
  set (D := Z.to_nat (size op)) in *.
  assert (exists n, D = S n) as [n HD].
  { exists (Nat.pred D). subst D. lia. }
  assert (forall i, (i < S n)%nat -> is_Some (buffers !! i) /\ is_Some (locks !! i))
    as Hlook.
  { intros i Hi. split; apply lookup_lt_is_Some_2; lia. }
  assert (createDMA st mems fresh op channelMode lockMode
          = match createChainIn (producerTile op)
                    (createChain D channelMode lockMode buffers locks fresh) mems with
            | Some r => r
            | None =>
                '(body, fresh') ←
                  createChain D channelMode lockMode buffers locks (S fresh)
                              [mkMemBlock fresh [EndOp]];
                mret (mems ++ [mkMemOp (producerTile op) body], fresh')
            end) as ->.
  { unfold createDMA.
    destruct (Z.eqb_spec (size op) 0); [lia|].
    destruct (Z.ltb_spec 14 (size op)); [lia|].
    by rewrite Hbufs, Hlocks. }
  pose proof (fun base => ring_inside lockMode buffers locks base D Hblen Hllen) as Hring.
  destruct (ring_blocks lockMode buffers locks 0 D Hblen Hllen) as [Hrlen _].
  split.
  - intros Hnone. rewrite createChainIn_none by done. rewrite HD.
    pose proof (createChain_general lockMode buffers locks n channelMode (S fresh)
                  [] fresh []) as Hnew.
    cbn [app] in Hnew. rewrite Hnew; try done; [|lia]. rsimpl.
    eexists. split; [reflexivity|].
    exists [], (S fresh), [], (S (S fresh)),
           (ring lockMode buffers locks (S (S fresh)) (S n)), fresh.
    split; [done|]. split; [lia|]. split; [lia|]. split; [lia|]. split; [lia|].
    simpl. rewrite <- HD. eapply Forall_impl; [apply Hring|].
    intros b [Hid Hsucc]. split; [lia|]. split; [lia|]. split; [lia|].
    intros He. specialize (Hsucc _ He). lia.
  - intros ms1 body ms2 channel -> Hms1
           (pre & l & lops & dest & post & e & -> & Hdest & He & Hl & Hle & Hothers).
    set (old := pre ++ mkMemBlock l (lops ++ [DMAStart channel dest e]) :: post).
    set (old' := pre ++ mkMemBlock l (lops ++ [DMAStart channel dest fresh]) :: post).
    pose proof Hothers as Hothers'.
    apply Forall_app in Hothers as [Hpre Hpost].
    assert (createChain D channelMode lockMode buffers locks fresh
              (old ++ [mkMemBlock e [EndOp]])
            = Ok (old' ++ mkMemBlock fresh [DMAStart channelMode (S fresh) e]
                       :: ring lockMode buffers locks (S fresh) D
                       ++ [mkMemBlock e [EndOp]], (S fresh + D)%nat)) as Hchain.
    { rewrite HD. apply createChain_general; try done.
      - subst old. apply Forall_app. split.
        + eapply Forall_impl; [exact Hpre|]. by intros b (? & ? & _).
        + constructor; [done|].
          eapply Forall_impl; [exact Hpost|]. by intros b (? & ? & _).
      - rewrite (getSinglePredecessor_last _ e l).
        + split; [done|]. split; [done|]. subst old old'.
          apply setSuccessor1_hit.
          * eapply Forall_impl; [exact Hpre|]. by intros b (_ & _ & ? & _).
          * eapply Forall_impl; [exact Hpost|]. by intros b (_ & _ & ? & _).
        + exists pre, lops, channel, dest, post. subst old.
          split; [by rewrite <- app_assoc|]. split; [done|].
          eapply Forall_impl; [exact Hothers'|]. by intros b (_ & _ & ? & ?). }
    replace (pre ++ mkMemBlock l (lops ++ [DMAStart channel dest e])
                 :: post ++ [mkMemBlock e [EndOp]])
      with (old ++ [mkMemBlock e [EndOp]])
      by (subst old; by rewrite <- app_assoc).
    rewrite (createChainIn_found _ _ ms1 _ ms2 _ _ Hms1 Hchain).
    eexists. split; [reflexivity|]. split.
    + exists old', fresh, [], (S fresh), (ring lockMode buffers locks (S fresh) D), e.
      split; [done|]. split; [lia|]. split; [lia|]. split; [lia|]. split; [lia|].
      apply Forall_app. split.
      * subst old'. apply Forall_app. split; [|constructor].
        -- eapply Forall_impl; [exact Hpre|]. intros b (? & ? & ? & ?).
           split; [lia|]. split; [done|]. split; [lia|done].
        -- simpl. split; [lia|]. split; [done|]. split; [lia|].
           unfold successors. simpl. rewrite last_snoc.
           intros Hin. apply elem_of_cons in Hin as [->|Hin]; [done|].
           apply list_elem_of_singleton in Hin. lia.
        -- eapply Forall_impl; [exact Hpost|]. intros b (? & ? & ? & ?).
           split; [lia|]. split; [done|]. split; [lia|done].
      * eapply Forall_impl; [apply Hring|].
        intros b [Hid Hsucc]. split; [lia|]. split; [lia|]. split; [lia|].
        intros Hin. specialize (Hsucc _ Hin). lia.
    + destruct (ring_blocks lockMode buffers locks (S fresh) D Hblen Hllen) as [Hr _].
      subst old old'. repeat (rewrite ?length_app, ?length_cons). rewrite Hr.
      simpl. lia.
Qed.

End KeepsChain.

(** ** Sizes, and the loop over the fifos *)

Section Sizes.
Variable cores : list CoreOp.

(** X9. The depth that [findObjectFifoSize] returns holds every acquire
    it has seen, as long as [maxAcquire + 1] does not overflow: for a fifo
    of declared depth other than 0, on a tile where every acquire of the
    fifo asks for fewer than [INT_MAX] elements, no acquire of the fifo in
    a core of the tile asks for more elements than the depth; and an
    acquire of at least one element asks for all of them only when the
    declared depth is 1 and no acquire asks for more than one element. *)
Theorem every_acquire_fits tile q o :
  observes cores tile q o ->
  size q <> 0 ->
  (forall o', observes cores tile q o' -> acqNumber o' < 2 ^ 31 - 1) ->
  acqNumber o <= findObjectFifoSize cores tile q /\
  (0 < acqNumber o -> acqNumber o = findObjectFifoSize cores tile q ->
   size q = 1 /\ forall o', observes cores tile q o' -> acqNumber o' <= 1).
Proof.
  intros Hobs Hsize Hint.
  destruct (maxAcquire_spec cores tile q) as (HM0 & Hmax & Hatt).
  destruct (findObjectFifoSize_rule cores tile q) as [Hzero Hrule].
  pose proof (Hmax o Hobs) as Hle.
  destruct (decide (maxAcquire cores tile q = 0)) as [Hnil|Hsome].
  { rewrite (Hzero (or_intror Hnil)). split; lia. }
  assert (0 < maxAcquire cores tile q < 2 ^ 31 - 1) as HM.
  { split; [lia|]. destruct Hatt as [Hz|(o' & Ho' & <-)]; [lia|by apply Hint]. }
  destruct (Hrule Hsize HM) as (Hge1 & Hone & Hother).
  destruct (decide (size q = 1 /\ maxAcquire cores tile q = 1)) as [[Hs Hm]|Hn].
  - assert (findObjectFifoSize cores tile q = 1) as -> by (by apply Hone).
    split; [lia|]. intros _ _. split; [done|]. intros o' Ho'.
    specialize (Hmax o' Ho'). lia.
  - rewrite (Hother Hn). split; [lia|]. intros _ Heq. lia.
Qed.

End Sizes.

Section Termination.
Variable isLegalMemAffinity : Z -> Z -> Z -> Z -> bool.
Variable cores : list CoreOp.
Hypothesis own_memory : forall col row, isLegalMemAffinity col row col row = true.

Lemma visits_child q consumer child :
  is_child cores q consumer child -> visits isLegalMemAffinity child = 1%nat.
Proof.
  intros (Hp & Hc & _). unfold visits, adjacent. rewrite Hc, Hp.
  by rewrite own_memory.
Qed.

Lemma visits_shared q :
  single_adjacent isLegalMemAffinity q -> visits isLegalMemAffinity q = 1%nat.
Proof. intros (c & Hq & Hadj). unfold visits. by rewrite Hq, Hadj. Qed.

Lemma visits_split q :
  ~ single_adjacent isLegalMemAffinity q ->
  visits isLegalMemAffinity q = S (length (consumerTiles q)).
Proof.
  intros Hns. unfold visits.
  destruct (consumerTiles q) as [|c [|c' l]] eqn:Hq; [done| |done].
  destruct (adjacent isLegalMemAffinity q c) eqn:Hadj; [|done].
  exfalso. apply Hns. exists c. by rewrite Hq.
Qed.

Lemma visits_children q consumers children :
  Forall2 (is_child cores q) consumers children ->
  sum_list_with (visits isLegalMemAffinity) (rev children) = length consumers.
Proof.
  intros Hall.
  induction Hall as [|c ch consumers children Hc Hall IH]; [done|].
  simpl. rewrite sum_list_with_app, IH. simpl.
  rewrite (visits_child _ _ _ Hc). lia.
Qed.

Lemma createAll_fuel fuel : forall todo st fresh,
  (sum_list_with (visits isLegalMemAffinity) todo <= fuel)%nat ->
  exists r,
    createAll isLegalMemAffinity cores fuel st fresh todo = Some r /\
    forall st' fresh' cs, r = Ok (st', fresh', cs) ->
      length cs = sum_list_with (visits isLegalMemAffinity) todo /\
      Forall (fun c => cr_shared c = true -> cr_children c = []) cs.
Proof.
  induction fuel as [|fuel IH]; intros todo st fresh Hfuel.
  { destruct todo as [|q todo].
    - eexists. split; [reflexivity|]. by intros ? ? ? [= <- <- <-].
    - simpl in Hfuel. assert (1 <= visits isLegalMemAffinity q)%nat; [|lia].
      unfold visits. destruct (consumerTiles q) as [|c [|]]; [lia| |simpl; lia].
      destruct (adjacent _ _ _); lia. }
  destruct todo as [|q todo].
  { eexists. split; [reflexivity|]. by intros ? ? ? [= <- <- <-]. }
  simpl createAll. simpl in Hfuel.
  destruct (createOne isLegalMemAffinity cores st fresh q) as [c|e] eqn:Hone.
  2:{ eexists. split; [reflexivity|]. intros; done. }
  assert (sum_list_with (visits isLegalMemAffinity) (rev (cr_children c))
          = (visits isLegalMemAffinity q - 1)%nat /\
          (1 <= visits isLegalMemAffinity q)%nat /\
          (cr_shared c = true -> cr_children c = [])) as (Hkids & Hq1 & Hsh).
  { destruct (single_adjacent_dec isLegalMemAffinity q) as [Hs|Hno].
    - destruct (createOne_shared _ _ _ _ _ _ Hs Hone) as (_ & -> & _).
      rewrite (visits_shared _ Hs). by repeat split.
    - assert (~ single_adjacent isLegalMemAffinity q) as Hns.
      { intros Hs. by eapply single_adjacent_not_split. }
      destruct (createOne_split _ _ _ _ _ _ Hns Hone) as (Hshared & Hall & _).
      rewrite (visits_children _ _ _ Hall), (visits_split _ Hns).
      split; [lia|]. split; [lia|]. by rewrite Hshared. }
  destruct (IH (rev (cr_children c) ++ todo) (cr_state c) (cr_fresh c))
    as (r & Hr & Hlen).
  { rewrite sum_list_with_app. lia. }
  rewrite Hr. destruct r as [[[st' fresh'] cs]|e].
  - eexists. split; [reflexivity|]. intros ? ? ? [= <- <- <-].
    destruct (Hlen st' fresh' cs eq_refl) as [Hl Hf].
    split; [|by constructor].
    simpl. rewrite Hl, sum_list_with_app. lia.
  - eexists. split; [reflexivity|]. intros; done.
Qed.

End Termination.

(** X10. When a core may use the memory of its own tile, the loop over
    the [ObjectFifoCreateOp]s comes to an end: a consumer fifo, which the
    loop meets after the fifo it was split from, has its tile as producer
    and only consumer and is not split again.  The loop visits each fifo
    and one consumer fifo per consumer of each fifo that does not stay in
    shared memory, and that many visits are enough fuel. *)
Theorem createAll_returns isLegalMemAffinity cores fuel st fresh todo :
  (forall col row, isLegalMemAffinity col row col row = true) ->
  (sum_list_with (visits isLegalMemAffinity) todo <= fuel)%nat ->
  exists r,
    createAll isLegalMemAffinity cores fuel st fresh todo = Some r /\
    forall st' fresh' cs, r = Ok (st', fresh', cs) ->
      length cs = sum_list_with (visits isLegalMemAffinity) todo /\
      Forall (fun c => cr_shared c = true -> cr_children c = []) cs.
Proof. intros Hown. by apply createAll_fuel. Qed.


(** ** Substituting twice *)

Section SplitTwice.
Variable sf : gmap Value (list ObjectFifoCreateOp).
Variable tile : Value.

(** X11. [checkSplitFifo] is called on an acquire by the unroller and
    again by the walk over the acquires.  When no consumer fifo is itself
    split, the second call changes nothing. *)
Theorem checkSplitFifo_twice o o' :
  (forall parentFifo children ch,
     sf !! parentFifo = Some children -> ch ∈ children ->
     sf !! fifo_result ch = None) ->
  checkSplitFifo sf o tile = Ok o' ->
  checkSplitFifo sf o' tile = Ok o'.
Proof.
  intros Hleaf Hfirst.
  destruct (checkSplitFifo_cases sf tile o o' Hfirst) as (Hkind & _ & _).
  revert Hfirst. unfold checkSplitFifo.
  assert (isAcquire o' || isRelease o' = isAcquire o || isRelease o) as ->.
  { unfold isAcquire, isRelease. by rewrite Hkind. }
  destruct (isAcquire o || isRelease o); [|done].
  destruct (fifo o) as [p|] eqn:Hf.
  2:{ intros [= <-]. by rewrite Hf. }
  destruct (sf !! p) as [children|] eqn:Hsf.
  2:{ intros [= <-]. by rewrite Hf, Hsf. }
  case_bool_decide as Hport.
  2:{ intros [= <-]. rewrite Hf, Hsf. by rewrite bool_decide_eq_false_2. }
  fold (substitute p tile o children). intros [= <-].
  destruct (decide (Forall (fun ch => producerTile ch <> tile) children)) as [Hnone|Hsome].
  - rewrite (substitute_none tile p children o Hnone), Hf, Hsf.
    rewrite bool_decide_eq_true_2 by done.
    fold (substitute p tile o children). by rewrite substitute_none.
  - apply not_Forall_Exists in Hsome; [|intros ch; apply _].
    apply Exists_exists in Hsome as (ch & Hin & Hch).
    destruct (substitute_first p tile children o Hf) as (ch' & Hin' & _ & Hsub).
    + intros c Hc Heq. specialize (Hleaf p children c Hsf Hc).
      rewrite Heq in Hleaf. congruence.
    + exists ch. split; [done|]. by destruct (decide (producerTile ch = tile)).
    + rewrite Hsub. by rewrite (Hleaf p children ch' Hsf Hin').
Qed.

End SplitTwice.

(** ** Loop unrolling: dependencies, rounds and edge cases *)

Lemma fold_lcm_spec values : forall acc,
  0 < acc -> Forall (fun i => 0 < i) values ->
  let l := foldl (fun l i => Z.lcm i l) acc values in
  0 < l /\ (acc | l) /\ (forall i, i ∈ values -> (i | l)) /\
  (forall m, (acc | m) -> (forall i, i ∈ values -> (i | m)) -> (l | m)).
Proof.
  induction values as [|i values IH]; intros acc Hacc Hall; simpl.
  { split; [done|]. split; [done|]. split; [|by intros m Hm _].
    intros i Hi. by apply elem_of_nil in Hi. }
  apply Forall_cons in Hall as [Hi Hall].
  assert (0 < Z.lcm i acc) as Hpos.
  { pose proof (Z.lcm_nonneg i acc).
    assert (Z.lcm i acc <> 0); [|lia].
    intros Hz. apply Z.lcm_eq_0 in Hz. lia. }
  destruct (IH (Z.lcm i acc) Hpos Hall) as (Hl & Hdiv & Hin & Hleast).
  split; [done|]. split; [|split].
  - etransitivity; [apply Z.divide_lcm_r|exact Hdiv].
  - intros j Hj. apply elem_of_cons in Hj as [->|Hj]; [|by apply Hin].
    etransitivity; [apply Z.divide_lcm_l|exact Hdiv].
  - intros m Hm Hvals. apply Hleast.
    + apply Z.lcm_least; [apply Hvals; left|done].
    + intros j Hj. apply Hvals. by right.
Qed.

(** X12. For positive sizes whose product fits an [int], [computeLCM]
    returns their least common multiple: a positive number that every size
    divides and that divides every common multiple of the sizes.  When the
    smallest size is 0 it returns 0. *)
Theorem computeLCM_least_common_multiple values :
  (Forall (fun i => 0 < i) values -> foldr Z.mul 1 values < 2 ^ 31 ->
   exists l,
     computeLCM values = Ok l /\ 0 < l /\
     (forall i, i ∈ values -> (i | l)) /\
     (forall m, (forall i, i ∈ values -> (i | m)) -> (l | m))) /\
  (forall rest, values = 0 :: rest -> Forall (fun i => 0 < i) rest ->
   computeLCM values = Ok 0).
Proof.
  split.
  - intros Hall Hfit. eexists. split; [by apply computeLCM_lcm|].
    destruct (fold_lcm_spec values 1) as (Hl & _ & Hin & Hleast); [lia|done|].
    split; [done|]. split; [done|]. intros m Hm. apply Hleast; [|done].
    apply Z.divide_1_l.
  - intros rest -> Hall. unfold computeLCM. simpl. unfold cdiv. simpl.
    induction Hall as [|i rest Hi Hall IH]; [done|].
    simpl. rewrite Z.mul_0_r. change (wrap32 0) with 0.
    rewrite Z.gcd_0_r, Z.abs_eq by lia. unfold cdiv.
    destruct (Z.eqb_spec i 0) as [|_]; [lia|].
    simpl. rewrite Z.quot_0_l by lia. exact IH.
Qed.

Section Dependencies.
Variable isBlockArgument : Value -> bool.

Lemma dependencyIndex_cases forLoop index v :
  (foreignArgument isBlockArgument forLoop v /\
   dependencyIndex isBlockArgument forLoop index v = Fatal UndefinedBehaviour) \/
  (~ foreignArgument isBlockArgument forLoop v /\
   exists d, dependencyIndex isBlockArgument forLoop index v = Ok d /\
     (d = LOOP_VAR_DEPENDENCY <-> v = getInductionVar forLoop) /\
     (d = -1 <-> v <> getInductionVar forLoop /\ definedAt (getBody forLoop) v = None) /\
     (0 <= d -> exists k, definedAt (getBody forLoop) v = Some k /\
                          ((k <= index)%nat -> d = Z.of_nat k) /\
                          ((index < k)%nat -> d = 0))).
Proof.
  unfold dependencyIndex, foreignArgument, LOOP_VAR_DEPENDENCY.
  case_bool_decide as Hiv.
  { right. split; [tauto|]. eexists. split; [reflexivity|].
    split; [done|]. split; [split; [lia|tauto]|lia]. }
  destruct (isBlockArgument v) eqn:Hba.
  { left. by split. }
  right. split; [intros [_ ?]; done|].
  destruct (definedAt (getBody forLoop) v) as [k|] eqn:Hdef.
  - destruct (Nat.leb_spec k index) as [Hlt|Hge].
    + eexists. split; [reflexivity|]. split; [split; [lia|done]|].
      split; [split; [lia|intros [_ ?]; done]|].
      intros _. exists k. split; [done|]. split; [done|lia].
    + eexists. split; [reflexivity|]. split; [split; [lia|done]|].
      split; [split; [lia|intros [_ ?]; done]|].
      intros _. exists k. split; [done|]. split; [lia|done].
  - eexists. split; [reflexivity|]. split; [split; [lia|done]|].
    split; [done|]. lia.
Qed.

Lemma LOOP_VAR_DEPENDENCY_value : LOOP_VAR_DEPENDENCY = -2.
Proof. reflexivity. Qed.

(** The entry of an operand that an operation of the body defines: the
    position of that operation when it is recorded in [opIndex], 0
    otherwise. *)
Lemma dependencyIndex_defined forLoop index v k d :
  v <> getInductionVar forLoop ->
  definedAt (getBody forLoop) v = Some k ->
  dependencyIndex isBlockArgument forLoop index v = Ok d ->
  0 <= d /\ ((k <= index)%nat -> d = Z.of_nat k) /\ ((index < k)%nat -> d = 0).
Proof.
  intros Hniv Hk. unfold dependencyIndex.
  rewrite bool_decide_eq_false_2 by done.
  destruct (isBlockArgument v); [done|]. rewrite Hk.
  destruct (Nat.leb_spec k index); intros [= <-]; lia.
Qed.

Lemma mapM_Ok {A B : Type} (f : A -> result B) l bs :
  mapM f l = Ok bs <-> Forall2 (fun a b => f a = Ok b) l bs.
Proof.
  revert bs. induction l as [|a l IH]; intros bs; simpl.
  - split; [intros [= <-]; constructor|by inversion 1].
  - split.
    + destruct (f a) as [b|e] eqn:Hfa; rsimpl; [|done].
      destruct (mapM f l) as [bs'|e] eqn:Hrec; rsimpl; [|done].
      intros [= <-]. constructor; [done|by apply IH].
    + inversion 1 as [|? b0 ? bs0 Hb Hrest]; subst.
      apply IH in Hrest. by rewrite Hb, Hrest.
Qed.

Lemma mapM_Fatal {A B : Type} (f : A -> result B) l e :
  mapM f l = Fatal e -> exists a, a ∈ l /\ f a = Fatal e.
Proof.
  induction l as [|a l IH]; simpl; [done|].
  destruct (f a) as [b|e'] eqn:Hfa; rsimpl.
  - destruct (mapM f l) as [bs'|e'] eqn:Hrec; rsimpl; [done|].
    intros [= ->]. destruct IH as (a' & Hin & Ha'); [done|].
    exists a'. split; [by right|done].
  - intros [= ->]. exists a. split; [left|done].
Qed.

Lemma mapM_total {A B : Type} (f : A -> result B) l :
  (forall a, a ∈ l -> exists b, f a = Ok b) -> exists bs, mapM f l = Ok bs.
Proof.
  induction l as [|a l IH]; intros Hall; simpl; [by eexists|].
  destruct (Hall a) as [b ->]; [left|]. simpl.
  destruct IH as [bs ->]; [intros a' Ha'; apply Hall; by right|].
  by eexists.
Qed.

Lemma identifyDependencies_from_spec forLoop ops : forall index,
  ((exists o v, o ∈ ops /\ v ∈ getOperands o /\ foreignArgument isBlockArgument forLoop v) /\
   identifyDependencies_from isBlockArgument forLoop index ops
   = Fatal UndefinedBehaviour) \/
  ((forall o v, o ∈ ops -> v ∈ getOperands o -> ~ foreignArgument isBlockArgument forLoop v) /\
   exists rows,
     identifyDependencies_from isBlockArgument forLoop index ops = Ok rows /\
     length rows = length ops /\
     forall i o row, ops !! i = Some o -> rows !! i = Some row ->
       Forall2 (fun v d => dependencyIndex isBlockArgument forLoop (index + i) v = Ok d)
               (getOperands o) row).
Proof.
  induction ops as [|o ops IH]; intros index.
  { right. split; [intros o v Ho; by apply elem_of_nil in Ho|].
    exists []. split; [done|]. split; [done|].
    intros i o row Hi. by rewrite lookup_nil in Hi. }
  simpl.
  destruct (mapM (dependencyIndex isBlockArgument forLoop index) (getOperands o))
    as [row|e] eqn:Hrow; rsimpl.
  2:{ left. apply mapM_Fatal in Hrow as (v & Hv & Hfail).
      destruct (dependencyIndex_cases forLoop index v)
        as [[Hf Heq]|[_ (d & Heq & _)]]; rewrite Heq in Hfail; [|done].
      injection Hfail as <-. split; [|done].
      exists o, v. split; [left|]. by split. }
  destruct (IH (S index)) as [[(o' & v & Ho' & Hv & Hf) ->]|[Hnone (rows & -> & Hlen & Hrows)]];
    rsimpl.
  { left. split; [|done]. exists o', v. split; [by right|]. by split. }
  right. split.
  - intros o' v Ho' Hv. apply elem_of_cons in Ho' as [->|Ho']; [|by eapply Hnone].
    apply mapM_Ok in Hrow.
    apply list_elem_of_lookup in Hv as [p Hp].
    destruct (Forall2_lookup_l _ _ _ _ _ Hrow Hp) as (d & _ & Hd).
    destruct (dependencyIndex_cases forLoop index v) as [[_ Heq]|[Hnf _]]; [|done].
    by rewrite Heq in Hd.
  - exists (row :: rows). split; [done|]. split; [simpl; by rewrite Hlen|].
    intros [|i] o' row' Ho' Hrow'; simpl in Ho', Hrow'.
    + injection Ho' as <-. injection Hrow' as <-. rewrite Nat.add_0_r.
      by apply mapM_Ok.
    + replace (index + S i)%nat with (S index + i)%nat by lia. by eapply Hrows.
Qed.

(** X13. [identifyDependencies] dereferences the defining operation of
    every operand that is not the induction variable of the loop: it has
    undefined behaviour when an operation of the body uses another block
    argument, such as the induction variable of an enclosing loop.
    Otherwise it returns one row per operation of the body and one entry
    per operand: [LOOP_VAR_DEPENDENCY] exactly for the induction variable,
    [-1] exactly for a value defined outside the body, and for a value
    that the operation at position [k] of the body defines the entry [k]
    when that operation is recorded already (in valid IR it stands before
    the user; [opIndex] of an operation not visited yet reads as 0).  So
    an entry of 0 or more is there exactly for the values that the body
    defines. *)
Theorem identifyDependencies_spec forLoop :
  ((exists o v, o ∈ getBody forLoop /\ v ∈ getOperands o /\ foreignArgument isBlockArgument forLoop v) ->
   identifyDependencies isBlockArgument forLoop = Fatal UndefinedBehaviour) /\
  ((forall o v, o ∈ getBody forLoop -> v ∈ getOperands o -> ~ foreignArgument isBlockArgument forLoop v) ->
   exists rows,
     identifyDependencies isBlockArgument forLoop = Ok rows /\
     length rows = length (getBody forLoop) /\
     forall i o row, getBody forLoop !! i = Some o -> rows !! i = Some row ->
       length row = length (getOperands o) /\
       forall p v d, getOperands o !! p = Some v -> row !! p = Some d ->
         (d = LOOP_VAR_DEPENDENCY <-> v = getInductionVar forLoop) /\
         (d = -1 <-> v <> getInductionVar forLoop /\
                     definedAt (getBody forLoop) v = None) /\
         (forall k, v <> getInductionVar forLoop ->
                    definedAt (getBody forLoop) v = Some k ->
                    ((k <= i)%nat -> d = Z.of_nat k) /\
                    ((i < k)%nat -> d = 0)) /\
         (0 <= d <-> v <> getInductionVar forLoop /\
                     is_Some (definedAt (getBody forLoop) v))).
Proof.
  unfold identifyDependencies.
  destruct (identifyDependencies_from_spec forLoop (getBody forLoop) 0)
    as [[(o & v & Ho & Hv & Hf) Hfail]|[Hnone (rows & Hok & Hlen & Hrows)]].
  - split; [done|]. intros Hall. exfalso. by eapply Hall.
  - split.
    { intros (o & v & Ho & Hv & Hf). exfalso. by eapply Hnone. }
    intros _. exists rows. split; [done|]. split; [done|].
    intros i o row Ho Hrow. specialize (Hrows i o row Ho Hrow). simpl in Hrows.
    split; [symmetry; by eapply Forall2_length|].
    intros p v d Hv Hd.
    destruct (Forall2_lookup_l _ _ _ _ _ Hrows Hv) as (d' & Hd' & Heq).
    rewrite Hd in Hd'. injection Hd' as <-.
    destruct (dependencyIndex_cases forLoop i v)
      as [[_ Heq']|[_ (d' & Heq' & Hiv & Hout & Hin)]]; rewrite Heq' in Heq; [done|].
    injection Heq as ->. split; [done|]. split; [done|].
    pose proof LOOP_VAR_DEPENDENCY_value as Hlv.
    split.
    + intros k Hniv Hk.
      destruct (decide (0 <= d)) as [Hd0|Hneg].
      * destruct (Hin Hd0) as (k' & Hk' & Hlt & Hge).
        rewrite Hk in Hk'. injection Hk' as <-. by split.
      * exfalso. destruct (dependencyIndex_defined forLoop i v k d Hniv Hk Heq').
        lia.
    + split.
      * intros Hd0. destruct (Hin Hd0) as (k & Hk & _).
        split; [|by exists k]. intros Hv'. apply Hiv in Hv'. lia.
      * intros [Hniv [k Hk]].
        destruct (dependencyIndex_defined forLoop i v k d Hniv Hk Heq'). lia.
Qed.

End Dependencies.

Section RoundOfClones.

Lemma patchOperands_patched operands : forall fresh deps dup base inc created vs fresh',
  patchOperands fresh operands deps dup base inc = Ok (created, vs, fresh') ->
  length vs = length operands /\
  forall p v d, operands !! p = Some v -> deps !! p = Some d ->
    exists v', vs !! p = Some v' /\ patched dup created base inc v d v'.
Proof.
  induction operands as [|v operands IH];
    intros fresh deps dup base inc created vs fresh'; simpl.
  { intros [= <- <- <-]. split; [done|]. intros p v d Hp. by rewrite lookup_nil in Hp. }
  destruct deps as [|d deps]; [done|].
  destruct (Z.leb_spec 0 d) as [Hd|Hd].
  - destruct (dup !! Z.to_nat d ≫= _) as [r|] eqn:Hr; [|done].
    destruct (patchOperands _ _ _ _ _ _) as [[[cr vs0] f0]|] eqn:Hrec; rsimpl; [|done].
    intros [= <- <- <-]. apply IH in Hrec as [Hlen Hrec].
    split; [simpl; by rewrite Hlen|].
    intros [|p] w e Hw He; simpl in Hw, He.
    + injection Hw as <-. injection He as <-. exists r. split; [done|].
      destruct (dup !! Z.to_nat d) as [ck|] eqn:Hck; [|done]. simpl in Hr.
      split; [intros _; by exists ck|].
      unfold LOOP_VAR_DEPENDENCY. split; intros; lia.
    + by apply Hrec.
  - destruct (Z.eqb_spec d LOOP_VAR_DEPENDENCY) as [Hloop|Hloop].
    + destruct (patchOperands _ _ _ _ _ _) as [[[cr vs0] f0]|] eqn:Hrec; rsimpl; [|done].
      intros [= <- <- <-]. apply IH in Hrec as [Hlen Hrec].
      split; [simpl; by rewrite Hlen|].
      intros [|p] w e Hw He; simpl in Hw, He.
      * injection Hw as <-. injection He as <-. exists (S fresh). split; [done|].
        split; [lia|]. split; [|done]. intros _. exists fresh.
        split; [left|right; left].
      * destruct (Hrec p w e Hw He) as (v' & Hv' & Hd0 & Hl & Hn).
        exists v'. split; [done|]. split; [done|]. split; [|done].
        intros He'. destruct (Hl He') as (c & Hc1 & Hc2).
        exists c. split; by do 2 right.
    + destruct (patchOperands _ _ _ _ _ _) as [[[cr vs0] f0]|] eqn:Hrec; rsimpl; [|done].
      intros [= <- <- <-]. apply IH in Hrec as [Hlen Hrec].
      split; [simpl; by rewrite Hlen|].
      intros [|p] w e Hw He; simpl in Hw, He.
      * injection Hw as <-. injection He as <-. exists v. split; [done|].
        split; [lia|]. by split.
      * by apply Hrec.
Qed.

Lemma patched_mono dup dup' created created' base inc v d v' :
  (forall k ck, dup !! k = Some ck -> dup' !! k = Some ck) ->
  (forall x, x ∈ created -> x ∈ created') ->
  patched dup created base inc v d v' -> patched dup' created' base inc v d v'.
Proof.
  intros Hdup Hcr (Hd & Hl & Hn). split; [|split; [|done]].
  - intros Hd0. destruct (Hd Hd0) as (ck & Hck & Hr). exists ck. split; [auto|done].
  - intros Hd0. destruct (Hl Hd0) as (c & Hc1 & Hc2). exists c. split; auto.
Qed.

Lemma clone_results_length fresh o :
  length (getResults (clone fresh o).1) = length (getResults o).
Proof. destruct o. simpl. by rewrite length_seq. Qed.

Lemma setOperands_results o vs : getResults (setOperands o vs) = getResults o.
Proof. by destruct o. Qed.

Lemma duplicateRound_clones operations : forall fresh dependencies dup base inc ins fresh',
  duplicateRound fresh operations dependencies dup base inc = Ok (ins, fresh') ->
  exists clones,
    length clones = length operations /\ sublist clones ins /\
    forall j o row, operations !! j = Some o -> dependencies !! j = Some row ->
      exists c,
        clones !! j = Some c /\ op_kind c = op_kind o /\
        length (getResults c) = length (getResults o) /\
        length (getOperands c) = length (getOperands o) /\
        forall p v d, getOperands o !! p = Some v -> row !! p = Some d ->
          exists v', getOperands c !! p = Some v' /\
                     patched (dup ++ take j clones) ins base inc v d v'.
Proof.
  induction operations as [|o operations IH];
    intros fresh dependencies dup base inc ins fresh'; simpl.
  { intros [= <- <-]. exists []. split; [done|]. split; [constructor|].
    intros j o row Hj. by rewrite lookup_nil in Hj. }
  destruct dependencies as [|deps dependencies]; [done|].
  destruct (clone fresh o) as [c fresh1] eqn:Hclone.
  destruct (patchOperands _ _ _ _ _ _) as [[[created vs] fresh2]|] eqn:Hpatch;
    rsimpl; [|done].
  destruct (duplicateRound _ _ _ _ _ _) as [[ins' fresh3]|] eqn:Hrec; rsimpl; [|done].
  intros [= <- <-].
  assert (c = (clone fresh o).1) as Hc by (by rewrite Hclone).
  apply patchOperands_patched in Hpatch as [Hlen Hpatch].
  rewrite Hc, clone_operands in Hlen, Hpatch.
  apply IH in Hrec as (clones & Hclen & Hsub & Hclones).
  exists (setOperands c vs :: clones).
  split; [simpl; by rewrite Hclen|]. split.
  { apply sublist_inserts_l. by constructor. }
  intros [|j] o' row Ho' Hrow; simpl in Ho', Hrow.
  - injection Ho' as <-. injection Hrow as <-.
    exists (setOperands c vs). split; [done|].
    split; [by rewrite setOperands_kind, Hc, clone_kind|].
    split; [by rewrite setOperands_results, Hc, clone_results_length|].
    rewrite setOperands_operands. split; [done|].
    intros p v d Hv Hd. destruct (Hpatch p v d Hv Hd) as (v' & Hv' & Hp).
    exists v'. split; [done|]. simpl. rewrite app_nil_r.
    eapply patched_mono; [done| |exact Hp].
    intros x Hx. apply elem_of_app. by left.
  - destruct (Hclones j o' row Ho' Hrow) as (c' & Hc' & Hk & Hrg & Hl & Hops).
    exists c'. split; [done|]. split; [done|]. split; [done|]. split; [done|].
    intros p v d Hv Hd. destruct (Hops p v d Hv Hd) as (v' & Hv' & Hp).
    exists v'. split; [done|]. simpl.
    eapply patched_mono; [| |exact Hp].
    + intros k ck. by rewrite <- app_assoc.
    + intros x Hx. apply elem_of_app. right. by right.
Qed.

(** X14. What [duplicateBlock] inserts is one round per duplication, and
    a round holds one clone per operation of the body, in the order of the
    body.  A clone is the operation it was made from, with as many
    operands and results; an operand that depends on operation [d] of the body is the
    first result of clone [d] of the same round, an operand that depends on
    the induction variable is the sum of [base] and a new constant (the
    step times the number of the round, counted from 1 inside the loop and
    from 0 after it), and any other operand is the operand of the
    original. *)
Theorem duplicateBlock_rounds_of_clones fresh numDuplications operations
        dependencies base step inLoop ins fresh' :
  duplicateBlock fresh numDuplications operations dependencies base step inLoop
    = Ok (ins, fresh') ->
  exists rounds,
    ins = concat rounds /\ length rounds = Z.to_nat numDuplications /\
    forall k round, rounds !! k = Some round ->
      exists clones,
        length clones = length operations /\ sublist clones round /\
        forall j o row, operations !! j = Some o -> dependencies !! j = Some row ->
          exists c,
            clones !! j = Some c /\ op_kind c = op_kind o /\
            length (getResults c) = length (getResults o) /\
            length (getOperands c) = length (getOperands o) /\
            forall p v d, getOperands o !! p = Some v -> row !! p = Some d ->
              exists v',
                getOperands c !! p = Some v' /\
                patched (take j clones) round base
                        (wrap64 ((if inLoop then Z.of_nat k + 1 else Z.of_nat k) * step))
                        v d v'.
Proof.
  unfold duplicateBlock. intros Hdup.
  apply duplicateBlock_from_rounds in Hdup as (rounds & Hins & Hlen & Hrounds).
  exists rounds. split; [done|]. split; [done|].
  intros k round Hk. destruct (Hrounds k round Hk) as (f & f' & Hround).
  apply duplicateRound_clones in Hround as (clones & Hclen & Hsub & Hclones).
  exists clones. split; [done|]. split; [done|].
  intros j o row Ho Hrow.
  destruct (Hclones j o row Ho Hrow) as (c & Hc & Hkind & Hrg & Hl & Hops).
  exists c. split; [done|]. split; [done|]. split; [done|]. split; [done|].
  intros p v d Hv Hd. destruct (Hops p v d Hv Hd) as (v' & Hv' & Hp).
  exists v'. split; [done|]. simpl in Hp.
  by destruct inLoop.
Qed.

End RoundOfClones.

Section UnrollOneMore.
Variable isBlockArgument : Value -> bool.
Variable sf : gmap Value (list ObjectFifoCreateOp).
Variable defs : gmap Value ObjectFifoCreateOp.
Variable tile : Value.





End UnrollOneMore.

Section UnrollOnlyWithAcquire.
Variable isBlockArgument : Value -> bool.
Variable sf : gmap Value (list ObjectFifoCreateOp).
Variable defs : gmap Value ObjectFifoCreateOp.
Variable tile : Value.



End UnrollOnlyWithAcquire.

Section UnrollNeedsConstants.
Variable isBlockArgument : Value -> bool.
Variable sf : gmap Value (list ObjectFifoCreateOp).
Variable defs : gmap Value ObjectFifoCreateOp.
Variable tile : Value.



End UnrollNeedsConstants.

(** ** The walks over the releases, the acquires and the subview accesses *)

Section UseLocks.

Lemma roundRobin_cons N start n :
  0 < N -> 0 <= start < N ->
  roundRobin N start (S n) = start :: roundRobin N ((start + 1) mod N) n.
Proof.
  intros HN Hs. unfold roundRobin. rewrite Nat2Z.inj_succ, seqZ_cons by lia.
  simpl. rewrite Z.add_0_r, Z.mod_small by lia. f_equal.
  replace (Z.pred (Z.succ (Z.of_nat n))) with (Z.of_nat n) by lia.
  rewrite <- (fmap_add_seqZ 1 0), <- list_fmap_compose.
  apply list_fmap_ext. intros _ i _. simpl.
  rewrite Zplus_mod_idemp_l. f_equal. lia.
Qed.

Lemma roundRobin_range N start n i :
  0 < N -> i ∈ roundRobin N start n -> 0 <= i < N.
Proof.
  intros HN Hi. unfold roundRobin in Hi. apply list_elem_of_fmap in Hi as (j & -> & _).
  by apply Z.mod_pos_bound.
Qed.

Lemma createUseLocks_round_robin n : forall after op locks acc lockMode action start,
  acc !! fifo_result op = Some start ->
  0 <= start < elemNumber op ->
  elemNumber op <= Z.of_nat (length locks) ->
  elemNumber op < 2 ^ 31 ->
  exists used,
    Forall2 (fun i lock => locks !! Z.to_nat i = Some lock)
            (roundRobin (elemNumber op) start n) used /\
    createUseLocks n after op locks acc lockMode action
    = Ok (<[fifo_result op := (start + Z.of_nat n) mod elemNumber op]> acc,
          map (fun lock => mkUseLockOp after lock lockMode action) used).
Proof.
  induction n as [|n IH]; intros after op locks acc lockMode action start Hacc Hs HN Hint.
  { exists []. split; [constructor|]. simpl.
    rewrite Z.add_0_r, Z.mod_small by lia. by rewrite insert_id. }
  simpl. rewrite Hacc. simpl.
  destruct (Z.ltb_spec start 0) as [|_]; [lia|].
  destruct (locks !! Z.to_nat start) as [lock|] eqn:Hlock.
  2:{ apply lookup_ge_None in Hlock. lia. }
  rewrite (wrap32_small (start + 1)) by (unfold int_range; lia).
  rewrite crem_nonzero by lia. rsimpl.
  rewrite Z.rem_mod_nonneg by lia.
  destruct (IH after op locks (<[fifo_result op := (start + 1) mod elemNumber op]> acc)
               lockMode action ((start + 1) mod elemNumber op))
    as (used & Hused & ->).
  - by rewrite lookup_insert_eq.
  - apply Z.mod_pos_bound. lia.
  - done.
  - done.
  - rsimpl. exists (lock :: used). split.
    + rewrite roundRobin_cons by lia. by constructor.
    + rewrite insert_insert_eq. simpl. do 3 f_equal.
      rewrite Zplus_mod_idemp_l. f_equal. lia.
Qed.

End UseLocks.

Section UseLocksTheorem.

(** X18. [createUseLocks] goes round the locks of the fifo: from the
    index recorded for the fifo it uses [numLocks] locks in a row, back to
    lock 0 after the last one, all with the given mode and action, and
    records the index that follows.  For a fifo without elements the first
    lock it is asked for is a division by zero or an index past the
    end. *)
Theorem createUseLocks_cycles_through_locks n after op locks acc lockMode action :
  (forall start,
     acc !! fifo_result op = Some start ->
     0 <= start < elemNumber op ->
     elemNumber op <= Z.of_nat (length locks) ->
     elemNumber op < 2 ^ 31 ->
     exists used,
       Forall2 (fun i lock => locks !! Z.to_nat i = Some lock)
               (roundRobin (elemNumber op) start n) used /\
       createUseLocks n after op locks acc lockMode action
       = Ok (<[fifo_result op := (start + Z.of_nat n) mod elemNumber op]> acc,
             map (fun lock => mkUseLockOp after lock lockMode action) used)) /\
  (elemNumber op = 0 -> (0 < n)%nat ->
   createUseLocks n after op locks acc lockMode action = Fatal UndefinedBehaviour).
Proof.
  split; [intros start; apply createUseLocks_round_robin|].
  intros Hz Hn. destruct n as [|n]; [lia|]. simpl.
  destruct (_ <? 0); [done|].
  destruct (locks !! _); [|done].
  rewrite Hz. unfold crem. simpl. done.
Qed.

End UseLocksTheorem.

Section Releases.
Variable sf : gmap Value (list ObjectFifoCreateOp).
Variable defs : gmap Value ObjectFifoCreateOp.
Variable buffers : gmap Value (list BufferOp).
Variable locks : gmap Value (list LockAnalysis.LockOp).
Variable tile : Value.


End Releases.

Section PendingReleases.

Lemma countReleases_skips n : forall i acq acquireOp storage size numRel,
  (forall j e, (i <= j < i + n)%nat -> storage !! j = Some e ->
               releasedBefore acq acquireOp e.1 e.2 = false) ->
  (i + n <= length storage)%nat ->
  countReleases n i acq acquireOp storage size numRel = Ok (storage, size, numRel).
Proof.
  induction n as [|n IH]; intros i acq acquireOp storage size numRel Hskip Hlen; [done|].
  simpl. destruct (storage !! i) as [[rel relOp]|] eqn:Hi.
  2:{ apply lookup_ge_None in Hi. lia. }
  pose proof (Hskip i (rel, relOp) ltac:(lia) Hi) as Hno. simpl in Hno. rewrite Hno.
  apply IH; [|lia]. intros j e Hj. apply Hskip. lia.
Qed.

(** X20. An acquire counts no pending release of another fifo and no
    release that stands after it in its own block: it counts nothing and
    leaves the pending releases as they are when all of them are of these
    two kinds. *)
Theorem countReleases_skips_unrelated l acquireOp pending :
  Forall (fun e => fifo e.2 <> fifo acquireOp \/
                   (getBlock e.1 = getBlock l /\
                    (indexInBlock l < indexInBlock e.1)%nat)) pending ->
  countReleases (length pending) 0 l acquireOp pending (length pending) 0
  = Ok (pending, length pending, 0).
Proof.
  intros Hall. apply countReleases_skips; [|done].
  intros j [rel relOp] _ Hj. rewrite Forall_lookup in Hall.
  specialize (Hall j _ Hj). simpl in *. unfold releasedBefore.
  destruct Hall as [Hne|[Hblock Hlater]].
  - rewrite bool_decide_eq_false_2; [done|congruence].
  - case_bool_decide; [|done]. rewrite bool_decide_eq_true_2 by congruence.
    unfold isBeforeInBlock.
    destruct (Nat.ltb_spec (indexInBlock l) (indexInBlock rel)); [done|lia].
Qed.

End PendingReleases.

Section AcquireAndAccess.
Variable sf : gmap Value (list ObjectFifoCreateOp).
Variable defs : gmap Value ObjectFifoCreateOp.
Variable buffers : gmap Value (list BufferOp).
Variable locks : gmap Value (list LockAnalysis.LockOp).
Variable tile : Value.

Lemma subviewRefs_total (fifoBuffers : list BufferOp) N indices :
  N <= Z.of_nat (length fifoBuffers) ->
  Forall (fun i => 0 <= i < N) indices ->
  exists refs,
    mapM (fun index =>
            if index <? 0 then Fatal UndefinedBehaviour else
            match fifoBuffers !! Z.to_nat index with
            | Some b => Ok b
            | None => Fatal UndefinedBehaviour
            end) indices = Ok refs /\
    Forall2 (fun i b => fifoBuffers !! Z.to_nat i = Some b) indices refs.
Proof.
  intros HN Hall.
  destruct (mapM_total
              (fun index =>
                 if index <? 0 then Fatal UndefinedBehaviour else
                 match fifoBuffers !! Z.to_nat index with
                 | Some b => Ok b
                 | None => Fatal UndefinedBehaviour
                 end) indices) as [refs Hrefs].
  { intros i Hi. rewrite Forall_forall in Hall. specialize (Hall i Hi).
    destruct (Z.ltb_spec i 0) as [|_]; [lia|].
    destruct (fifoBuffers !! Z.to_nat i) as [b|] eqn:Hb; [by eexists|].
    apply lookup_ge_None in Hb. lia. }
  exists refs. split; [done|]. apply mapM_Ok in Hrefs.
  eapply Forall2_impl; [exact Hrefs|]. intros i b. simpl.
  destruct (i <? 0); [done|]. destruct (fifoBuffers !! Z.to_nat i); [|done].
  by intros [= ->].
Qed.

Lemma replaceAcquire_spec st l acquireOp acquireOp' op
        storage size numRel :
  checkSplitFifo sf acquireOp tile = Ok acquireOp' ->
  checkCorrectPort defs acquireOp' (parentsIn tile l) = Ok tt ->
  fifo acquireOp' ≫= (defs !!.) = Some op ->
  countReleases (length (releaseOps st)) 0 l acquireOp' (releaseOps st)
                (length (releaseOps st)) 0 = Ok (storage, size, numRel) ->
  let N := elemNumber op in
  let start := default 0 (acqPerFifo st !! fifo_result op) in
  let held := default [] (acquiresPerFifo st !! fifo_result op) in
  let kept := drop (Z.to_nat numRel) held in
  let missing := Z.to_nat (acqNumber acquireOp' - Z.of_nat (length kept)) in
  let fifoLocks := default [] (locks !! fifo_result op) in
  let fifoBuffers := default [] (buffers !! fifo_result op) in
  0 <= start < N -> N < 2 ^ 31 ->
  N <= Z.of_nat (length fifoLocks) -> N <= Z.of_nat (length fifoBuffers) ->
  (held <> [] -> 0 <= numRel <= Z.of_nat (length held)) ->
  Forall (fun i => 0 <= i < N) held ->
  exists used refs,
    Forall2 (fun i lock => fifoLocks !! Z.to_nat i = Some lock)
            (roundRobin N start missing) used /\
    Forall2 (fun i b => fifoBuffers !! Z.to_nat i = Some b)
            (kept ++ roundRobin N start missing) refs /\
    replaceAcquire sf defs buffers locks tile st l acquireOp
    = Ok {| subviews := subviews st ++ [(l, refs)];
            acquiresPerFifo :=
              <[fifo_result op := kept ++ roundRobin N start missing]>
                (acquiresPerFifo st);
            releaseOps := take size storage;
            acqPerFifo :=
              <[fifo_result op := (start + Z.of_nat missing) mod N]> (acqPerFifo st);
            relPerFifo := relPerFifo st;
            useLocks :=
              useLocks st
              ++ map (fun lock =>
                        mkUseLockOp l lock
                          (if bool_decide (port acquireOp' = Some Produce) then 0 else 1)
                          Acquire) used |}.
Proof.
  intros Hsplit Hport Hop Hcount N start held kept missing fifoLocks fifoBuffers
         Hs Hint HNl HNb Hrel Hheld.
  unfold replaceAcquire. rewrite Hsplit. rsimpl. rewrite Hport. rsimpl. rewrite Hop.
  assert (exists acq1, updateAndReturnIndex (acqPerFifo st) op = (start, acq1) /\
                       acq1 !! fifo_result op = Some start /\
                       forall z, <[fifo_result op := z]> acq1
                                 = <[fifo_result op := z]> (acqPerFifo st))
    as (acq1 & -> & Hacq1 & Hins).
  { unfold updateAndReturnIndex, start.
    destruct (acqPerFifo st !! fifo_result op) as [r|] eqn:Hr.
    - by exists (acqPerFifo st).
    - eexists. split; [reflexivity|]. rewrite lookup_insert_eq. split; [done|].
      intros z. by rewrite insert_insert_eq. }
  rewrite Hcount. rsimpl. fold held.
  assert ((if (length held =? 0)%nat then Ok []
           else if (0 <=? numRel) && (numRel <=? Z.of_nat (length held))
                then Ok (drop (Z.to_nat numRel) held)
                else Fatal ReleaseMoreThanAcquired) = Ok kept) as ->.
  { subst kept. destruct held as [|h held']; [by rewrite drop_nil|].
    simpl length. destruct (Hrel ltac:(done)) as [H0 H1].
    change (S (length held') =? 0)%nat with false. cbv iota.
    destruct (Z.leb_spec 0 numRel); [|lia].
    simpl in H1.
    destruct (Z.leb_spec numRel (Z.of_nat (S (length held')))); [done|lia]. }
  rsimpl.
  assert (Z.to_nat (if Z.of_nat (length kept) <? acqNumber acquireOp'
                    then acqNumber acquireOp' - Z.of_nat (length kept) else 0)
          = missing) as ->.
  { subst missing. destruct (Z.ltb_spec (Z.of_nat (length kept)) (acqNumber acquireOp'));
      [done|lia]. }
  destruct (createUseLocks_round_robin missing l op fifoLocks acq1
              (if bool_decide (port acquireOp' = Some Produce) then 0 else 1)
              Acquire start Hacq1) as (used & Hused & Hcreate); [done..|].
  fold fifoLocks. rewrite Hcreate. rsimpl.
  assert (forall n s, 0 <= s < N ->
            (fix indices (n : nat) (start : Z) {struct n} : result (list Z) :=
               match n with
               | 0%nat => Ok []
               | S n' =>
                   next ← crem (wrap32 (start + 1)) (elemNumber op);
                   rest ← indices n' next;
                   mret (start :: rest)
               end) n s = Ok (roundRobin N s n)) as Hindices.
  { induction n as [|n IH]; intros s Hsn; [done|].
    rewrite (wrap32_small (s + 1)) by (unfold int_range; lia).
    rewrite crem_nonzero by (fold N; lia). rsimpl.
    rewrite Z.rem_mod_nonneg by (fold N; lia). fold N.
    rewrite IH by (apply Z.mod_pos_bound; lia). rsimpl.
    by rewrite roundRobin_cons by lia. }
  rewrite Hindices by done. rsimpl.
  destruct (subviewRefs_total fifoBuffers N (kept ++ roundRobin N start missing))
    as (refs & Hrefs & Hall); [done| |].
  { apply Forall_app. split.
    - subst kept. by apply Forall_drop.
    - apply Forall_forall. intros i Hi. eapply roundRobin_range; [|exact Hi]. lia. }
  fold fifoBuffers. rewrite Hrefs. rsimpl.
  exists used, refs. split; [done|]. split; [done|]. by rewrite Hins.
Qed.


Lemma subviewAt_app_miss subs1 subs2 l :
  (forall refs, (l, refs) ∉ subs1) -> subviewAt (subs1 ++ subs2) l = subviewAt subs2 l.
Proof.
  induction subs1 as [|[l' refs'] subs1 IH]; intros Hnot; [done|].
  simpl. case_bool_decide as Heq.
  - subst l'. exfalso. apply (Hnot refs'). left.
  - apply IH. intros refs Hin. apply (Hnot refs). by right.
Qed.

(** X22. For a subview access whose index is [i], the buffer that the
    walk hands to [replaceUsesOfWith] to stand for the result of the access
    in the users its loop rewrites is the buffer of element [i] of the
    subview of its acquire: the elements kept from earlier acquires come
    first, oldest first, then the newly acquired ones.  An index below 0
    or past the last element stops the pass on "Index out of bounds for
    subview". *)
Theorem access_reads_held_element ops st st' later l acquireOp acquireOp' op
        storage size numRel accessOp v out :
  checkSplitFifo sf acquireOp tile = Ok acquireOp' ->
  checkCorrectPort defs acquireOp' (parentsIn tile l) = Ok tt ->
  fifo acquireOp' ≫= (defs !!.) = Some op ->
  countReleases (length (releaseOps st)) 0 l acquireOp' (releaseOps st)
                (length (releaseOps st)) 0 = Ok (storage, size, numRel) ->
  let N := elemNumber op in
  let start := default 0 (acqPerFifo st !! fifo_result op) in
  let held := default [] (acquiresPerFifo st !! fifo_result op) in
  let kept := drop (Z.to_nat numRel) held in
  let missing := Z.to_nat (acqNumber acquireOp' - Z.of_nat (length kept)) in
  let fifoBuffers := default [] (buffers !! fifo_result op) in
  let elements := kept ++ roundRobin N start missing in
  0 <= start < N -> N < 2 ^ 31 ->
  N <= Z.of_nat (length (default [] (locks !! fifo_result op))) ->
  N <= Z.of_nat (length fifoBuffers) ->
  (held <> [] -> 0 <= numRel <= Z.of_nat (length held)) ->
  Forall (fun i => 0 <= i < N) held ->
  (forall refs, (l, refs) ∉ subviews st) ->
  replaceAcquire sf defs buffers locks tile st l acquireOp = Ok st' ->
  (exists more, subviews later = subviews st' ++ more) ->
  head (getOperands accessOp) = Some v ->
  definingAcquire ops v = Some l ->
  head (getResults accessOp) = Some out ->
  (forall i index,
     getIndex accessOp = Z.of_nat i -> elements !! i = Some index ->
     exists buffer,
       fifoBuffers !! Z.to_nat index = Some buffer /\
       subviewAccessReplacement ops later accessOp = Ok (out, buffer)) /\
  (getIndex accessOp < 0 \/ Z.of_nat (length elements) <= getIndex accessOp ->
   subviewAccessReplacement ops later accessOp = Fatal SubviewOutOfBounds).
Proof.
  intros Hsplit Hport Hop Hcount N start held kept missing fifoBuffers elements
         Hs Hint HNl HNb Hrel Hheld Hnew Hacq [more Hlater] Hv Hdef Hout.
  destruct (replaceAcquire_spec st l acquireOp acquireOp' op storage size numRel
              Hsplit Hport Hop Hcount Hs Hint HNl HNb Hrel Hheld)
    as (used & refs & _ & Hrefs & Heq).
  rewrite Heq in Hacq. injection Hacq as <-. simpl in Hlater.
  assert (subviewAt (subviews later) l = refs) as Hsub.
  { rewrite Hlater, <- app_assoc, subviewAt_app_miss by done.
    simpl. by rewrite bool_decide_eq_true_2. }
  unfold subviewAccessReplacement. rewrite Hv. simpl. rewrite Hdef, Hsub, Hout.
  assert (length elements = length refs) as Hlen by (by eapply Forall2_length).
  split.
  - intros i index Hi Hidx. rewrite Hi.
    destruct (Forall2_lookup_l _ _ _ _ _ Hrefs Hidx) as (b & Hb & Hbuf).
    exists b. split; [done|].
    apply lookup_lt_Some in Hidx.
    destruct (Z.leb_spec 0 (Z.of_nat i)); [|lia].
    destruct (Z.ltb_spec (Z.of_nat i) (Z.of_nat (length refs))); [|lia].
    simpl. by rewrite Nat2Z.id, Hb.
  - intros [Hneg|Hbig].
    + destruct (Z.leb_spec 0 (getIndex accessOp)); [lia|done].
    + destruct (Z.ltb_spec (getIndex accessOp) (Z.of_nat (length refs))); [lia|].
      by rewrite andb_false_r.
Qed.

End AcquireAndAccess.

(** ** The further properties at work on the small module *)

Lemma createDMA_keeps_chain_witness :
  exists body',
    createDMA createdTwo.1.1 [] 0%nat fifoSecondSized MM2S1 0
    = Ok ([] ++ [mkMemOp (producerTile fifoSecondSized) body'],
          (2 + Z.to_nat (size fifoSecondSized))%nat) /\
    chained body' (2 + Z.to_nat (size fifoSecondSized))%nat MM2S1.
Proof.
  apply (createDMA_keeps_chain createdTwo.1.1 [] 0%nat fifoSecondSized MM2S1 0
           buffersSecond locksSecond).
  - vm_compute. split; [reflexivity|discriminate].
  - vm_compute. reflexivity.
  - vm_compute. reflexivity.
  - vm_compute. reflexivity.
  - vm_compute. reflexivity.
  - constructor.
Defined.

Lemma every_acquire_fits_witness :
  acqNumber (acquireOp Consume 10%nat 1 20%nat)
  <= findObjectFifoSize coresFar (tile_result tile33) fifoFar.
Proof.
  apply (every_acquire_fits coresFar (tile_result tile33) fifoFar
           (acquireOp Consume 10%nat 1 20%nat)).
  - exists (mkCoreOp (tile_result tile33)
              [ acquireOp Consume 10%nat 1 20%nat; releaseOp Consume 10%nat 1 ]).
    split; [left|]. split; [reflexivity|]. split; [left|]. split; reflexivity.
  - discriminate.
  - intros o' (c & Hc & _ & Hin & _).
    apply list_elem_of_singleton in Hc as ->. simpl in Hin.
    apply elem_of_cons in Hin as [->|Hin]; [reflexivity|].
    apply list_elem_of_singleton in Hin as ->. reflexivity.
Defined.

Lemma createAll_returns_witness :
  exists r,
    createAll exampleAffinity coresTwo 10 emptyState 100%nat [fifoDeep; fifoSecond]
    = Some r /\
    forall st' fresh' cs, r = Ok (st', fresh', cs) ->
      length cs = sum_list_with (visits exampleAffinity) [fifoDeep; fifoSecond] /\
      Forall (fun c => cr_shared c = true -> cr_children c = []) cs.
Proof.
  apply (createAll_returns exampleAffinity coresTwo 10 emptyState 100%nat
           [fifoDeep; fifoSecond]).
  - intros col row. unfold exampleAffinity. rewrite !Z.sub_diag. reflexivity.
  - vm_compute. lia.
Defined.

Lemma checkSplitFifo_twice_witness :
  checkSplitFifo (splitFifos (cr_state createdFar))
                 (acquireOp Consume 100%nat 1 20%nat) (tile_result tile33)
  = Ok (acquireOp Consume 100%nat 1 20%nat).
Proof.
  apply (checkSplitFifo_twice (splitFifos (cr_state createdFar)) (tile_result tile33)
           (acquireOp Consume 10%nat 1 20%nat)).
  - intros parentFifo children ch. rewrite splitFifos_createdFar.
    intros Hsf Hin. apply lookup_singleton_Some in Hsf as [<- <-].
    vm_compute in Hin. apply list_elem_of_singleton in Hin as ->. reflexivity.
  - vm_compute. reflexivity.
Defined.

(** The row of the third operation of [loopChained]: its first operand is
    the result of the operation at position 1, its second the induction
    variable, its third a value of outside. *)
Lemma identifyDependencies_spec_witness :
  exists rows row,
    identifyDependencies blockArgsFar loopChained = Ok rows /\
    rows !! 2%nat = Some row /\
    row = [1; LOOP_VAR_DEPENDENCY; -1].
Proof.
  destruct (identifyDependencies_spec blockArgsFar loopChained) as [_ Hspec].
  destruct Hspec as (rows & Hok & Hlen & Hrows).
  { intros o v _ _ [Hne Hba]. unfold blockArgsFar in Hba.
    apply bool_decide_eq_true in Hba. done. }
  assert (2 < length rows)%nat as Hlt. { rewrite Hlen. vm_compute. lia. }
  destruct (lookup_lt_is_Some_2 rows 2%nat Hlt) as [row Hrow].
  exists rows, row. split; [exact Hok|]. split; [exact Hrow|].
  destruct (Hrows 2%nat _ row eq_refl Hrow) as [Hl Hentries].
  destruct row as [|d0 [|d1 [|d2 [|]]]]; try discriminate Hl.
  destruct (Hentries 0%nat 21%nat d0 eq_refl eq_refl) as (_ & _ & Hdef & _).
  destruct (Hdef 1%nat) as [Hk _]; [discriminate|vm_compute; reflexivity|].
  rewrite (Hk ltac:(lia)).
  destruct (Hentries 1%nat 30%nat d1 eq_refl eq_refl) as (Hiv & _).
  rewrite (proj2 Hiv eq_refl).
  destruct (Hentries 2%nat 50%nat d2 eq_refl eq_refl) as (_ & Hout & _).
  assert (d2 = -1) as ->.
  { apply Hout. split; [discriminate|]. vm_compute. reflexivity. }
  reflexivity.
Defined.

Lemma duplicateBlock_rounds_of_clones_witness :
  exists rounds,
    (from_result ([], 0%nat)
       (duplicateBlock 200%nat 2 bodyDeep [[-1]; [-2]; [-1]] 30%nat 1 true)).1
    = concat rounds /\ length rounds = 2%nat.
Proof.
  destruct (duplicateBlock_rounds_of_clones 200%nat 2 bodyDeep [[-1]; [-2]; [-1]]
              30%nat 1 true
              (from_result ([], 0%nat)
                 (duplicateBlock 200%nat 2 bodyDeep [[-1]; [-2]; [-1]] 30%nat 1 true)).1
              (from_result ([], 0%nat)
                 (duplicateBlock 200%nat 2 bodyDeep [[-1]; [-2]; [-1]] 30%nat 1 true)).2)
    as (rounds & Hins & Hlen & _); [vm_compute; reflexivity|].
  exists rounds. split; [exact Hins|exact Hlen].
Defined.




Lemma countReleases_skips_unrelated_witness :
  countReleases 1 0 (InRegion (InModule 0) 0 0) (acquireOp Consume 14%nat 2 50%nat)
                [(InRegion (InModule 0) 0 2, releaseOp Consume 13%nat 1)] 1 0
  = Ok ([(InRegion (InModule 0) 0 2, releaseOp Consume 13%nat 1)], 1%nat, 0).
Proof.
  apply (countReleases_skips_unrelated (InRegion (InModule 0) 0 0)
           (acquireOp Consume 14%nat 2 50%nat)
           [(InRegion (InModule 0) 0 2, releaseOp Consume 13%nat 1)]).
  constructor; [|constructor]. left. discriminate.
Defined.



Lemma access_reads_held_element_witness :
  (exists buffer,
     default [] (buffersPerFifo stateAB !! fifo_result fifoB) !! Z.to_nat 1
     = Some buffer /\
     subviewAccessReplacement (walkCoreAt 0 coreAB)
       (from_result emptyCoreState
          (replaceAcquire (splitFifos stateAB) defsAB (buffersPerFifo stateAB)
             (locksPerFifo stateAB) (tile_result tile13) emptyCoreState
             (InRegion (InModule 0) 0 0) (acquireOp Consume 14%nat 2 50%nat)))
       (mkOperation (KSubviewAccess 1) [50%nat] [80%nat] [])
     = Ok (80%nat, buffer)) /\
  subviewAccessReplacement (walkCoreAt 0 coreAB)
    (from_result emptyCoreState
       (replaceAcquire (splitFifos stateAB) defsAB (buffersPerFifo stateAB)
          (locksPerFifo stateAB) (tile_result tile13) emptyCoreState
          (InRegion (InModule 0) 0 0) (acquireOp Consume 14%nat 2 50%nat)))
    (mkOperation (KSubviewAccess 2) [50%nat] [80%nat] [])
  = Fatal SubviewOutOfBounds.
Proof.
  split.
  - destruct (access_reads_held_element (splitFifos stateAB) defsAB
             (buffersPerFifo stateAB) (locksPerFifo stateAB) (tile_result tile13)
             (walkCoreAt 0 coreAB) emptyCoreState
             (from_result emptyCoreState
                (replaceAcquire (splitFifos stateAB) defsAB (buffersPerFifo stateAB)
                   (locksPerFifo stateAB) (tile_result tile13) emptyCoreState
                   (InRegion (InModule 0) 0 0) (acquireOp Consume 14%nat 2 50%nat)))
             (from_result emptyCoreState
                (replaceAcquire (splitFifos stateAB) defsAB (buffersPerFifo stateAB)
                   (locksPerFifo stateAB) (tile_result tile13) emptyCoreState
                   (InRegion (InModule 0) 0 0) (acquireOp Consume 14%nat 2 50%nat)))
             (InRegion (InModule 0) 0 0)
             (acquireOp Consume 14%nat 2 50%nat) (acquireOp Consume 14%nat 2 50%nat)
             fifoB [] 0%nat 0 (mkOperation (KSubviewAccess 1) [50%nat] [80%nat] [])
             50%nat 80%nat) as [Hin _].
    + vm_compute. reflexivity.
    + vm_compute. reflexivity.
    + vm_compute. reflexivity.
    + vm_compute. reflexivity.
    + vm_compute. split; [discriminate|reflexivity].
    + vm_compute. reflexivity.
    + vm_compute. discriminate.
    + vm_compute. discriminate.
    + intros Hne. exfalso. apply Hne. reflexivity.
    + constructor.
    + intros refs Hin. vm_compute in Hin. by apply elem_of_nil in Hin.
    + vm_compute. reflexivity.
    + exists []. vm_compute. reflexivity.
    + reflexivity.
    + vm_compute. reflexivity.
    + reflexivity.
    + apply (Hin 1%nat 1); [reflexivity|vm_compute; reflexivity].
  - apply (access_reads_held_element (splitFifos stateAB) defsAB
             (buffersPerFifo stateAB) (locksPerFifo stateAB) (tile_result tile13)
             (walkCoreAt 0 coreAB) emptyCoreState
             (from_result emptyCoreState
                (replaceAcquire (splitFifos stateAB) defsAB (buffersPerFifo stateAB)
                   (locksPerFifo stateAB) (tile_result tile13) emptyCoreState
                   (InRegion (InModule 0) 0 0) (acquireOp Consume 14%nat 2 50%nat)))
             (from_result emptyCoreState
                (replaceAcquire (splitFifos stateAB) defsAB (buffersPerFifo stateAB)
                   (locksPerFifo stateAB) (tile_result tile13) emptyCoreState
                   (InRegion (InModule 0) 0 0) (acquireOp Consume 14%nat 2 50%nat)))
             (InRegion (InModule 0) 0 0)
             (acquireOp Consume 14%nat 2 50%nat) (acquireOp Consume 14%nat 2 50%nat)
             fifoB [] 0%nat 0 (mkOperation (KSubviewAccess 2) [50%nat] [80%nat] [])
             50%nat 80%nat).
    + vm_compute. reflexivity.
    + vm_compute. reflexivity.
    + vm_compute. reflexivity.
    + vm_compute. reflexivity.
    + vm_compute. split; [discriminate|reflexivity].
    + vm_compute. reflexivity.
    + vm_compute. discriminate.
    + vm_compute. discriminate.
    + intros Hne. exfalso. apply Hne. reflexivity.
    + constructor.
    + intros refs Hin. vm_compute in Hin. by apply elem_of_nil in Hin.
    + vm_compute. reflexivity.
    + exists []. vm_compute. reflexivity.
    + reflexivity.
    + vm_compute. reflexivity.
    + reflexivity.
    + right. vm_compute. discriminate.
Defined.

(** Element 1 of the subview of the first acquire of [coreAB], which holds
    elements 0 and 1 of fifo 14, is the second buffer of that fifo. *)
Example access_reads_second_element :
  subviewAccessReplacement (walkCoreAt 0 coreAB)
    (from_result emptyCoreState
       (replaceAcquire (splitFifos stateAB) defsAB (buffersPerFifo stateAB)
          (locksPerFifo stateAB) (tile_result tile13) emptyCoreState
          (InRegion (InModule 0) 0 0) (acquireOp Consume 14%nat 2 50%nat)))
    (mkOperation (KSubviewAccess 1) [50%nat] [80%nat] [])
  = Ok (80%nat, mkBufferOp 3 1%nat [16]).
Proof. vm_compute. reflexivity. Qed.
